(** * Pseudo-random generators: a shallow embedding of [main.cpp]

    The generator classes of [main.cpp] and the [histogram] function, written
    as Rocq functions, followed by the properties proved about them.

    Conventions of the embedding.
    - [unsigned long long] is a [Z] in [0, 2^64); every [+], [-] and [*] of
      the source is followed by its reduction modulo [2^64], written out.
    - [int] is a [Z] in [-2^31, 2^31); overflow of a signed operation is a
      fault, as it is undefined in C++.
    - [double] is Rocq's primitive binary64 [float], whose operations are the
      IEEE 754 ones rounding to nearest, ties to even.
    - A member function that mutates its object returns the new object next
      to its result.  What C++ leaves undefined, or reports by an exception,
      is a [Fault]; a computation that asks for more pseudo-random draws (or
      more call depth) than it was given is [Starved]. *)

From Stdlib Require Import ZArith List Lia Bool Znumtheory QArith Qabs.
From Stdlib Require Import Floats.
From Stdlib Require Import Permutation.
Import ListNotations.

Local Open Scope Z_scope.

(** ** Outcomes of a call *)

Inductive fault : Set :=
| DivisionByZero   (* integer [/] or [%] by zero *)
| OutOfBounds      (* [operator[]] outside the vector *)
| SignedOverflow   (* [++] on an [int] holding [INT_MAX] *)
| CastOutOfRange   (* [static_cast<int>] of a double no [int] holds *)
| LengthError      (* [std::vector] asked for a negative size *)
| DanglingPointer. (* a [Generator*] that points at no object *)

Inductive outcome (A : Type) : Type :=
| Ret (a : A)
| Fault (f : fault)
| Starved.

Arguments Ret {A} a.
Arguments Fault {A} f.
Arguments Starved {A}.

Definition bind {A B : Type} (c : outcome A) (k : A -> outcome B) : outcome B :=
  match c with
  | Ret a => k a
  | Fault f => Fault f
  | Starved => Starved
  end.

Notation "x <- c ;; k" := (bind c (fun x => k))
  (at level 61, c at next level, right associativity).
Notation "' pat <- c ;; k" := (bind c (fun x => match x with pat => k end))
  (at level 61, pat pattern, c at next level, right associativity).

(** ** [unsigned long long] *)

Module U64.

Definition modulus : Z := 2 ^ 64.

Definition wrap (z : Z) : Z := z mod modulus.

Definition in_range (z : Z) : Prop := 0 <= z < modulus.

Definition add (a b : Z) : Z := wrap (a + b).
Definition sub (a b : Z) : Z := wrap (a - b).
Definition mul (a b : Z) : Z := wrap (a * b).

(** [a / b] and [a % b]: undefined when [b] is zero. *)
Definition div (a b : Z) : outcome Z :=
  if b =? 0 then Fault DivisionByZero else Ret (a / b).

Definition rem (a b : Z) : outcome Z :=
  if b =? 0 then Fault DivisionByZero else Ret (a mod b).

End U64.

(** ** [double] *)

Module Double.

(** Conversion of an integer to [double]: the nearest binary64 number. *)
Definition of_Z (z : Z) : float :=
  SF2Prim (binary_normalize prec emax z 0 false).

(** The integer part of a finite double (rounding toward zero). *)
Definition truncate (f : float) : option Z :=
  match Prim2SF f with
  | S754_zero _ => Some 0
  | S754_finite s m e => Some (cond_Zopp s (Z.shiftl (Zpos m) e))
  | S754_infinity _ | S754_nan => None
  end.

Definition INT_MIN : Z := - 2 ^ 31.
Definition INT_MAX : Z := 2 ^ 31 - 1.

(** [static_cast<int>(f)]: undefined unless the integer part fits. *)
Definition to_int (f : float) : outcome Z :=
  match truncate f with
  | Some z => if (INT_MIN <=? z) && (z <=? INT_MAX) then Ret z
              else Fault CastOutOfRange
  | None => Fault CastOutOfRange
  end.

(** The rational number a finite double stands for (0 for the others). *)
Definition to_Q (f : float) : Q :=
  match Prim2SF f with
  | S754_finite s m e =>
      if 0 <=? e then inject_Z (cond_Zopp s (Zpos m * 2 ^ e))
      else Qmake (cond_Zopp s (Zpos m)) (Z.to_pos (2 ^ (- e)))
  | _ => 0%Q
  end.

End Double.

(** ** The generators *)

(** [x = (a * x + c) % m; return static_cast<double>(x) / m;] *)
Module LinearCongruentialGenerator.

Record t : Set := new { m : Z; a : Z; c : Z; x : Z }.

Definition getNext (g : t) : outcome (float * t) :=
  x' <- U64.rem (U64.add (U64.mul (a g) (x g)) (c g)) (m g) ;;
  Ret ((Double.of_Z x' / Double.of_Z (m g))%float,
       {| m := m g; a := a g; c := c g; x := x' |}).

End LinearCongruentialGenerator.

(** [x = (d * x * x + a * x + c) % m; return static_cast<double>(x) / m;] *)
Module QuadraticCongruentialGenerator.

Record t : Set := new { m : Z; a : Z; c : Z; d : Z; x : Z }.

Definition getNext (g : t) : outcome (float * t) :=
  x' <- U64.rem
          (U64.add (U64.add (U64.mul (U64.mul (d g) (x g)) (x g))
                            (U64.mul (a g) (x g)))
                   (c g))
          (m g) ;;
  Ret ((Double.of_Z x' / Double.of_Z (m g))%float,
       {| m := m g; a := a g; c := c g; d := d g; x := x' |}).

End QuadraticCongruentialGenerator.

Module FibonacciGenerator.

Record t : Set := mk { m : Z; x1 : Z; x2 : Z }.

(** The constructor: [m(m), x1(0), x2(1)], then [if (seed != 0) x1 = seed;]. *)
Definition new (m seed : Z) : t :=
  let g := {| m := m; x1 := 0; x2 := 1 |} in
  if negb (seed =? 0) then {| m := m; x1 := seed; x2 := x2 g |} else g.

Definition getNext (g : t) : outcome (float * t) :=
  nextValue <- U64.rem (U64.add (x1 g) (x2 g)) (m g) ;;
  Ret ((Double.of_Z nextValue / Double.of_Z (m g))%float,
       {| m := m g; x1 := x2 g; x2 := nextValue |}).

End FibonacciGenerator.

Module InverseCongruentialGenerator.

Record t : Set := new { p : Z; a : Z; c : Z; x : Z }.

(** The loop [while (a > 1) { q = a / m; t = m; m = a % m; a = t;
    t = x0; x0 = x1 - q * x0; x1 = t; }] on the four variables it changes;
    it yields the final [x1]. *)
Fixpoint modInverse_loop (fuel : nat) (a m x0 x1 : Z) : outcome Z :=
  if 1 <? a then
    match fuel with
    | O => Starved
    | S fuel' =>
        q <- U64.div a m ;;
        m' <- U64.rem a m ;;
        modInverse_loop fuel' m m' (U64.sub x1 (U64.mul q x0)) x0
    end
  else Ret x1.

(** Iterations granted to the loop; [modInverse_loop_total] shows that they
    are never used up. *)
Definition modInverse_fuel (m : Z) : nat := S (2 * Z.to_nat (Z.log2 m + 1)).

(** [x1] is an [unsigned long long], so the test [x1 < 0] of the source
    compares a number of [0, 2^64) with zero. *)
Definition modInverse (a m : Z) : outcome Z :=
  let m0 := m in
  x1 <- modInverse_loop (modInverse_fuel m) a m 0 1 ;;
  Ret (if x1 <? 0 then U64.add x1 m0 else x1).

Definition getNext (g : t) : outcome (float * t) :=
  inv_x <- modInverse (x g) (p g) ;;
  x' <- U64.rem (U64.add (U64.mul (a g) inv_x) (c g)) (p g) ;;
  Ret ((Double.of_Z x' / Double.of_Z (p g))%float,
       {| p := p g; a := a g; c := c g; x := x' |}).

End InverseCongruentialGenerator.

(** ** The C library's pseudo-random source

    [std::rand()] is not code of the repository: its results are taken from
    a stream handed to the model, one element per call, each an [int] of
    [0, RAND_MAX] with [RAND_MAX = 2147483647]. *)

Definition RAND_MAX : Z := 2147483647.

Definition std_rand (stream : list Z) : outcome (Z * list Z) :=
  match stream with
  | [] => Starved
  | r :: stream' => Ret (r, stream')
  end.

Module CombineMethodgenerator.

(** The two [Generator*] members, as addresses in the heap of generators. *)
Record t : Set := new { X : nat; Y : nat }.

(** What [getNext] computes from the two samples it has drawn:
    [difference = x - y; if (difference < 0.0) difference += 1.0;]. *)
Definition combine (x y : float) : float :=
  let difference := (x - y)%float in
  if (difference <? 0)%float then (difference + 1)%float else difference.

End CombineMethodgenerator.

Module ThreeSigmaGenerator.

Record t : Set := new { m : float; s : float }.

(** [for (i = 0; i < 12; ++i) sum += static_cast<double>(std::rand()) / 2147483647;] *)
Fixpoint sum_loop (n : nat) (sum : float) (stream : list Z)
  : outcome (float * list Z) :=
  match n with
  | O => Ret (sum, stream)
  | S n' =>
      '(r, stream') <- std_rand stream ;;
      sum_loop n' (sum + Double.of_Z r / Double.of_Z 2147483647)%float stream'
  end.

Definition getNext (g : t) (stream : list Z) : outcome (float * t * list Z) :=
  '(sum, stream') <- sum_loop 12 0%float stream ;;
  Ret ((m g + (sum - 6) * s g)%float, g, stream').

End ThreeSigmaGenerator.

Module PolarCoordinateGenerator.

Record t : Set := mk { last : float }.

(** The member initialiser [double last = -1;]. *)
Definition new : t := {| last := (-1)%float |}.

(** [v = 2.0 * static_cast<double>(std::rand()) / 2147483647] *)
Definition scaled (r : Z) : float :=
  (2 * Double.of_Z r / Double.of_Z 2147483647)%float.

(** The loop [do { v1 = ...; v2 = ...; s = v1 * v1 + v2 * v2; } while (s >= 1.0);]:
    each iteration takes two draws; the loop yields the pair it stops on,
    its [s] and the draws left. *)
Fixpoint rejection_loop (stream : list Z)
  : outcome (float * float * float * list Z) :=
  match stream with
  | r1 :: r2 :: stream' =>
      let v1 := scaled r1 in
      let v2 := scaled r2 in
      let s := (v1 * v1 + v2 * v2)%float in
      if (1 <=? s)%float then rejection_loop stream'
      else Ret (v1, v2, s, stream')
  | _ => Starved
  end.

Section WithLog.

(** [std::log] of [<cmath>], which the repository does not define. *)
Variable log : float -> float.

Definition factor (s : float) : float :=
  sqrt ((-2 * log s) / s)%float.

Definition getNext (g : t) (stream : list Z) : outcome (float * t * list Z) :=
  if (0 <? last g)%float then
    let t := last g in
    Ret (t, {| last := (-1)%float |}, stream)
  else
    '(v1, v2, s, stream') <- rejection_loop stream ;;
    let x1 := (v1 * factor s)%float in
    Ret (x1, {| last := (v2 * factor s)%float |}, stream').

End WithLog.

End PolarCoordinateGenerator.

(** ** Virtual dispatch over the generators of the heap *)

Inductive Generator : Set :=
| Linear (g : LinearCongruentialGenerator.t)
| Quadratic (g : QuadraticCongruentialGenerator.t)
| Fibonacci (g : FibonacciGenerator.t)
| Inverse (g : InverseCongruentialGenerator.t)
| Combine (g : CombineMethodgenerator.t)
| ThreeSigma (g : ThreeSigmaGenerator.t)
| Polar (g : PolarCoordinateGenerator.t).

(** The generators allocated by [new] (a [Generator*] is an index into
    [heap]) and the draws [std::rand] has still to hand out. *)
Record world : Set := { heap : list Generator; rand_stream : list Z }.

Fixpoint update {A : Type} (p : nat) (o : A) (l : list A) : list A :=
  match l, p with
  | [], _ => []
  | _ :: l', O => o :: l'
  | o' :: l', S p' => o' :: update p' o l'
  end.

Definition store (p : nat) (o : Generator) (w : world) : world :=
  {| heap := update p o (heap w); rand_stream := rand_stream w |}.

Section Dispatch.

Variable log : float -> float.

(** [p->getNext()]; [depth] bounds the nesting of calls, which is the
    nesting of [CombineMethodgenerator]s. *)
Fixpoint getNext (depth : nat) (p : nat) (w : world) : outcome (float * world) :=
  match depth with
  | O => Starved
  | S depth' =>
      match nth_error (heap w) p with
      | None => Fault DanglingPointer
      | Some (Linear g) =>
          '(v, g') <- LinearCongruentialGenerator.getNext g ;;
          Ret (v, store p (Linear g') w)
      | Some (Quadratic g) =>
          '(v, g') <- QuadraticCongruentialGenerator.getNext g ;;
          Ret (v, store p (Quadratic g') w)
      | Some (Fibonacci g) =>
          '(v, g') <- FibonacciGenerator.getNext g ;;
          Ret (v, store p (Fibonacci g') w)
      | Some (Inverse g) =>
          '(v, g') <- InverseCongruentialGenerator.getNext g ;;
          Ret (v, store p (Inverse g') w)
      | Some (Combine g) =>
          '(x, w1) <- getNext depth' (CombineMethodgenerator.X g) w ;;
          '(y, w2) <- getNext depth' (CombineMethodgenerator.Y g) w1 ;;
          Ret (CombineMethodgenerator.combine x y, w2)
      | Some (ThreeSigma g) =>
          '(v, g', stream') <- ThreeSigmaGenerator.getNext g (rand_stream w) ;;
          Ret (v, {| heap := update p (ThreeSigma g') (heap w);
                     rand_stream := stream' |})
      | Some (Polar g) =>
          '(v, g', stream') <-
            PolarCoordinateGenerator.getNext log g (rand_stream w) ;;
          Ret (v, {| heap := update p (Polar g') (heap w);
                     rand_stream := stream' |})
      end
  end.

End Dispatch.

(** The vector [generators] that [main] fills, for the [seed] it reads from
    [time(nullptr)]: generator [i] of the menu is at address [i - 1]. *)
Definition generators (seed : Z) : list Generator :=
  [ Linear (LinearCongruentialGenerator.new 2147483647 16807 0 seed);
    Quadratic (QuadraticCongruentialGenerator.new 2147483647 40014 0 53668 seed);
    Fibonacci (FibonacciGenerator.new 2147483647 seed);
    Inverse (InverseCongruentialGenerator.new 2147483647 16805 10 1);
    Combine (CombineMethodgenerator.new 0 1);
    ThreeSigma (ThreeSigmaGenerator.new 0 1);
    Polar PolarCoordinateGenerator.new ].

(** ** The histogram *)

Module Histogram.

(** [frequencyIntervals[interval]++] on a [std::vector<int>]. *)
Fixpoint increment (frequencyIntervals : list Z) (interval : nat)
  : outcome (list Z) :=
  match frequencyIntervals, interval with
  | [], _ => Fault OutOfBounds
  | n :: rest, O =>
      if n =? Double.INT_MAX then Fault SignedOverflow
      else Ret ((n + 1) :: rest)
  | n :: rest, S interval' =>
      rest' <- increment rest interval' ;; Ret (n :: rest')
  end.

(** An [int] used as the index of [operator[]] is converted to [size_t]:
    a negative one becomes an index past any vector's end. *)
Definition increment_at (frequencyIntervals : list Z) (interval : Z)
  : outcome (list Z) :=
  if interval <? 0 then Fault OutOfBounds
  else increment frequencyIntervals (Z.to_nat interval).

Definition in_range (minRange maxRange randomValue : float) : bool :=
  (minRange <=? randomValue)%float && (randomValue <=? maxRange)%float.

(** The body of the first loop, for one [randomValue]. *)
Definition tally (minRange maxRange intervalSize : float)
           (frequencyIntervals : list Z) (randomValue : float)
  : outcome (list Z) :=
  if in_range minRange maxRange randomValue then
    interval <- Double.to_int ((randomValue - minRange) / intervalSize)%float ;;
    increment_at frequencyIntervals interval
  else Ret frequencyIntervals.

Fixpoint tally_all (minRange maxRange intervalSize : float)
         (frequencyIntervals : list Z) (randomValues : list float)
  : outcome (list Z) :=
  match randomValues with
  | [] => Ret frequencyIntervals
  | randomValue :: rest =>
      frequencyIntervals' <-
        tally minRange maxRange intervalSize frequencyIntervals randomValue ;;
      tally_all minRange maxRange intervalSize frequencyIntervals' rest
  end.

(** One printed line: [start], [end] and [frequency]. *)
Record row : Set := { start : float; stop : float; frequency : float }.

Definition line (minRange intervalSize : float) (size : Z) (i : Z) (count : Z)
  : row :=
  {| start := (minRange + Double.of_Z i * intervalSize)%float;
     stop := (minRange + Double.of_Z (i + 1) * intervalSize)%float;
     frequency := (Double.of_Z count / Double.of_Z size)%float |}.

Fixpoint lines (minRange intervalSize : float) (size : Z) (i : Z)
         (frequencyIntervals : list Z) : list row :=
  match frequencyIntervals with
  | [] => []
  | count :: rest =>
      line minRange intervalSize size i count
        :: lines minRange intervalSize size (i + 1) rest
  end.

(** [histogram]: the counts after the first loop, and the lines the second
    loop prints. *)
Definition counts (randomValues : list float) (minRange maxRange : float)
           (numIntervals : Z) : outcome (list Z) :=
  if numIntervals <? 0 then Fault LengthError
  else
    let frequencyIntervals := repeat 0 (Z.to_nat numIntervals) in
    let intervalSize := ((maxRange - minRange) / Double.of_Z numIntervals)%float in
    tally_all minRange maxRange intervalSize frequencyIntervals randomValues.

Definition histogram (randomValues : list float) (minRange maxRange : float)
           (numIntervals : Z) : outcome (list row) :=
  frequencyIntervals <- counts randomValues minRange maxRange numIntervals ;;
  let intervalSize := ((maxRange - minRange) / Double.of_Z numIntervals)%float in
  Ret (lines minRange intervalSize (Z.of_nat (length randomValues)) 0
             frequencyIntervals).

(** Whether a call ended on an index outside the vector of bins. *)
Definition overruns (result : outcome (list row)) : bool :=
  match result with
  | Fault OutOfBounds => true
  | _ => false
  end.

End Histogram.

(** ** Quantities the statements are written with *)

Module Binary64.

(** The value of a finite binary64 number counted in units of [2^-1074],
    the smallest positive double: an integer (0 for the other numbers). *)
Definition ulps (x : spec_float) : Z :=
  match x with
  | S754_finite s m e => cond_Zopp s (Zpos m * 2 ^ (e + 1074))
  | _ => 0
  end.

Definition is_finite_SF (x : spec_float) : bool :=
  match x with
  | S754_zero _ | S754_finite _ _ _ => true
  | _ => false
  end.

(** A valid finite number that is not negative. *)
Definition nonneg_SF (w : spec_float) : Prop :=
  valid_binary w = true /\ is_finite_SF w = true /\ 0 <= ulps w.

End Binary64.

Module Tally.

(** The sum of the counts of all bins. *)
Definition total (frequencyIntervals : list Z) : Z :=
  fold_right Z.add 0 frequencyIntervals.

(** The number of samples the first loop of [histogram] counts. *)
Definition in_range_count (minRange maxRange : float) (randomValues : list float)
  : Z :=
  Z.of_nat (length (filter (Histogram.in_range minRange maxRange) randomValues)).

(** Whether the first loop of [histogram] counts [randomValue] in bin [i]. *)
Definition falls_in (minRange maxRange intervalSize : float) (i : Z)
           (randomValue : float) : bool :=
  Histogram.in_range minRange maxRange randomValue
  && match Double.to_int ((randomValue - minRange) / intervalSize)%float with
     | Ret interval => interval =? i
     | _ => false
     end.

(** The number of samples counted in bin [i]. *)
Definition bin_count (minRange maxRange intervalSize : float)
           (randomValues : list float) (i : Z) : Z :=
  Z.of_nat (length (filter (falls_in minRange maxRange intervalSize i) randomValues)).

(** The exact sum of the relative frequencies of the printed lines. *)
Definition total_frequency (rows : list Histogram.row) : Q :=
  fold_right (fun r acc => (Double.to_Q (Histogram.frequency r) + acc)%Q) 0%Q rows.

End Tally.

(** ** The sampling loop of [main] *)

Section Sampling.

Variable log : float -> float.

(** [for (int i = 0; i < n; ++i) { randomValue = selectedGenerator->getNext();
    randomValues.push_back(randomValue); }], with [n - i] iterations to go. *)
Fixpoint sample_loop (depth : nat) (iterations : nat) (selectedGenerator : nat)
         (w : world) (randomValues : list float) : outcome (list float * world) :=
  match iterations with
  | O => Ret (randomValues, w)
  | S iterations' =>
      '(randomValue, w') <- getNext log depth selectedGenerator w ;;
      sample_loop depth iterations' selectedGenerator w' (randomValues ++ [randomValue])
  end.

(** The vector [randomValues] of one round of the menu: empty at first, then
    filled by the loop, which does not run when [n <= 0]. *)
Definition sample (depth : nat) (n : Z) (selectedGenerator : nat) (w : world)
  : outcome (list float * world) :=
  sample_loop depth (Z.to_nat n) selectedGenerator w [].

(** What one round of the menu prints after its prompts: the values and the
    lines of their histogram, the message of an invalid choice, or nothing
    (the choice 0, which ends the loop). *)
Inductive shown : Type :=
| Values (randomValues : list float) (rows : list Histogram.row)
| InvalidChoice
| Nothing.

(** The body of the loop of [main], for the [choice] read and, when the
    choice is one of the generators, the [n] and [N] read after it.  The
    vector [generators] is the heap: generator [choice] is at address
    [choice - 1], and no generator points deeper than two calls.  The
    histogram is taken over [0, 1] for the choices up to 5, over [-3, 3]
    for the others. *)
Definition menu_round (choice n N : Z) (w : world) : outcome (shown * world) :=
  if (1 <=? choice) && (choice <=? Z.of_nat (length (heap w))) then
    let selectedGenerator := Z.to_nat (choice - 1) in
    '(randomValues, w') <- sample 2 n selectedGenerator w ;;
    rows <- (if choice <=? 5 then Histogram.histogram randomValues 0 1 N
             else Histogram.histogram randomValues (-3) 3 N) ;;
    Ret (Values randomValues rows, w')
  else if negb (choice =? 0) then Ret (InvalidChoice, w)
  else Ret (Nothing, w).

End Sampling.

(** The generators that keep their whole state in their own members: they
    call no other generator and take no draw from [std::rand]. *)
Definition congruential (o : Generator) : bool :=
  match o with
  | Linear _ | Quadratic _ | Fibonacci _ | Inverse _ => true
  | Combine _ | ThreeSigma _ | Polar _ => false
  end.

(** Whether the pointer [p] points at such a generator. *)
Definition congruential_at (w : world) (p : nat) : bool :=
  match nth_error (heap w) p with
  | Some o => congruential o
  | None => false
  end.

Module Main.

(** The worlds the objects built by [main] can be in: the parameters are
    those [main] passes to the constructors, the registers hold any value of
    their type, and the state of the inverse generator is below its
    modulus. *)
Definition invariant (w : world) : Prop :=
  exists (x xq x1 x2 xi : Z) (polar : PolarCoordinateGenerator.t),
    heap w
    = [ Linear (LinearCongruentialGenerator.new 2147483647 16807 0 x);
        Quadratic (QuadraticCongruentialGenerator.new 2147483647 40014 0 53668 xq);
        Fibonacci (FibonacciGenerator.mk 2147483647 x1 x2);
        Inverse (InverseCongruentialGenerator.new 2147483647 16805 10 xi);
        Combine (CombineMethodgenerator.new 0 1);
        ThreeSigma (ThreeSigmaGenerator.new 0 1);
        Polar polar ]
    /\ U64.in_range x /\ U64.in_range xq
    /\ U64.in_range x1 /\ U64.in_range x2
    /\ 0 <= xi < 2147483647.

(** The samples of the congruential generators of [main]: the double
    quotient of a state below the modulus by the modulus. *)
Definition quotient (v : float) : Prop :=
  exists x : Z,
    0 <= x < 2147483647
    /\ v = (Double.of_Z x / Double.of_Z 2147483647)%float.

End Main.

Module Sign.

(** The numbers that do not compare below zero: NaN, the two zeros, and the
    finite numbers and the infinity of positive sign. *)
Definition not_negative (x : spec_float) : bool :=
  match x with
  | S754_nan | S754_zero _ => true
  | S754_infinity s | S754_finite s _ _ => negb s
  end.

End Sign.

(** ** The draws of the polar generator *)

Module Draws.

(** [s = v1 * v1 + v2 * v2] for the pair of uniforms made from the draws
    [r1] and [r2]. *)
Definition square_sum (r1 r2 : Z) : float :=
  (PolarCoordinateGenerator.scaled r1 * PolarCoordinateGenerator.scaled r1
   + PolarCoordinateGenerator.scaled r2 * PolarCoordinateGenerator.scaled r2)%float.

(** Whether the draws are whole pairs, each with [s >= 1.0]: the pairs on
    which the [do ... while] loop goes round again. *)
Fixpoint all_rejected (draws : list Z) : bool :=
  match draws with
  | [] => true
  | r1 :: r2 :: draws' => (1 <=? square_sum r1 r2)%float && all_rejected draws'
  | [_] => false
  end.

End Draws.

(** ** The orbit of the linear generator *)

Module Orbit.

(** [(a * x + c) % m] on 64-bit unsigned values, for [m] other than 0. *)
Definition next (m a c x : Z) : Z := U64.add (U64.mul a x) c mod m.

(** The state after [k] calls, from the state [x]. *)
Definition state (m a c : Z) (k : nat) (x : Z) : Z := Nat.iter k (next m a c) x.

(** The sample the [k]-th call returns, from the state [x]. *)
Definition value (m a c x : Z) (k : nat) : float :=
  (Double.of_Z (state m a c k x) / Double.of_Z m)%float.

End Orbit.

(** ** Trial division *)

(** Whether none of the [n] integers from [d] on divides [p]. *)
Fixpoint no_divisor (n : nat) (d p : Z) : bool :=
  match n with
  | O => true
  | S n' => negb (p mod d =? 0) && no_divisor n' (d + 1) p
  end.

(** Range side conditions on concrete 64-bit values. *)
Ltac u64_range := unfold U64.in_range, U64.modulus; lia.

(** The heap of a world that satisfies [Main.invariant], and the call on it
    unfolded. *)
Ltac main_heap H :=
  destruct H as (x & xq & x1 & x2 & xi & polar & Hheap & Hx & Hxq & Hx1 & Hx2 & Hxi);
  cbn [getNext]; rewrite Hheap; cbn [nth_error].

(** The invariant of a world after a store. *)
Ltac main_stored Hheap :=
  unfold Main.invariant, store; cbn [heap rand_stream];
  rewrite Hheap; cbn [update].

(** Bounds of a remainder. *)
Ltac mod_range :=
  unfold U64.in_range, U64.modulus in *;
  try match goal with
      | |- context [?z mod ?m] => pose proof (Z.mod_pos_bound z m ltac:(lia))
      end;
  lia.

(** * Properties *)

(** ** Unsigned 64-bit arithmetic *)

Lemma wrap_small (z : Z) : U64.in_range z -> U64.wrap z = z.
Proof. unfold U64.in_range, U64.wrap. intros H. apply Z.mod_small. exact H. Qed.

(** [a * x + c] in the unsigned type is the exact value modulo [2^64]. *)
Lemma linear_wrap (a x c : Z) :
  U64.add (U64.mul a x) c = U64.wrap (a * x + c).
Proof.
  unfold U64.add, U64.mul, U64.wrap. apply Z.add_mod_idemp_l.
  unfold U64.modulus. lia.
Qed.

(** [d * x * x + a * x + c] in the unsigned type is the exact value modulo [2^64]. *)
Lemma quadratic_wrap (d a x c : Z) :
  U64.add (U64.add (U64.mul (U64.mul d x) x) (U64.mul a x)) c
  = U64.wrap (d * x * x + a * x + c).
Proof.
  assert (Hm : U64.modulus <> 0) by (unfold U64.modulus; lia).
  unfold U64.add, U64.mul, U64.wrap.
  rewrite Z.mul_mod_idemp_l by exact Hm.
  rewrite <- Z.add_mod by exact Hm.
  rewrite Z.add_mod_idemp_l by exact Hm.
  reflexivity.
Qed.

Lemma rem_positive (z m : Z) : 0 < m -> U64.rem z m = Ret (z mod m).
Proof.
  intros Hm. unfold U64.rem.
  destruct (Z.eqb_spec m 0) as [E | _]; [lia | reflexivity].
Qed.

(** ** The loop of [modInverse] *)

Lemma modInverse_loop_done (fuel : nat) (a m x0 x1 : Z) :
  a <= 1 -> InverseCongruentialGenerator.modInverse_loop fuel a m x0 x1 = Ret x1.
Proof.
  intros Ha. destruct fuel; simpl;
    destruct (Z.ltb_spec 1 a); (lia || reflexivity).
Qed.

Lemma modInverse_loop_step (fuel : nat) (a m x0 x1 : Z) :
  1 < a -> m <> 0 ->
  InverseCongruentialGenerator.modInverse_loop (S fuel) a m x0 x1
  = InverseCongruentialGenerator.modInverse_loop
      fuel m (a mod m) (U64.sub x1 (U64.mul (a / m) x0)) x0.
Proof.
  intros Ha Hm. simpl.
  destruct (Z.ltb_spec 1 a); [| lia].
  unfold U64.div, U64.rem.
  destruct (Z.eqb_spec m 0); [contradiction | reflexivity].
Qed.

Lemma modInverse_loop_zero (fuel : nat) (a x0 x1 : Z) :
  1 < a ->
  InverseCongruentialGenerator.modInverse_loop (S fuel) a 0 x0 x1
  = Fault DivisionByZero.
Proof.
  intros Ha. simpl. destruct (Z.ltb_spec 1 a); [reflexivity | lia].
Qed.

(** Two iterations more than halve the divisor, so twice the number of its
    bits is fuel enough. *)
Lemma modInverse_loop_total (k : nat) :
  forall a m x0 x1 : Z,
    0 <= m < 2 ^ Z.of_nat k ->
    InverseCongruentialGenerator.modInverse_loop (S (2 * k)) a m x0 x1 <> Starved.
Proof.
  induction k as [| k IH]; intros a m x0 x1 Hm.
  - assert (m = 0) by (simpl in Hm; lia). subst m.
    destruct (Z.le_gt_cases a 1) as [Ha | Ha].
    + rewrite modInverse_loop_done by exact Ha. discriminate.
    + rewrite modInverse_loop_zero by exact Ha. discriminate.
  - replace (S (2 * S k)) with (S (S (S (2 * k)))) by lia.
    destruct (Z.le_gt_cases a 1) as [Ha | Ha].
    { rewrite modInverse_loop_done by exact Ha. discriminate. }
    destruct (Z.eq_dec m 0) as [-> | Hm0].
    { rewrite modInverse_loop_zero by exact Ha. discriminate. }
    rewrite modInverse_loop_step by assumption.
    destruct (Z.le_gt_cases m 1) as [Hm1 | Hm1].
    { rewrite modInverse_loop_done by exact Hm1. discriminate. }
    set (r := a mod m).
    assert (Hr : 0 <= r < m) by (apply Z.mod_pos_bound; lia).
    destruct (Z.eq_dec r 0) as [Hr0 | Hr0].
    { rewrite Hr0. rewrite modInverse_loop_zero by exact Hm1. discriminate. }
    rewrite modInverse_loop_step by assumption.
    apply IH.
    assert (Hr' : 0 <= m mod r < r) by (apply Z.mod_pos_bound; lia).
    split; [lia |].
    assert (Hdiv : m = r * (m / r) + m mod r) by (apply Z.div_mod; lia).
    assert (Hq : 1 <= m / r) by (apply Z.div_le_lower_bound; lia).
    rewrite Nat2Z.inj_succ, Z.pow_succ_r in Hm by lia.
    nia.
Qed.

Lemma modInverse_fuel_enough (a m x0 x1 : Z) :
  0 <= m ->
  InverseCongruentialGenerator.modInverse_loop
    (InverseCongruentialGenerator.modInverse_fuel m) a m x0 x1 <> Starved.
Proof.
  intros Hm. unfold InverseCongruentialGenerator.modInverse_fuel.
  apply modInverse_loop_total. split; [exact Hm |].
  rewrite Z2Nat.id by (pose proof (Z.log2_nonneg m); lia).
  destruct (Z.eq_dec m 0) as [-> | Hm0]; [reflexivity |].
  apply Z.log2_spec. lia.
Qed.

(** With a common factor between [a] and [m] the loop never sees [a <= 1]:
    it can only stop on the division by zero. *)
Lemma modInverse_loop_common_factor (fuel : nat) :
  forall a m x0 x1 : Z,
    1 < a -> 0 <= m -> Z.gcd a m <> 1 ->
    InverseCongruentialGenerator.modInverse_loop fuel a m x0 x1 = Starved
    \/ InverseCongruentialGenerator.modInverse_loop fuel a m x0 x1
       = Fault DivisionByZero.
Proof.
  induction fuel as [| fuel IH]; intros a m x0 x1 Ha Hm Hg.
  - left. simpl. destruct (Z.ltb_spec 1 a); [reflexivity | lia].
  - destruct (Z.eq_dec m 0) as [-> | Hm0].
    + right. apply modInverse_loop_zero. exact Ha.
    + rewrite modInverse_loop_step by assumption.
      apply IH.
      * destruct (Z.eq_dec m 1) as [-> | Hm1]; [| lia].
        exfalso. apply Hg. apply Z.gcd_1_r.
      * apply Z.mod_pos_bound. lia.
      * rewrite Z.gcd_comm, Z.gcd_mod by exact Hm0.
        rewrite Z.gcd_comm. exact Hg.
Qed.

Lemma modInverse_common_factor (a m : Z) :
  1 < a -> 0 <= m -> Z.gcd a m <> 1 ->
  InverseCongruentialGenerator.modInverse a m = Fault DivisionByZero.
Proof.
  intros Ha Hm Hg. unfold InverseCongruentialGenerator.modInverse.
  destruct (modInverse_loop_common_factor
              (InverseCongruentialGenerator.modInverse_fuel m) a m 0 1 Ha Hm Hg)
    as [E | E].
  - exfalso. revert E. apply modInverse_fuel_enough. exact Hm.
  - rewrite E. reflexivity.
Qed.

Lemma modInverse_of_zero (m : Z) :
  InverseCongruentialGenerator.modInverse 0 m = Ret 1.
Proof. reflexivity. Qed.


(** ** Linear congruential generator *)

(** C8, as amended.  For parameters with [m > 0], a call of [getNext] stores
    [((a * x + c) mod 2^64) mod m] in [x] and returns the double quotient of
    the new [x] by [m]; the stored value is [(a * x + c) mod m] whenever
    [a * x + c] fits in 64 bits.  The generator of the end-to-end example
    ([m = 2147483647], [a = 16807], [c = 0], seed 1) returns the double
    [16807 / 2147483647] on its first call: the double quotient of the two
    numbers, which is within [2^-70], half a unit of its last place, of
    their exact quotient. *)
Theorem linear_getNext_step (m a c x : Z) :
  0 < m -> U64.in_range a -> U64.in_range c -> U64.in_range x ->
  LinearCongruentialGenerator.getNext (LinearCongruentialGenerator.new m a c x)
  = Ret ((Double.of_Z (U64.wrap (a * x + c) mod m) / Double.of_Z m)%float,
         LinearCongruentialGenerator.new m a c (U64.wrap (a * x + c) mod m))
  /\ (a * x + c < U64.modulus -> U64.wrap (a * x + c) mod m = (a * x + c) mod m)
  /\ LinearCongruentialGenerator.getNext
       (LinearCongruentialGenerator.new 2147483647 16807 0 1)
     = Ret ((16807 / 2147483647)%float,
            LinearCongruentialGenerator.new 2147483647 16807 0 16807)
  /\ Qle_bool (Qabs (Double.to_Q (16807 / 2147483647)%float - (16807 # 2147483647)))
              (1 # 2 ^ 70) = true.
Proof.
  intros Hm Ha Hc Hx. split; [| split; [| split]].
  - unfold LinearCongruentialGenerator.getNext. simpl.
    rewrite linear_wrap, rem_positive by exact Hm. reflexivity.
  - intros Hfit. rewrite wrap_small; [reflexivity |].
    unfold U64.in_range in *. split; [nia | exact Hfit].
  - vm_compute. reflexivity.
  - vm_compute. reflexivity.
Qed.

(** A generator with an increment, in a state the size of a present-day seed. *)
Lemma linear_getNext_step_witness :
  LinearCongruentialGenerator.getNext
    (LinearCongruentialGenerator.new 2147483647 40014 12345 1700000000)
  = Ret ((Double.of_Z 108009973 / Double.of_Z 2147483647)%float,
         LinearCongruentialGenerator.new 2147483647 40014 12345 108009973).
Proof.
  exact (proj1 (linear_getNext_step 2147483647 40014 12345 1700000000
                  ltac:(lia) ltac:(u64_range) ltac:(u64_range) ltac:(u64_range))).
Defined.

(** C8 as stated fails: with [a = 2^63] and [x = 2] the product [a * x] is
    [2^64], which the unsigned multiplication turns into 0, so that the new
    state is 0 and not [2^64 mod 1000000007 = 582344008]. *)
Lemma linear_getNext_overflow :
  LinearCongruentialGenerator.getNext
    (LinearCongruentialGenerator.new 1000000007 9223372036854775808 0 2)
  = Ret (0%float, LinearCongruentialGenerator.new 1000000007 9223372036854775808 0 0)
  /\ (9223372036854775808 * 2 + 0) mod 1000000007 = 582344008.
Proof. split; vm_compute; reflexivity. Qed.

(** ** Quadratic congruential generator *)

(** C6, as amended.  For parameters with [m > 0], a call of [getNext] stores
    [((d * x * x + a * x + c) mod 2^64) mod m] in [x]: the products and sums
    are those of the 64-bit unsigned type and nothing is widened.  The stored
    value is the exact [(d * x^2 + a * x + c) mod m] whenever
    [d * x^2 + a * x + c] fits in 64 bits. *)
Theorem quadratic_getNext_step (m a c d x : Z) :
  0 < m ->
  U64.in_range a -> U64.in_range c -> U64.in_range d -> U64.in_range x ->
  QuadraticCongruentialGenerator.getNext
    (QuadraticCongruentialGenerator.new m a c d x)
  = Ret ((Double.of_Z (U64.wrap (d * x * x + a * x + c) mod m) / Double.of_Z m)%float,
         QuadraticCongruentialGenerator.new m a c d
           (U64.wrap (d * x * x + a * x + c) mod m))
  /\ (d * x ^ 2 + a * x + c < U64.modulus ->
      U64.wrap (d * x * x + a * x + c) mod m = (d * x ^ 2 + a * x + c) mod m).
Proof.
  intros Hm Ha Hc Hd Hx. split.
  - unfold QuadraticCongruentialGenerator.getNext. simpl.
    rewrite quadratic_wrap, rem_positive by exact Hm. reflexivity.
  - intros Hfit. replace (d * x * x) with (d * x ^ 2) by ring.
    rewrite wrap_small; [reflexivity |].
    unfold U64.in_range in *. split; [nia | exact Hfit].
Qed.

(** [main]'s generator in a state small enough for the products to fit. *)
Lemma quadratic_getNext_step_witness :
  QuadraticCongruentialGenerator.getNext
    (QuadraticCongruentialGenerator.new 2147483647 40014 0 53668 12345)
  = Ret ((Double.of_Z 1827118754 / Double.of_Z 2147483647)%float,
         QuadraticCongruentialGenerator.new 2147483647 40014 0 53668 1827118754)
  /\ (53668 * 12345 ^ 2 + 40014 * 12345 + 0 < U64.modulus ->
      1827118754 = (53668 * 12345 ^ 2 + 40014 * 12345 + 0) mod 2147483647).
Proof.
  exact (quadratic_getNext_step 2147483647 40014 0 53668 12345
           ltac:(lia) ltac:(u64_range) ltac:(u64_range) ltac:(u64_range)
           ltac:(u64_range)).
Defined.

(** C6 as stated fails on the generator [main] builds ([m = 2147483647],
    [a = 40014], [c = 0], [d = 53668]) as soon as the state is a present-day
    value of [time(nullptr)]: from [x = 1700000000] the call stores
    1875502639, while [(d * x^2 + a * x + c) mod m] is 1875536271. *)
Lemma quadratic_getNext_overflow :
  QuadraticCongruentialGenerator.getNext
    (QuadraticCongruentialGenerator.new 2147483647 40014 0 53668 1700000000)
  = Ret ((Double.of_Z 1875502639 / Double.of_Z 2147483647)%float,
         QuadraticCongruentialGenerator.new 2147483647 40014 0 53668 1875502639)
  /\ (53668 * 1700000000 ^ 2 + 40014 * 1700000000 + 0) mod 2147483647 = 1875536271.
Proof. split; vm_compute; reflexivity. Qed.

(** ** Additive generator *)

(** C9, as amended.  The constructor sets the registers to [(0, 1)] for seed
    0 and to [(seed, 1)] for any other seed.  With [m > 0], a call of
    [getNext] computes [next = ((x1 + x2) mod 2^64) mod m], returns the double
    quotient of [next] by [m] and leaves the registers at [(x2, next)];
    [next] is [(x1 + x2) mod m] whenever [x1 + x2] fits in 64 bits. *)
Theorem fibonacci_seed_and_step (m seed x1 x2 : Z) :
  0 < m -> U64.in_range x1 -> U64.in_range x2 ->
  FibonacciGenerator.new m 0 = FibonacciGenerator.mk m 0 1
  /\ (seed <> 0 -> FibonacciGenerator.new m seed = FibonacciGenerator.mk m seed 1)
  /\ FibonacciGenerator.getNext (FibonacciGenerator.mk m x1 x2)
     = Ret ((Double.of_Z (U64.wrap (x1 + x2) mod m) / Double.of_Z m)%float,
            FibonacciGenerator.mk m x2 (U64.wrap (x1 + x2) mod m))
  /\ (x1 + x2 < U64.modulus -> U64.wrap (x1 + x2) mod m = (x1 + x2) mod m).
Proof.
  intros Hm H1 H2. repeat split.
  - intros Hseed. unfold FibonacciGenerator.new.
    destruct (Z.eqb_spec seed 0); [contradiction | reflexivity].
  - unfold FibonacciGenerator.getNext, U64.add. simpl.
    rewrite rem_positive by exact Hm. reflexivity.
  - intros Hfit. rewrite wrap_small; [reflexivity |].
    unfold U64.in_range in *. lia.
Qed.

(** The registers [main]'s generator starts from for the seed 1700000000,
    and its first call. *)
Lemma fibonacci_seed_and_step_witness :
  FibonacciGenerator.new 2147483647 0 = FibonacciGenerator.mk 2147483647 0 1
  /\ (1700000000 <> 0 ->
      FibonacciGenerator.new 2147483647 1700000000
      = FibonacciGenerator.mk 2147483647 1700000000 1)
  /\ FibonacciGenerator.getNext (FibonacciGenerator.mk 2147483647 1700000000 1)
     = Ret ((Double.of_Z 1700000001 / Double.of_Z 2147483647)%float,
            FibonacciGenerator.mk 2147483647 1 1700000001)
  /\ (1700000000 + 1 < U64.modulus ->
      1700000001 = (1700000000 + 1) mod 2147483647).
Proof.
  exact (fibonacci_seed_and_step 2147483647 1700000000 1700000000 1
           ltac:(lia) ltac:(u64_range) ltac:(u64_range)).
Defined.

(** C9 as stated fails for the seed [2^64 - 1]: the sum [x1 + x2] is [2^64],
    which the unsigned addition turns into 0, so that the first sample is
    [0 / m] and the registers become [(1, 0)], while
    [(x1 + x2) mod 2147483647] is 4. *)
Lemma fibonacci_getNext_overflow :
  FibonacciGenerator.getNext (FibonacciGenerator.new 2147483647 18446744073709551615)
  = Ret (0%float, FibonacciGenerator.mk 2147483647 1 0)
  /\ (18446744073709551615 + 1) mod 2147483647 = 4.
Proof. split; vm_compute; reflexivity. Qed.

(** ** Inverse congruential generator *)

(** C2, as amended.  When the state [x] is 0, which is not coprime with a
    modulus [p > 1], [getNext] reports nothing: the loop of [modInverse] does
    not run, the "inverse" is 1, and the call stores
    [((a * 1 + c) mod 2^64) mod p] in [x] and returns its double quotient by
    [p], an ordinary sample. *)
Theorem inverse_getNext_zero_state (p a c : Z) :
  1 < p ->
  Z.gcd 0 p <> 1
  /\ InverseCongruentialGenerator.modInverse 0 p = Ret 1
  /\ InverseCongruentialGenerator.getNext (InverseCongruentialGenerator.new p a c 0)
     = Ret ((Double.of_Z (U64.wrap (a * 1 + c) mod p) / Double.of_Z p)%float,
            InverseCongruentialGenerator.new p a c (U64.wrap (a * 1 + c) mod p)).
Proof.
  intros Hp. split; [| split].
  - rewrite Z.gcd_0_l. lia.
  - apply modInverse_of_zero.
  - unfold InverseCongruentialGenerator.getNext.
    cbn [InverseCongruentialGenerator.p InverseCongruentialGenerator.a
             InverseCongruentialGenerator.c InverseCongruentialGenerator.x].
    rewrite modInverse_of_zero. simpl bind.
    rewrite linear_wrap, rem_positive by lia. reflexivity.
Qed.

(** [main]'s generator, put in state 0. *)
Lemma inverse_getNext_zero_state_witness :
  Z.gcd 0 2147483647 <> 1
  /\ InverseCongruentialGenerator.modInverse 0 2147483647 = Ret 1
  /\ InverseCongruentialGenerator.getNext
       (InverseCongruentialGenerator.new 2147483647 16805 10 0)
     = Ret ((Double.of_Z 16815 / Double.of_Z 2147483647)%float,
            InverseCongruentialGenerator.new 2147483647 16805 10 16815).
Proof.
  exact (inverse_getNext_zero_state 2147483647 16805 10 ltac:(lia)).
Defined.

(** The other states that share a factor with the modulus: the call is an
    integer division by zero. *)
Lemma inverse_getNext_common_factor (p a c x : Z) :
  0 <= p -> 1 < x -> Z.gcd x p <> 1 ->
  InverseCongruentialGenerator.getNext (InverseCongruentialGenerator.new p a c x)
  = Fault DivisionByZero.
Proof.
  intros Hp Hx Hg. unfold InverseCongruentialGenerator.getNext.
  cbn [InverseCongruentialGenerator.p InverseCongruentialGenerator.a
           InverseCongruentialGenerator.c InverseCongruentialGenerator.x].
  rewrite modInverse_common_factor by assumption. reflexivity.
Qed.

(** C2 as stated fails: on the generator [main] builds, put in state 0 (which
    has the factor [p] in common with [p]), [getNext] returns the sample
    [16815 / 2147483647] and goes on from state 16815; on a generator with
    [p = 9] in state 6 the call is a division by zero, which is no defined
    error either. *)
Lemma inverse_getNext_no_error :
  Z.gcd 0 2147483647 <> 1
  /\ InverseCongruentialGenerator.getNext
       (InverseCongruentialGenerator.new 2147483647 16805 10 0)
     = Ret ((16815 / 2147483647)%float,
            InverseCongruentialGenerator.new 2147483647 16805 10 16815)
  /\ Z.gcd 6 9 <> 1
  /\ InverseCongruentialGenerator.getNext (InverseCongruentialGenerator.new 9 3 2 6)
     = Fault DivisionByZero.
Proof.
  split; [vm_compute; discriminate |].
  split; [vm_compute; reflexivity |].
  split; [vm_compute; discriminate |].
  vm_compute; reflexivity.
Qed.

(** C3: the defect.  [modInverse] keeps the coefficients of the extended
    Euclidean algorithm in [unsigned long long] variables, so the test
    [x1 < 0] never holds and a negative final coefficient comes back wrapped
    modulo [2^64] instead of being raised by the modulus.  For [x = 2] and
    [p = 7] the result is [2^64 - 3], neither below 7 nor an inverse of 2
    (the inverse is [4 = -3 + 7]); for the state 16815 that [main]'s
    generator reaches after its first call, the result is not an inverse
    modulo 2147483647 either. *)
Theorem modInverse_negative_coefficient :
  InverseCongruentialGenerator.modInverse 2 7 = Ret 18446744073709551613
  /\ ~ (0 <= 18446744073709551613 < 7)
  /\ (2 * 18446744073709551613) mod 7 = 5
  /\ (2 * (18446744073709551613 - 2 ^ 64 + 7)) mod 7 = 1
  /\ InverseCongruentialGenerator.modInverse 16815 2147483647
     = Ret 18446744072769205372
  /\ (16815 * 18446744072769205372) mod 2147483647 = 67261.
Proof.
  split; [vm_compute; reflexivity |].
  split; [lia |].
  repeat split; vm_compute; reflexivity.
Qed.

(** ** Binary64 arithmetic: values, comparison and rounding *)

Import Binary64.

Lemma digits2_size (m : positive) : digits2_pos m = Pos.size m.
Proof. induction m; simpl; congruence. Qed.

Lemma digits2_bounds (m : positive) :
  2 ^ (Zpos (digits2_pos m) - 1) <= Zpos m < 2 ^ Zpos (digits2_pos m).
Proof.
  rewrite digits2_size. split.
  - pose proof (Pos.size_le m) as H.
    assert (H' : (2 ^ Pos.size m <= m~0)%positive) by exact H.
    apply Pos2Z.pos_le_pos in H'. rewrite Pos2Z.inj_pow in H'.
    replace (Zpos (Pos.size m)) with (Z.succ (Zpos (Pos.size m) - 1)) in H' by lia.
    rewrite Z.pow_succ_r in H' by lia.
    lia.
  - pose proof (Pos.size_gt m) as H.
    apply Pos2Z.pos_lt_pos in H. rewrite Pos2Z.inj_pow in H. exact H.
Qed.

Lemma digits2_unique (m : positive) (d : Z) :
  2 ^ (d - 1) <= Zpos m < 2 ^ d -> Zpos (digits2_pos m) = d.
Proof.
  intros [Hl Hu]. pose proof (digits2_bounds m) as [Hl' Hu'].
  assert (0 < d).
  { destruct (Z.lt_ge_cases 0 d); [assumption |].
    exfalso. assert (2 ^ d <= 2 ^ 0) by (apply Z.pow_le_mono_r; lia).
    simpl in *. lia. }
  destruct (Z.lt_trichotomy (Zpos (digits2_pos m)) d) as [L | [E | G]]; [| exact E |].
  - exfalso. assert (2 ^ Zpos (digits2_pos m) <= 2 ^ (d - 1)) by (apply Z.pow_le_mono_r; lia). lia.
  - exfalso. assert (2 ^ d <= 2 ^ (Zpos (digits2_pos m) - 1)) by (apply Z.pow_le_mono_r; lia). lia.
Qed.

(** Validity of a finite number, spelled out. *)
Lemma valid_finite (s : bool) (m : positive) (e : Z) :
  valid_binary (S754_finite s m e) = true ->
  -1074 <= e <= 971 /\ Zpos m < 2 ^ 53 /\ (e = -1074 \/ 2 ^ 52 <= Zpos m).
Proof.
  unfold SpecFloat.valid_binary, bounded, canonical_mantissa, fexp, SpecFloat.emin, emax, prec.
  intros H. apply andb_true_iff in H. destruct H as [H1 H2].
  apply Z.eqb_eq in H1. apply Z.leb_le in H2.
  pose proof (digits2_bounds m) as [Hl Hu].
  assert (Hd : Zpos (digits2_pos m) <= 53) by lia.
  split; [lia |]. split.
  - assert (2 ^ Zpos (digits2_pos m) <= 2 ^ 53) by (apply Z.pow_le_mono_r; lia). lia.
  - destruct (Z.eq_dec e (-1074)) as [E | E]; [left; exact E | right].
    assert (Zpos (digits2_pos m) = 53) by lia.
    replace (Zpos (digits2_pos m) - 1) with 52 in Hl by lia. exact Hl.
Qed.

Lemma pow2_gt0 (k : Z) : 0 <= k -> 0 < 2 ^ k.
Proof. intros. apply Z.pow_pos_nonneg; lia. Qed.

Lemma pow2_double (k : Z) : 0 <= k -> 2 ^ (k + 1) = 2 * 2 ^ k.
Proof. intros. rewrite Z.pow_add_r by lia. lia. Qed.

Lemma pow2_le (j k : Z) : 0 <= j <= k -> 2 ^ j <= 2 ^ k.
Proof. intros. apply Z.pow_le_mono_r; lia. Qed.

(** Comparison of two valid positive finite numbers is the comparison of
    their values. *)
Lemma compare_magnitudes (m1 m2 : positive) (e1 e2 : Z) :
  valid_binary (S754_finite false m1 e1) = true ->
  valid_binary (S754_finite false m2 e2) = true ->
  match e1 ?= e2 with
  | Lt => Lt
  | Gt => Gt
  | Eq => Pos.compare_cont Eq m1 m2
  end = (Zpos m1 * 2 ^ (e1 + 1074) ?= Zpos m2 * 2 ^ (e2 + 1074)).
Proof.
  intros V1 V2.
  apply valid_finite in V1. apply valid_finite in V2.
  destruct V1 as [R1 [U1 N1]], V2 as [R2 [U2 N2]].
  pose proof (pow2_gt0 (e1 + 1074) ltac:(lia)) as P1.
  pose proof (pow2_gt0 (e2 + 1074) ltac:(lia)) as P2.
  destruct (Z.compare_spec e1 e2) as [E | L | G].
  - subst e2. change (Pos.compare_cont Eq m1 m2) with (Zpos m1 ?= Zpos m2).
    apply Zmult_compare_compat_r. lia.
  - symmetry. apply Z.compare_lt_iff.
    assert (2 ^ (e1 + 1074 + 1) <= 2 ^ (e2 + 1074)) by (apply pow2_le; lia).
    rewrite pow2_double in H by lia.
    destruct N2 as [N2 | N2]; [lia |]. nia.
  - symmetry. apply Z.compare_gt_iff.
    assert (2 ^ (e2 + 1074 + 1) <= 2 ^ (e1 + 1074)) by (apply pow2_le; lia).
    rewrite pow2_double in H by lia.
    destruct N1 as [N1 | N1]; [lia |]. nia.
Qed.

Lemma ulps_sign (s : bool) (m : positive) (e : Z) :
  valid_binary (S754_finite s m e) = true ->
  if s then ulps (S754_finite s m e) < 0 else 0 < ulps (S754_finite s m e).
Proof.
  intros V. apply valid_finite in V. destruct V as [R _].
  pose proof (pow2_gt0 (e + 1074) ltac:(lia)).
  unfold ulps, cond_Zopp. destruct s; nia.
Qed.

Lemma SFcompare_ulps (x y : spec_float) :
  valid_binary x = true -> valid_binary y = true ->
  is_finite_SF x = true -> is_finite_SF y = true ->
  SFcompare x y = Some (ulps x ?= ulps y).
Proof.
  intros Vx Vy Fx Fy.
  destruct x as [sx | sx | | sx mx ex]; try discriminate;
    destruct y as [sy | sy | | sy my ey]; try discriminate.
  - reflexivity.
  - pose proof (ulps_sign _ _ _ Vy) as S. unfold SFcompare.
    change (ulps (S754_zero sx)) with 0.
    destruct sy; f_equal; symmetry;
      [apply Z.compare_gt_iff | apply Z.compare_lt_iff]; exact S.
  - pose proof (ulps_sign _ _ _ Vx) as S. unfold SFcompare.
    change (ulps (S754_zero sy)) with 0.
    destruct sx; f_equal; symmetry;
      [apply Z.compare_lt_iff | apply Z.compare_gt_iff]; exact S.
  - pose proof (ulps_sign _ _ _ Vx) as Sx.
    pose proof (ulps_sign _ _ _ Vy) as Sy.
    unfold SFcompare.
    destruct sx, sy; f_equal.
    + (* both negative *)
      assert (Vx' : valid_binary (S754_finite false mx ex) = true) by exact Vx.
      assert (Vy' : valid_binary (S754_finite false my ey) = true) by exact Vy.
      pose proof (compare_magnitudes mx my ex ey Vx' Vy') as C.
      unfold ulps, cond_Zopp. rewrite Z.compare_opp, <- (compare_magnitudes my mx ey ex Vy' Vx').
      rewrite (Z.compare_antisym ey ex).
      destruct (ey ?= ex); simpl; try reflexivity.
      change (Pos.compare_cont Eq mx my) with (mx ?= my)%positive.
      change (Pos.compare_cont Eq my mx) with (my ?= mx)%positive.
      rewrite (Pos.compare_antisym mx my). destruct (mx ?= my)%positive; reflexivity.
    + symmetry. apply Z.compare_lt_iff. lia.
    + symmetry. apply Z.compare_gt_iff. lia.
    + exact (compare_magnitudes mx my ex ey Vx Vy).
Qed.

Lemma SFltb_ulps (x y : spec_float) :
  valid_binary x = true -> valid_binary y = true ->
  is_finite_SF x = true -> is_finite_SF y = true ->
  SFltb x y = (ulps x <? ulps y).
Proof.
  intros. unfold SFltb, Z.ltb. rewrite SFcompare_ulps by assumption. reflexivity.
Qed.

Lemma SFleb_ulps (x y : spec_float) :
  valid_binary x = true -> valid_binary y = true ->
  is_finite_SF x = true -> is_finite_SF y = true ->
  SFleb x y = (ulps x <=? ulps y).
Proof.
  intros. unfold SFleb, Z.leb. rewrite SFcompare_ulps by assumption.
  destruct (ulps x ?= ulps y); reflexivity.
Qed.

Lemma fexp64 (z : Z) : fexp prec emax z = Z.max (z - 53) (-1074).
Proof. reflexivity. Qed.

Lemma iter_pos_nat {A : Type} (f : A -> A) (p : positive) :
  forall x, iter_pos f p x = Nat.iter (Pos.to_nat p) f x.
Proof.
  induction p as [p IH | p IH |]; intros x; cbn [iter_pos].
  - rewrite !IH, Pos2Nat.inj_xI.
    replace (S (2 * Pos.to_nat p)) with (Pos.to_nat p + S (Pos.to_nat p))%nat by lia.
    rewrite Nat.iter_add, Nat.iter_succ_r. reflexivity.
  - rewrite !IH, Pos2Nat.inj_xO.
    replace (2 * Pos.to_nat p)%nat with (Pos.to_nat p + Pos.to_nat p)%nat by lia.
    rewrite Nat.iter_add. reflexivity.
  - reflexivity.
Qed.

(** One step of the right shift: the mantissa is halved. *)
Lemma shr_1_m (mrs : shr_record) :
  0 <= shr_m mrs -> shr_m (shr_1 mrs) = shr_m mrs / 2.
Proof.
  destruct mrs as [m r s]. simpl. intros Hm.
  destruct m as [| p | p]; [reflexivity | | lia].
  destruct p as [p | p |]; simpl.
  - rewrite Pos2Z.inj_xI. apply (Z.div_unique _ _ _ 1); lia.
  - rewrite Pos2Z.inj_xO. apply (Z.div_unique _ _ _ 0); lia.
  - reflexivity.
Qed.

(** One step of the right shift of an even mantissa with no bit yet lost. *)
Lemma shr_1_exact (mrs : shr_record) :
  0 <= shr_m mrs -> shr_m mrs mod 2 = 0 ->
  shr_r mrs = false -> shr_s mrs = false ->
  shr_r (shr_1 mrs) = false /\ shr_s (shr_1 mrs) = false.
Proof.
  destruct mrs as [m r s]. simpl. intros Hm Hev -> ->.
  destruct m as [| p | p]; [split; reflexivity | | lia].
  destruct p as [p | p |]; simpl.
  - exfalso. rewrite Pos2Z.inj_xI in Hev.
    rewrite Z.add_comm, Z.mul_comm, Z.mod_add in Hev by lia. discriminate.
  - split; reflexivity.
  - discriminate.
Qed.

Lemma shr_iter_m (n : nat) (mrs : shr_record) :
  0 <= shr_m mrs ->
  shr_m (Nat.iter n shr_1 mrs) = shr_m mrs / 2 ^ Z.of_nat n.
Proof.
  intros Hm. induction n as [| n IH].
  - simpl. rewrite Z.div_1_r. reflexivity.
  - rewrite Nat2Z.inj_succ, Z.pow_succ_r by lia. simpl Nat.iter.
    rewrite shr_1_m.
    + rewrite IH, Z.div_div by (try apply pow2_gt0; lia).
      rewrite Z.mul_comm. reflexivity.
    + rewrite IH. apply Z.div_pos; [exact Hm | apply pow2_gt0; lia].
Qed.

Lemma shr_iter_exact (n : nat) (m : Z) :
  0 <= m -> m mod 2 ^ Z.of_nat n = 0 ->
  shr_r (Nat.iter n shr_1 (Build_shr_record m false false)) = false
  /\ shr_s (Nat.iter n shr_1 (Build_shr_record m false false)) = false.
Proof.
  intros Hm. induction n as [| n IH]; intros Hdiv.
  - split; reflexivity.
  - rewrite Nat2Z.inj_succ, Z.pow_succ_r in Hdiv by lia.
    pose proof (pow2_gt0 (Z.of_nat n) ltac:(lia)) as P.
    apply Z.mod_divide in Hdiv; [| lia]. destruct Hdiv as [k Hk].
    assert (Hn : m mod 2 ^ Z.of_nat n = 0).
    { apply Z.mod_divide; [lia |]. exists (k * 2). lia. }
    destruct (IH Hn) as [Hr Hs].
    simpl Nat.iter. apply shr_1_exact; try assumption.
    + rewrite shr_iter_m by exact Hm. apply Z.div_pos; [exact Hm | exact P].
    + rewrite shr_iter_m by exact Hm. simpl shr_m.
      replace m with (k * 2 * 2 ^ Z.of_nat n) by lia.
      rewrite Z.div_mul by lia. apply Z.mod_mul. lia.
Qed.

(** The right shift by [n > 0] places of a mantissa with no bit yet lost. *)
Lemma shr_spec (m e n : Z) :
  0 <= m -> 0 < n ->
  exists mrs,
    shr (Build_shr_record m false false) e n = (mrs, e + n)
    /\ shr_m mrs = m / 2 ^ n
    /\ (m mod 2 ^ n = 0 -> loc_of_shr_record mrs = loc_Exact).
Proof.
  intros Hm Hn. destruct n as [| p | p]; try lia.
  unfold shr. rewrite iter_pos_nat.
  eexists. split; [reflexivity |].
  rewrite <- (positive_nat_Z p). split.
  - apply (shr_iter_m (Pos.to_nat p) (Build_shr_record m false false)). exact Hm.
  - intros Hdiv. destruct (shr_iter_exact (Pos.to_nat p) m Hm Hdiv) as [Hr Hs].
    destruct (Nat.iter (Pos.to_nat p) shr_1 (Build_shr_record m false false))
      as [m' r' s'].
    simpl in Hr, Hs. subst r' s'. reflexivity.
Qed.

Lemma round_nearest_even_bounds (m : Z) (l : location) :
  m <= round_nearest_even m l <= m + 1
  /\ (l = loc_Exact -> round_nearest_even m l = m).
Proof.
  split.
  - destruct l as [| c]; simpl; [lia |].
    destruct c; [destruct (Z.even m) | |]; lia.
  - intros ->. reflexivity.
Qed.

(** Rounding a mantissa that already has the exponent of its binade. *)
Lemma binary_round_aux_canonical (sx : bool) (m : positive) (e : Z) :
  fexp prec emax (Zpos (digits2_pos m) + e) <= e ->
  binary_round_aux prec emax sx (Zpos m) e loc_Exact
  = if e <=? 971 then S754_finite sx m e else S754_infinity sx.
Proof.
  intros Hc.
  assert (Hs : shr_fexp prec emax (Zpos m) e loc_Exact
               = (Build_shr_record (Zpos m) false false, e)).
  { unfold shr_fexp, shr. simpl Zdigits2. simpl shr_record_of_loc.
    destruct (fexp prec emax (Zpos (digits2_pos m) + e) - e) eqn:En;
      try reflexivity. lia. }
  unfold binary_round_aux. rewrite Hs. simpl loc_of_shr_record.
  simpl shr_m. simpl round_nearest_even. rewrite Hs. simpl shr_m.
  reflexivity.
Qed.

Lemma iter_xO (m d : positive) : Zpos (Pos.iter xO m d) = Zpos m * 2 ^ Zpos d.
Proof.
  induction d as [| d IH] using Pos.peano_ind.
  - simpl. lia.
  - rewrite Pos.iter_succ, Pos2Z.inj_xO, IH, Pos2Z.inj_succ, Z.pow_succ_r by lia.
    lia.
Qed.

Lemma pow2_split (j k : Z) : 0 <= j -> 0 <= k -> 2 ^ (j + k) = 2 ^ j * 2 ^ k.
Proof. intros. apply Z.pow_add_r; assumption. Qed.

Lemma digits2_shift (m d : positive) :
  Zpos (digits2_pos (Pos.iter xO m d)) = Zpos (digits2_pos m) + Zpos d.
Proof.
  apply digits2_unique. rewrite iter_xO.
  pose proof (digits2_bounds m) as [L U].
  pose proof (pow2_gt0 (Zpos d) ltac:(lia)) as P.
  replace (Zpos (digits2_pos m) + Zpos d - 1)
    with (Zpos (digits2_pos m) - 1 + Zpos d) by lia.
  rewrite (pow2_split (Zpos (digits2_pos m) - 1) (Zpos d)),
    (pow2_split (Zpos (digits2_pos m)) (Zpos d)) by lia.
  nia.
Qed.

(** After a right shift that leaves 53 places, the result of the rounding. *)
Lemma round_finish (sx : bool) (m1 : Z) (E : Z) :
  2 ^ 52 <= m1 <= 2 ^ 53 -> -1074 <= E -> E + 1 <= 971 \/ (m1 < 2 ^ 53 /\ E <= 971) ->
  exists m' e',
    (let '(mrs, e2) := shr_fexp prec emax m1 E loc_Exact in
     match shr_m mrs with
     | Z0 => S754_zero sx
     | Zpos m => if e2 <=? 1024 - 53 then S754_finite sx m e2 else S754_infinity sx
     | Zneg _ => S754_nan
     end) = S754_finite sx m' e'
    /\ Zpos m' * 2 ^ (e' + 1074) = m1 * 2 ^ (E + 1074)
    /\ -1074 <= e'
    /\ E <= e' /\ Zpos m' * 2 ^ (e' - E) = m1.
Proof.
  intros Hm HE Hov.
  destruct m1 as [| p | p]; try lia.
  destruct (Z.eq_dec (Zpos p) (2 ^ 53)) as [Etop | Ntop].
  - (* the mantissa has been rounded up to the next power of two *)
    assert (p = 9007199254740992%positive) by (injection Etop; auto). subst p.
    exists 4503599627370496%positive, (E + 1).
    unfold shr_fexp. simpl Zdigits2. rewrite fexp64.
    replace (Z.max (54 + E - 53) (-1074) - E) with 1 by lia.
    simpl shr. cbv beta iota. simpl shr_m. cbv beta iota.
    destruct (Z.leb_spec (E + 1) (1024 - 53)); [| lia].
    split; [reflexivity |]. split; [| split; [lia | split; [lia |]]].
    + replace (E + 1 + 1074) with (E + 1074 + 1) by lia.
      rewrite pow2_double by lia. lia.
    + replace (E + 1 - E) with 1 by lia. reflexivity.
  - exists p, E.
    assert (Hd : Zpos (digits2_pos p) = 53) by (apply digits2_unique; simpl; lia).
    unfold shr_fexp. simpl Zdigits2. rewrite Hd, fexp64.
    replace (Z.max (53 + E - 53) (-1074) - E) with 0 by lia.
    simpl shr. cbv beta iota. simpl shr_m. cbv beta iota.
    destruct (Z.leb_spec E (1024 - 53)); [| lia].
    split; [reflexivity |]. split; [reflexivity |].
    split; [lia |]. split; [lia |].
    rewrite Z.sub_diag. simpl. lia.
Qed.

(** Rounding to nearest never passes a binary64 number: if the exact value
    [M * 2^e] is at most the number [mw * 2^ew], so is its rounding. *)
Lemma binary_round_le (sx : bool) (M : positive) (e : Z) (mw : positive) (ew : Z) :
  -1074 <= e ->
  valid_binary (S754_finite false mw ew) = true ->
  Zpos M * 2 ^ (e + 1074) <= Zpos mw * 2 ^ (ew + 1074) ->
  exists m' e',
    binary_round prec emax sx M e = S754_finite sx m' e'
    /\ Zpos m' * 2 ^ (e' + 1074) <= Zpos mw * 2 ^ (ew + 1074)
    /\ -1074 <= e'.
Proof.
  intros He Vw Hle.
  apply valid_finite in Vw. destruct Vw as [Rw [Uw Nw]].
  pose proof (digits2_bounds M) as [DL DU].
  set (D := Zpos (digits2_pos M)) in *.
  assert (HD : 0 < D) by (unfold D; lia).
  pose proof (pow2_gt0 (e + 1074) ltac:(lia)) as Pe.
  pose proof (pow2_gt0 (ew + 1074) ltac:(lia)) as Pw.
  assert (HEw : Z.max (D + e - 53) (-1074) <= ew).
  { apply Z.max_lub; [| lia].
    assert (Hlt : 2 ^ (D - 1 + (e + 1074)) < 2 ^ (53 + (ew + 1074))).
    { rewrite (pow2_split (D - 1) (e + 1074)), (pow2_split 53 (ew + 1074)) by lia.
      nia. }
    apply Z.pow_lt_mono_r_iff in Hlt; lia. }
  unfold binary_round.
  assert (HE : fexp prec emax (Zpos (digits2_pos M) + e) = Z.max (D + e - 53) (-1074))
    by apply fexp64.
  rewrite HE. set (E := Z.max (D + e - 53) (-1074)) in *.
  unfold shl_align.
  destruct (E - e) as [| n | n] eqn:Hn.
  - (* the mantissa is already aligned *)
    rewrite binary_round_aux_canonical by (rewrite HE; lia).
    destruct (Z.leb_spec e 971); [| lia].
    exists M, e. repeat split; assumption.
  - (* the mantissa is too long: it is shifted right and rounded *)
    assert (HEe : E = D + e - 53) by lia.
    assert (Hn' : Zpos n = D - 53) by lia.
    unfold binary_round_aux.
    destruct (shr_spec (Zpos M) e (Zpos n) ltac:(lia) ltac:(lia))
      as [mrs [Hshr [Hq Hexact]]].
    unfold shr_fexp at 1. simpl Zdigits2. simpl shr_record_of_loc.
    fold D. rewrite fexp64. fold E. rewrite Hn, Hshr.
    set (q := Zpos M / 2 ^ Zpos n) in *.
    pose proof (pow2_gt0 (Zpos n) ltac:(lia)) as Pn.
    pose proof (Z.div_mod (Zpos M) (2 ^ Zpos n) ltac:(lia)) as Hdm. fold q in Hdm.
    pose proof (Z.mod_pos_bound (Zpos M) (2 ^ Zpos n) Pn) as Hr.
    assert (HDn : 2 ^ D = 2 ^ 53 * 2 ^ Zpos n).
    { replace D with (53 + Zpos n) by lia. apply pow2_split; lia. }
    assert (HDn1 : 2 ^ (D - 1) = 2 ^ 52 * 2 ^ Zpos n).
    { replace (D - 1) with (52 + Zpos n) by lia. apply pow2_split; lia. }
    assert (Hq52 : 2 ^ 52 <= q < 2 ^ 53) by nia.
    (* the bound is a multiple of the unit of the last place kept *)
    assert (Hw : Zpos mw * 2 ^ (ew + 1074)
                 = Zpos mw * 2 ^ (ew - E) * 2 ^ (E + 1074)).
    { rewrite <- Z.mul_assoc, <- pow2_split by lia. f_equal. f_equal. lia. }
    assert (HeE : 2 ^ (E + 1074) = 2 ^ Zpos n * 2 ^ (e + 1074)).
    { rewrite <- pow2_split by lia. f_equal. lia. }
    pose proof (pow2_gt0 (ew - E) ltac:(lia)) as PwE.
    pose proof (pow2_gt0 (E + 1074) ltac:(lia)) as PE.
    set (Wq := Zpos mw * 2 ^ (ew - E)) in *.
    assert (HqW : q <= Wq).
    { destruct (Z.le_gt_cases q Wq); [assumption | exfalso].
      assert (Wq + 1 <= q) by lia. nia. }
    destruct (round_nearest_even_bounds (shr_m mrs) (loc_of_shr_record mrs))
      as [[Hlo Hhi] Hex].
    rewrite Hq in *.
    set (m1 := round_nearest_even q (loc_of_shr_record mrs)) in *.
    assert (Hm1W : m1 <= Wq).
    { destruct (Z.eq_dec q Wq) as [Eq | Nq]; [| lia].
      assert (Hmod : Zpos M mod 2 ^ Zpos n = 0) by nia.
      rewrite (Hex (Hexact Hmod)). lia. }
    replace (e + Zpos n) with E by lia.
    assert (Hov : E + 1 <= 971 \/ (m1 < 2 ^ 53 /\ E <= 971)).
    { destruct (Z.eq_dec m1 (2 ^ 53)) as [Etop | Ntop].
      - left. assert (Hlt : 2 ^ 53 * 2 ^ (E + 1074) < 2 ^ 53 * 2 ^ (ew + 1074)) by nia.
        assert (Hlt' : 2 ^ (E + 1074) < 2 ^ (ew + 1074)) by nia.
        apply Z.pow_lt_mono_r_iff in Hlt'; lia.
      - right. lia. }
    destruct (round_finish sx m1 E ltac:(lia) ltac:(lia) Hov)
      as [m' [e' [Hfin [Hval [He' _]]]]].
    exists m', e'. split; [exact Hfin |]. split; [| exact He'].
    rewrite Hval, Hw. nia.
  - (* the mantissa is short: it is shifted left, exactly *)
    assert (Hd : Zpos n = e - E) by lia.
    rewrite binary_round_aux_canonical
      by (rewrite digits2_shift, fexp64; fold D; lia).
    destruct (Z.leb_spec E 971); [| lia].
    exists (Pos.iter xO M n), E. split; [reflexivity |]. split; [| lia].
    rewrite iter_xO, <- Z.mul_assoc, <- pow2_split by lia.
    replace (Zpos n + (E + 1074)) with (e + 1074) by lia. exact Hle.
Qed.

Lemma nonneg_positive (w : spec_float) :
  nonneg_SF w -> 0 < ulps w ->
  exists mw ew, w = S754_finite false mw ew.
Proof.
  intros [V [F N]] P.
  destruct w as [s | s | | s m e]; try discriminate.
  pose proof (ulps_sign s m e V) as S. destruct s; [lia | eauto].
Qed.

(** Rounding to nearest keeps a value between two numbers of opposite
    signs, and keeps its sign. *)
Lemma binary_normalize_between (z e : Z) (w1 w2 : spec_float) :
  -1074 <= e -> nonneg_SF w1 -> nonneg_SF w2 ->
  - ulps w1 <= z * 2 ^ (e + 1074) <= ulps w2 ->
  is_finite_SF (binary_normalize prec emax z e false) = true
  /\ - ulps w1 <= ulps (binary_normalize prec emax z e false) <= ulps w2
  /\ (0 <= z -> 0 <= ulps (binary_normalize prec emax z e false))
  /\ (z < 0 -> binary_normalize prec emax z e false <> S754_zero false
               /\ ulps (binary_normalize prec emax z e false) < 0).
Proof.
  intros He N1 N2 [Hlo Hhi].
  pose proof (pow2_gt0 (e + 1074) ltac:(lia)) as Pe.
  pose proof N1 as [_ [_ P1]]. pose proof N2 as [_ [_ P2]].
  destruct z as [| M | M]; unfold binary_normalize.
  - change (ulps (S754_zero false)) with 0.
    split; [reflexivity |]. split; [lia |]. split; intros; lia.
  - assert (Hpos : 0 < ulps w2) by lia.
    destruct (nonneg_positive w2 N2 Hpos) as [mw [ew ->]].
    destruct N2 as [V2 _].
    assert (Hw : ulps (S754_finite false mw ew) = Zpos mw * 2 ^ (ew + 1074))
      by reflexivity.
    rewrite Hw in *.
    destruct (binary_round_le false M e mw ew He V2 Hhi) as [m' [e' [-> [Hb He']]]].
    pose proof (pow2_gt0 (e' + 1074) ltac:(lia)) as Pe'.
    change (ulps (S754_finite false m' e')) with (Zpos m' * 2 ^ (e' + 1074)).
    split; [reflexivity |]. split; [nia |]. split; intros; nia.
  - assert (Hpos : 0 < ulps w1) by lia.
    destruct (nonneg_positive w1 N1 Hpos) as [mw [ew ->]].
    destruct N1 as [V1 _].
    assert (Hw : ulps (S754_finite false mw ew) = Zpos mw * 2 ^ (ew + 1074))
      by reflexivity.
    rewrite Hw in *.
    assert (Hle : Zpos M * 2 ^ (e + 1074) <= Zpos mw * 2 ^ (ew + 1074)) by lia.
    destruct (binary_round_le true M e mw ew He V1 Hle) as [m' [e' [-> [Hb He']]]].
    pose proof (pow2_gt0 (e' + 1074) ltac:(lia)) as Pe'.
    change (ulps (S754_finite true m' e')) with (- (Zpos m' * 2 ^ (e' + 1074))).
    split; [reflexivity |]. split; [nia |]. split; [intros; lia |].
    intros _. split; [discriminate | nia].
Qed.

(** Alignment of a mantissa on a smaller exponent keeps the value. *)
Lemma shl_align_ulps (s : bool) (m : positive) (e ez : Z) :
  -1074 <= ez <= e ->
  cond_Zopp s (Zpos (fst (shl_align m e ez))) * 2 ^ (ez + 1074)
  = ulps (S754_finite s m e).
Proof.
  intros He. unfold shl_align, ulps.
  assert (Hs : forall a b, cond_Zopp s a * b = cond_Zopp s (a * b))
    by (intros; destruct s; simpl; lia).
  rewrite Hs. f_equal.
  destruct (ez - e) as [| d | d] eqn:Hd; simpl fst.
  - replace ez with e by lia. reflexivity.
  - lia.
  - rewrite iter_xO, <- Z.mul_assoc, <- pow2_split by lia.
    f_equal. f_equal. lia.
Qed.

Lemma valid_exponent (s : bool) (m : positive) (e : Z) :
  valid_binary (S754_finite s m e) = true -> -1074 <= e.
Proof. intros V. apply valid_finite in V. lia. Qed.

(** The difference of two finite numbers, when it lies between two numbers
    of opposite signs. *)
Lemma SFsub_between (a b w1 w2 : spec_float) :
  valid_binary a = true -> is_finite_SF a = true ->
  valid_binary b = true -> is_finite_SF b = true ->
  nonneg_SF w1 -> nonneg_SF w2 ->
  - ulps w1 <= ulps a - ulps b <= ulps w2 ->
  is_finite_SF (SF64sub a b) = true
  /\ - ulps w1 <= ulps (SF64sub a b) <= ulps w2
  /\ (0 <= ulps a - ulps b -> 0 <= ulps (SF64sub a b))
  /\ (ulps a - ulps b < 0 -> ulps (SF64sub a b) < 0).
Proof.
  intros Va Fa Vb Fb N1 N2 H.
  destruct a as [sa | sa | | sa ma ea]; try discriminate;
    destruct b as [sb | sb | | sb mb eb]; try discriminate.
  - assert (E : ulps (SF64sub (S754_zero sa) (S754_zero sb)) = 0)
      by (destruct sa, sb; reflexivity).
    assert (F : is_finite_SF (SF64sub (S754_zero sa) (S754_zero sb)) = true)
      by (destruct sa, sb; reflexivity).
    rewrite E. change (ulps (S754_zero sa)) with 0 in *.
    change (ulps (S754_zero sb)) with 0 in *.
    repeat split; (exact F || lia).
  - unfold SF64sub, SFsub.
    assert (E : ulps (S754_finite (negb sb) mb eb) = - ulps (S754_finite sb mb eb))
      by (unfold ulps, cond_Zopp; destruct sb; simpl negb; cbv iota; lia).
    rewrite E. change (ulps (S754_zero sa)) with 0 in *.
    repeat split; (reflexivity || lia).
  - unfold SF64sub, SFsub. change (ulps (S754_zero sb)) with 0 in *.
    repeat split; (reflexivity || lia).
  - pose proof (valid_exponent _ _ _ Va) as Ea.
    pose proof (valid_exponent _ _ _ Vb) as Eb.
    unfold SF64sub, SFsub.
    set (ez := Z.min ea eb).
    set (z := cond_Zopp sa (Zpos (fst (shl_align ma ea ez)))
              - cond_Zopp sb (Zpos (fst (shl_align mb eb ez)))).
    assert (Hz : z * 2 ^ (ez + 1074)
                 = ulps (S754_finite sa ma ea) - ulps (S754_finite sb mb eb)).
    { unfold z. rewrite Z.mul_sub_distr_r, !shl_align_ulps by (unfold ez; lia).
      reflexivity. }
    pose proof (pow2_gt0 (ez + 1074) ltac:(unfold ez; lia)) as Pz.
    rewrite <- Hz in *.
    destruct (binary_normalize_between z ez w1 w2 ltac:(unfold ez; lia) N1 N2 H)
      as [F [B [P Q]]].
    split; [exact F |]. split; [lia |]. split.
    + intros Hn. apply P. nia.
    + intros Hn. apply Q. nia.
Qed.

(** The same for the sum. *)
Lemma SFadd_between (a b w1 w2 : spec_float) :
  valid_binary a = true -> is_finite_SF a = true ->
  valid_binary b = true -> is_finite_SF b = true ->
  nonneg_SF w1 -> nonneg_SF w2 ->
  - ulps w1 <= ulps a + ulps b <= ulps w2 ->
  is_finite_SF (SF64add a b) = true
  /\ - ulps w1 <= ulps (SF64add a b) <= ulps w2
  /\ (0 <= ulps a + ulps b -> 0 <= ulps (SF64add a b)).
Proof.
  intros Va Fa Vb Fb N1 N2 H.
  destruct a as [sa | sa | | sa ma ea]; try discriminate;
    destruct b as [sb | sb | | sb mb eb]; try discriminate.
  - assert (E : ulps (SF64add (S754_zero sa) (S754_zero sb)) = 0)
      by (destruct sa, sb; reflexivity).
    assert (F : is_finite_SF (SF64add (S754_zero sa) (S754_zero sb)) = true)
      by (destruct sa, sb; reflexivity).
    rewrite E. change (ulps (S754_zero sa)) with 0 in *.
    change (ulps (S754_zero sb)) with 0 in *.
    repeat split; (exact F || lia).
  - unfold SF64add, SFadd. change (ulps (S754_zero sa)) with 0 in *.
    repeat split; (reflexivity || lia).
  - unfold SF64add, SFadd. change (ulps (S754_zero sb)) with 0 in *.
    repeat split; (reflexivity || lia).
  - pose proof (valid_exponent _ _ _ Va) as Ea.
    pose proof (valid_exponent _ _ _ Vb) as Eb.
    unfold SF64add, SFadd.
    set (ez := Z.min ea eb).
    set (z := cond_Zopp sa (Zpos (fst (shl_align ma ea ez)))
              + cond_Zopp sb (Zpos (fst (shl_align mb eb ez)))).
    assert (Hz : z * 2 ^ (ez + 1074)
                 = ulps (S754_finite sa ma ea) + ulps (S754_finite sb mb eb)).
    { unfold z. rewrite Z.mul_add_distr_r, !shl_align_ulps by (unfold ez; lia).
      reflexivity. }
    pose proof (pow2_gt0 (ez + 1074) ltac:(unfold ez; lia)) as Pz.
    rewrite <- Hz in *.
    destruct (binary_normalize_between z ez w1 w2 ltac:(unfold ez; lia) N1 N2 H)
      as [F [B [P Q]]].
    split; [exact F |]. split; [lia |].
    intros Hn. apply P. nia.
Qed.

Lemma Prim2SF_zero : Prim2SF 0 = S754_zero false.
Proof. reflexivity. Qed.

Lemma ulps_one : ulps (Prim2SF 1) = 2 ^ 1074.
Proof. reflexivity. Qed.

Lemma nonneg_zero : nonneg_SF (Prim2SF 0).
Proof. repeat split; discriminate. Qed.

Lemma nonneg_one : nonneg_SF (Prim2SF 1).
Proof. repeat split; discriminate. Qed.

(** The doubles of [0, 1). *)
Lemma unit_interval (x : float) :
  (0 <=? x)%float = true -> (x <? 1)%float = true ->
  is_finite_SF (Prim2SF x) = true /\ 0 <= ulps (Prim2SF x) < 2 ^ 1074.
Proof.
  rewrite leb_spec, ltb_spec, Prim2SF_zero. intros H0 H1.
  pose proof (Prim2SF_valid x) as V.
  assert (F : is_finite_SF (Prim2SF x) = true).
  { destruct (Prim2SF x) as [s | s | | s m e]; try reflexivity.
    - destruct s; discriminate.
    - discriminate. }
  split; [exact F |].
  rewrite SFleb_ulps in H0 by (assumption || reflexivity).
  rewrite SFltb_ulps in H1 by (assumption || reflexivity || apply Prim2SF_valid).
  rewrite ulps_one in H1.
  apply Z.leb_le in H0. apply Z.ltb_lt in H1.
  change (ulps (S754_zero false)) with 0 in H0. lia.
Qed.

Lemma leb_ulps (a b : float) :
  is_finite_SF (Prim2SF a) = true -> is_finite_SF (Prim2SF b) = true ->
  (a <=? b)%float = (ulps (Prim2SF a) <=? ulps (Prim2SF b)).
Proof.
  intros Fa Fb. rewrite leb_spec.
  apply SFleb_ulps; (assumption || apply Prim2SF_valid).
Qed.

Lemma ltb_ulps (a b : float) :
  is_finite_SF (Prim2SF a) = true -> is_finite_SF (Prim2SF b) = true ->
  (a <? b)%float = (ulps (Prim2SF a) <? ulps (Prim2SF b)).
Proof.
  intros Fa Fb. rewrite ltb_spec.
  apply SFltb_ulps; (assumption || apply Prim2SF_valid).
Qed.

Lemma combine_range (x y : float) :
  (0 <=? x)%float = true -> (x <? 1)%float = true ->
  (0 <=? y)%float = true -> (y <? 1)%float = true ->
  (0 <=? CombineMethodgenerator.combine x y)%float = true
  /\ (CombineMethodgenerator.combine x y <=? 1)%float = true
  /\ ((y <=? x)%float = true -> (CombineMethodgenerator.combine x y <? 1)%float = true).
Proof.
  intros Hx0 Hx1 Hy0 Hy1.
  destruct (unit_interval x Hx0 Hx1) as [Fx Bx].
  destruct (unit_interval y Hy0 Hy1) as [Fy By].
  pose proof (Prim2SF_valid x) as Vx. pose proof (Prim2SF_valid y) as Vy.
  assert (Nx : nonneg_SF (Prim2SF x)) by (repeat split; (assumption || lia)).
  assert (Ny : nonneg_SF (Prim2SF y)) by (repeat split; (assumption || lia)).
  destruct (SFsub_between (Prim2SF x) (Prim2SF y) (Prim2SF y) (Prim2SF x)
              Vx Fx Vy Fy Ny Nx ltac:(lia)) as [Fd [Bd [Pd Qd]]].
  rewrite <- sub_spec in Fd, Bd, Pd, Qd.
  assert (F0 : is_finite_SF (Prim2SF 0) = true) by reflexivity.
  assert (F1 : is_finite_SF (Prim2SF 1) = true) by reflexivity.
  rewrite (leb_ulps y x Fy Fx).
  unfold CombineMethodgenerator.combine. rewrite (ltb_ulps (x - y) 0 Fd F0).
  change (ulps (Prim2SF 0)) with 0.
  destruct (Z.ltb_spec (ulps (Prim2SF (x - y))) 0) as [Hneg | Hpos].
  - (* the difference is negative: 1 is added *)
    destruct (SFadd_between (Prim2SF (x - y)) (Prim2SF 1) (Prim2SF 0) (Prim2SF 1)
                (Prim2SF_valid _) Fd (Prim2SF_valid _) F1 nonneg_zero nonneg_one)
      as [Fs [Bs Ps]].
    { rewrite ulps_one. change (ulps (Prim2SF 0)) with 0. lia. }
    rewrite <- add_spec in Fs, Bs, Ps.
    rewrite ulps_one in *. change (ulps (Prim2SF 0)) with 0 in *.
    rewrite (leb_ulps 0 _ F0 Fs), (leb_ulps _ 1 Fs F1), ulps_one.
    change (ulps (Prim2SF 0)) with 0.
    split; [apply Z.leb_le; lia |]. split; [apply Z.leb_le; lia |].
    intros Hle. apply Z.leb_le in Hle. lia.
  - rewrite (leb_ulps 0 _ F0 Fd), (leb_ulps _ 1 Fd F1), (ltb_ulps _ 1 Fd F1), ulps_one.
    change (ulps (Prim2SF 0)) with 0.
    split; [apply Z.leb_le; lia |]. split; [apply Z.leb_le; lia |].
    intros _. apply Z.ltb_lt. lia.
Qed.

Lemma digits2_le_53 (M : positive) :
  Zpos M < 2 ^ 53 -> Zpos (digits2_pos M) <= 53.
Proof.
  intros H. pose proof (digits2_bounds M) as [L _].
  destruct (Z.le_gt_cases (Zpos (digits2_pos M)) 53) as [|G]; [assumption |].
  assert (2 ^ 53 <= 2 ^ (Zpos (digits2_pos M) - 1)) by (apply pow2_le; lia). lia.
Qed.

(** An integer below [2^53] is converted exactly, to a normal number. *)
Lemma binary_normalize_small (M : positive) :
  Zpos M < 2 ^ 53 ->
  exists m e,
    binary_normalize prec emax (Zpos M) 0 false = S754_finite false m e
    /\ valid_binary (S754_finite false m e) = true
    /\ -52 <= e <= 0
    /\ 2 ^ 52 <= Zpos m < 2 ^ 53
    /\ Zpos m = Zpos M * 2 ^ (- e).
Proof.
  intros HM. pose proof (digits2_le_53 M HM) as HD.
  pose proof (digits2_bounds M) as [DL DU].
  set (D := Zpos (digits2_pos M)) in *.
  assert (HD0 : 0 < D) by (unfold D; lia).
  unfold binary_normalize, binary_round.
  rewrite fexp64. fold D. rewrite Z.add_0_r.
  replace (Z.max (D - 53) (-1074)) with (D - 53) by lia.
  unfold shl_align.
  destruct (D - 53 - 0) as [| n | n] eqn:Hn.
  - rewrite binary_round_aux_canonical by (rewrite fexp64; fold D; lia).
    exists M, 0. simpl (0 <=? 971). cbv iota.
    assert (D = 53) by lia.
    replace (D - 1) with 52 in DL by lia. replace D with 53 in DU by lia.
    split; [reflexivity |]. split.
    { unfold SpecFloat.valid_binary, bounded, canonical_mantissa.
      rewrite fexp64. fold D. replace D with 53 by lia. reflexivity. }
    split; [lia |]. split; [lia |]. simpl. lia.
  - lia.
  - assert (Hd : Zpos n = 53 - D) by lia.
    rewrite binary_round_aux_canonical
      by (rewrite digits2_shift, fexp64; fold D; lia).
    destruct (Z.leb_spec (D - 53) 971); [| lia].
    exists (Pos.iter xO M n), (D - 53).
    assert (Hpow : 2 ^ 53 = 2 ^ D * 2 ^ Zpos n).
    { rewrite <- pow2_split by lia. f_equal. lia. }
    assert (Hpow' : 2 ^ 52 = 2 ^ (D - 1) * 2 ^ Zpos n).
    { rewrite <- pow2_split by lia. f_equal. lia. }
    pose proof (pow2_gt0 (Zpos n) ltac:(lia)) as Pn.
    split; [reflexivity |]. split.
    { unfold SpecFloat.valid_binary, bounded, canonical_mantissa.
      rewrite digits2_shift, fexp64. fold D.
      apply andb_true_iff. split; [apply Z.eqb_eq | apply Z.leb_le]; unfold emax, prec; lia. }
    split; [lia |]. rewrite iter_xO.
    split; [nia |]. f_equal. f_equal. lia.
Qed.

Lemma of_Z_small (z : Z) :
  0 < z < 2 ^ 53 ->
  exists m e,
    Prim2SF (Double.of_Z z) = S754_finite false m e
    /\ -52 <= e <= 0
    /\ 2 ^ 52 <= Zpos m < 2 ^ 53
    /\ Zpos m = z * 2 ^ (- e).
Proof.
  intros [Hz0 Hz1]. destruct z as [| M | M]; try lia.
  destruct (binary_normalize_small M Hz1) as [m [e [Hn [V [He [Hm Hv]]]]]].
  exists m, e. unfold Double.of_Z. rewrite Hn, Prim2SF_SF2Prim by exact V.
  repeat split; (reflexivity || lia).
Qed.

Lemma of_Z_zero : Prim2SF (Double.of_Z 0) = S754_zero false.
Proof. reflexivity. Qed.

Lemma quotient_bound (T q mn mc r m1 k h : Z) :
  0 < T -> 0 < mn -> 0 <= r -> mc * (2 * T) = mn * q + r ->
  0 < k -> T <= h -> k * h <= q -> 0 <= m1 <= h + 1 ->
  m1 * k * mn * T <= mc * (T + 1) * (2 * T).
Proof.
  intros HT Hmn Hr Hdiv Hk Hh Hkh Hm1.
  assert (S1 : m1 * (k * mn * T) <= (h + 1) * (k * mn * T))
    by (apply Z.mul_le_mono_nonneg_r; nia).
  assert (S2 : k * mn * T <= k * mn * h)
    by (apply Z.mul_le_mono_nonneg_l; nia).
  assert (S3 : (k * h) * (mn * (T + 1)) <= q * (mn * (T + 1)))
    by (apply Z.mul_le_mono_nonneg_r; nia).
  assert (S4 : 0 <= r * (T + 1)) by nia.
  replace (mc * (T + 1) * (2 * T)) with ((mn * q + r) * (T + 1)) by (rewrite <- Hdiv; ring).
  nia.
Qed.

Lemma shr_record_of_loc_m (m : Z) (l : location) :
  shr_m (shr_record_of_loc m l) = m.
Proof. destruct l as [| c]; [reflexivity | destruct c; reflexivity]. Qed.

(** The quotient of two normal numbers with 53-bit mantissas is at most
    [1 + 2^-52] times the exact quotient. *)
Lemma SFdiv_normal (mc mn : positive) (ec en : Z) :
  2 ^ 52 <= Zpos mc < 2 ^ 53 -> 2 ^ 52 <= Zpos mn < 2 ^ 53 ->
  -52 <= ec <= 0 -> -52 <= en <= 0 ->
  exists m e,
    SF64div (S754_finite false mc ec) (S754_finite false mn en)
    = S754_finite false m e
    /\ -1074 <= e /\ 0 <= e - (ec - en - 53)
    /\ Zpos m * 2 ^ (e - (ec - en - 53)) * Zpos mn * 2 ^ 52
       <= Zpos mc * (2 ^ 52 + 1) * 2 ^ 53.
Proof.
  intros Hc Hn Hec Hen.
  assert (Dc : Zpos (digits2_pos mc) = 53) by (apply digits2_unique; simpl; lia).
  assert (Dn : Zpos (digits2_pos mn) = 53) by (apply digits2_unique; simpl; lia).
  unfold SF64div, SFdiv, SFdiv_core_binary.
  simpl Zdigits2. rewrite Dc, Dn, fexp64.
  replace (Z.min (Z.max (53 + ec - (53 + en) - 53) (-1074)) (ec - en))
    with (ec - en - 53) by lia.
  replace (ec - en - (ec - en - 53)) with 53 by lia.
  rewrite Z.shiftl_mul_pow2 by lia.
  set (e' := ec - en - 53).
  pose proof (Z_div_mod (Zpos mc * 2 ^ 53) (Zpos mn) ltac:(lia)) as Hdm.
  destruct (Z.div_eucl (Zpos mc * 2 ^ 53) (Zpos mn)) as [q r].
  destruct Hdm as [Hq Hr].
  assert (Hq52 : 2 ^ 52 <= q < 2 ^ 54).
  { split.
    - destruct (Z.le_gt_cases (2 ^ 52) q) as [| G]; [assumption | exfalso].
      assert (Zpos mn * (q + 1) <= Zpos mn * 2 ^ 52)
        by (apply Z.mul_le_mono_nonneg_l; lia).
      assert (Zpos mn * 2 ^ 52 < 2 ^ 53 * 2 ^ 52)
        by (apply Z.mul_lt_mono_pos_r; lia).
      assert (2 ^ 52 * 2 ^ 53 <= Zpos mc * 2 ^ 53)
        by (apply Z.mul_le_mono_nonneg_r; lia).
      lia.
    - destruct (Z.lt_ge_cases q (2 ^ 54)) as [| G]; [assumption | exfalso].
      assert (Zpos mn * 2 ^ 54 <= Zpos mn * q)
        by (apply Z.mul_le_mono_nonneg_l; lia).
      assert (2 ^ 52 * 2 ^ 54 <= Zpos mn * 2 ^ 54)
        by (apply Z.mul_le_mono_nonneg_r; lia).
      assert (Zpos mc * 2 ^ 53 < 2 ^ 53 * 2 ^ 53)
        by (apply Z.mul_lt_mono_pos_r; lia).
      lia. }
  simpl xorb.
  set (l := new_location (Zpos mn) r).
  destruct q as [| pq | pq]; try (simpl in Hq52; lia).
  assert (H53 : 2 ^ 53 = 2 * 2 ^ 52) by reflexivity.
  assert (H54 : 2 ^ 54 = 2 * (2 * 2 ^ 52)) by reflexivity.
  assert (HT : 0 < 2 ^ 52) by reflexivity.
  unfold binary_round_aux.
  destruct (Z.lt_ge_cases (Zpos pq) (2 ^ 53)) as [Hsmall | Hbig].
  - (* a 53-bit quotient: no shift *)
    assert (Dq : Zpos (digits2_pos pq) = 53) by (apply digits2_unique; simpl; lia).
    unfold shr_fexp at 1. simpl Zdigits2. rewrite Dq, fexp64.
    replace (Z.max (53 + e' - 53) (-1074) - e') with 0 by (unfold e'; lia).
    simpl shr. cbv beta iota. rewrite shr_record_of_loc_m.
    destruct (round_nearest_even_bounds (Zpos pq)
                (loc_of_shr_record (shr_record_of_loc (Zpos pq) l)))
      as [[Hlo Hhi] _].
    set (m1 := round_nearest_even (Zpos pq) _) in *.
    destruct (round_finish false m1 e' ltac:(lia) ltac:(unfold e'; lia)
                ltac:(left; unfold e'; lia))
      as [m [e [Hfin [_ [He [He' Hm]]]]]].
    exists m, e. split; [exact Hfin |]. split; [exact He |]. split; [lia |].
    rewrite Hm, H53.
    replace (m1 * Zpos mn * 2 ^ 52) with (m1 * 1 * Zpos mn * 2 ^ 52) by ring.
    apply (quotient_bound (2 ^ 52) (Zpos pq) (Zpos mn) (Zpos mc) r m1 1 (Zpos pq));
      lia.
  - (* a 54-bit quotient: one place is shifted out *)
    assert (Dq : Zpos (digits2_pos pq) = 54) by (apply digits2_unique; simpl; lia).
    unfold shr_fexp at 1. simpl Zdigits2. rewrite Dq, fexp64.
    replace (Z.max (54 + e' - 53) (-1074) - e') with 1 by (unfold e'; lia).
    simpl shr. cbv beta iota.
    rewrite shr_1_m by (rewrite shr_record_of_loc_m; lia).
    rewrite shr_record_of_loc_m.
    pose proof (Z.div_mod (Zpos pq) 2 ltac:(lia)) as Hh.
    pose proof (Z.mod_pos_bound (Zpos pq) 2 ltac:(lia)) as Hhr.
    set (h := Zpos pq / 2) in *.
    destruct (round_nearest_even_bounds h
                (loc_of_shr_record (shr_1 (shr_record_of_loc (Zpos pq) l))))
      as [[Hlo Hhi] _].
    set (m1 := round_nearest_even h _) in *.
    destruct (round_finish false m1 (e' + 1) ltac:(lia)
                ltac:(unfold e'; lia) ltac:(left; unfold e'; lia))
      as [m [e [Hfin [_ [He [He' Hm]]]]]].
    exists m, e. split; [exact Hfin |]. split; [exact He |]. split; [lia |].
    replace (e - e') with (e - (e' + 1) + 1) by lia.
    rewrite pow2_double by lia.
    replace (Zpos m * (2 * 2 ^ (e - (e' + 1))) * Zpos mn * 2 ^ 52)
      with (Zpos m * 2 ^ (e - (e' + 1)) * 2 * Zpos mn * 2 ^ 52) by ring.
    rewrite Hm, H53.
    apply (quotient_bound (2 ^ 52) (Zpos pq) (Zpos mn) (Zpos mc) r m1 2 h); lia.
Qed.

(** ** Printed frequencies as rationals *)

Lemma to_Q_finite (f : float) (m : positive) (e : Z) (K C : Z) :
  Prim2SF f = S754_finite false m e -> -1074 <= e ->
  (0 <= e -> Zpos m * 2 ^ e * K <= C) ->
  (e < 0 -> Zpos m * K <= C * 2 ^ (- e)) ->
  (Double.to_Q f * inject_Z K <= inject_Z C)%Q.
Proof.
  intros Hf He Hpos Hneg. unfold Double.to_Q. rewrite Hf.
  destruct (Z.leb_spec 0 e) as [H | H].
  - rewrite <- inject_Z_mult, <- Zle_Qle. unfold cond_Zopp. apply Hpos. exact H.
  - unfold Qle, Qmult, inject_Z. simpl Qnum. simpl Qden.
    unfold cond_Zopp.
    rewrite Pos.mul_1_r, Z2Pos.id by (apply pow2_gt0; lia).
    rewrite Z.mul_1_r. apply Hneg. exact H.
Qed.

(** A printed relative frequency is at most [1 + 2^-52] times the exact
    quotient of the count by the number of samples. *)
Lemma frequency_bound (c N : Z) :
  0 <= c < 2 ^ 53 -> 0 < N < 2 ^ 53 ->
  (Double.to_Q (Double.of_Z c / Double.of_Z N) * inject_Z (N * 2 ^ 52)
   <= inject_Z (c * (2 ^ 52 + 1)))%Q.
Proof.
  intros Hc HN.
  destruct (of_Z_small N HN) as [mn [en [HNf [Hen [Hmn HNv]]]]].
  destruct (Z.eq_dec c 0) as [-> | Hc0].
  - assert (E : Prim2SF (Double.of_Z 0 / Double.of_Z N) = S754_zero false).
    { rewrite div_spec, of_Z_zero, HNf. reflexivity. }
    unfold Double.to_Q. rewrite E. rewrite Qmult_0_l. apply Qle_refl.
  - destruct (of_Z_small c ltac:(lia)) as [mc [ec [Hcf [Hec [Hmc Hcv]]]]].
    destruct (SFdiv_normal mc mn ec en Hmc Hmn Hec Hen)
      as [m [e [Hdiv [He [Hk Hbound]]]]].
    rewrite <- Hcf, <- HNf, <- div_spec in Hdiv.
    rewrite Hcv, HNv in Hbound.
    pose proof (pow2_gt0 (- ec) ltac:(lia)) as Pc.
    pose proof (pow2_gt0 (- en) ltac:(lia)) as Pn.
    pose proof (pow2_gt0 (e - (ec - en - 53)) Hk) as Pk.
    (* both sides of the bound, with the powers of two gathered *)
    assert (Hl : Zpos m * 2 ^ (e - (ec - en - 53)) * (N * 2 ^ (- en)) * 2 ^ 52
                 = Zpos m * N * 2 ^ 52 * 2 ^ (e - ec + 53)).
    { replace (e - ec + 53) with (e - (ec - en - 53) + - en) by lia.
      rewrite (pow2_split (e - (ec - en - 53)) (- en)) by lia. ring. }
    assert (Hr : c * 2 ^ (- ec) * (2 ^ 52 + 1) * 2 ^ 53
                 = c * (2 ^ 52 + 1) * 2 ^ (53 - ec)).
    { replace (53 - ec) with (- ec + 53) by lia.
      rewrite (pow2_split (- ec) 53) by lia. ring. }
    rewrite Hl, Hr in Hbound.
    apply (to_Q_finite _ m e _ _ Hdiv He).
    + intros He0.
      pose proof (pow2_gt0 (53 - ec) ltac:(lia)) as P.
      replace (e - ec + 53) with (e + (53 - ec)) in Hbound by lia.
      rewrite (pow2_split e (53 - ec)) in Hbound by lia.
      apply (Z.mul_le_mono_pos_r _ _ (2 ^ (53 - ec)) P).
      etransitivity; [| exact Hbound]. apply Z.eq_le_incl. ring.
    + intros He0.
      pose proof (pow2_gt0 (e - ec + 53) ltac:(lia)) as P.
      replace (53 - ec) with (- e + (e - ec + 53)) in Hbound by lia.
      rewrite (pow2_split (- e) (e - ec + 53)) in Hbound by lia.
      apply (Z.mul_le_mono_pos_r _ _ (2 ^ (e - ec + 53)) P).
      etransitivity; [| etransitivity; [exact Hbound |]];
        apply Z.eq_le_incl; ring.
Qed.

(** ** The counting loop of [histogram] *)

Lemma bind_Ret {A B : Type} (c : outcome A) (k : A -> outcome B) (b : B) :
  bind c k = Ret b -> exists a, c = Ret a /\ k a = Ret b.
Proof. destruct c as [a | f |]; simpl; intros H; try discriminate. eauto. Qed.

Lemma increment_spec (frequencyIntervals : list Z) :
  forall (interval : nat) (result : list Z),
    Histogram.increment frequencyIntervals interval = Ret result ->
    length result = length frequencyIntervals
    /\ Tally.total result = Tally.total frequencyIntervals + 1
    /\ (Forall (fun n => 0 <= n) frequencyIntervals -> Forall (fun n => 0 <= n) result).
Proof.
  induction frequencyIntervals as [| n rest IH]; intros interval result H.
  - destruct interval; discriminate.
  - destruct interval as [| interval']; simpl in H.
    + destruct (n =? Double.INT_MAX); [discriminate |].
      injection H as <-. simpl. split; [reflexivity |]. split; [lia |].
      intros F. inversion F; subst. constructor; [lia | assumption].
    + apply bind_Ret in H. destruct H as [rest' [Hrest Hret]].
      injection Hret as <-. destruct (IH _ _ Hrest) as [Hl [Ht Hf]].
      simpl. split; [lia |]. split; [unfold Tally.total in *; simpl; lia |].
      intros F. inversion F; subst. constructor; [assumption | auto].
Qed.

Lemma tally_spec (minRange maxRange intervalSize : float)
      (frequencyIntervals : list Z) (randomValue : float) (result : list Z) :
  Histogram.tally minRange maxRange intervalSize frequencyIntervals randomValue
  = Ret result ->
  length result = length frequencyIntervals
  /\ Tally.total result
     = Tally.total frequencyIntervals
       + (if Histogram.in_range minRange maxRange randomValue then 1 else 0)
  /\ (Forall (fun n => 0 <= n) frequencyIntervals -> Forall (fun n => 0 <= n) result).
Proof.
  unfold Histogram.tally. intros H.
  destruct (Histogram.in_range minRange maxRange randomValue).
  - apply bind_Ret in H. destruct H as [interval [_ H]].
    unfold Histogram.increment_at in H.
    destruct (interval <? 0); [discriminate |].
    apply increment_spec in H. exact H.
  - injection H as <-. split; [reflexivity |]. split; [lia | auto].
Qed.

Lemma tally_all_spec (minRange maxRange intervalSize : float)
      (randomValues : list float) :
  forall frequencyIntervals result : list Z,
    Histogram.tally_all minRange maxRange intervalSize frequencyIntervals randomValues
    = Ret result ->
    length result = length frequencyIntervals
    /\ Tally.total result
       = Tally.total frequencyIntervals
         + Tally.in_range_count minRange maxRange randomValues
    /\ (Forall (fun n => 0 <= n) frequencyIntervals -> Forall (fun n => 0 <= n) result).
Proof.
  induction randomValues as [| v rest IH]; intros cs result H; simpl in H.
  - injection H as <-. unfold Tally.in_range_count. simpl.
    split; [reflexivity |]. split; [lia | auto].
  - apply bind_Ret in H. destruct H as [cs' [H1 H2]].
    apply tally_spec in H1. destruct H1 as [L1 [T1 F1]].
    apply IH in H2. destruct H2 as [L2 [T2 F2]].
    split; [congruence |]. split; [| auto].
    rewrite T2, T1. unfold Tally.in_range_count. simpl filter.
    destruct (Histogram.in_range minRange maxRange v); simpl length; lia.
Qed.

Lemma total_repeat_zero (k : nat) : Tally.total (repeat 0 k) = 0.
Proof. induction k as [| k IH]; [reflexivity | exact IH]. Qed.

Lemma Forall_repeat_zero (k : nat) : Forall (fun n => 0 <= n) (repeat 0 k).
Proof. induction k; simpl; constructor; (lia || assumption). Qed.

Lemma counts_spec (randomValues : list float) (minRange maxRange : float)
      (numIntervals : Z) (frequencyIntervals : list Z) :
  Histogram.counts randomValues minRange maxRange numIntervals
  = Ret frequencyIntervals ->
  length frequencyIntervals = Z.to_nat numIntervals
  /\ Tally.total frequencyIntervals
     = Tally.in_range_count minRange maxRange randomValues
  /\ Forall (fun n => 0 <= n) frequencyIntervals.
Proof.
  unfold Histogram.counts. destruct (numIntervals <? 0); [discriminate |].
  intros H. apply tally_all_spec in H. destruct H as [L [T F]].
  rewrite repeat_length in L. rewrite total_repeat_zero in T.
  split; [exact L |]. split; [lia |]. apply F, Forall_repeat_zero.
Qed.

Lemma in_range_count_lt (minRange maxRange : float) (randomValues : list float)
      (randomValue : float) :
  In randomValue randomValues ->
  Histogram.in_range minRange maxRange randomValue = false ->
  Tally.in_range_count minRange maxRange randomValues
  < Z.of_nat (length randomValues).
Proof.
  unfold Tally.in_range_count. intros Hin Hout.
  induction randomValues as [| v rest IH]; [contradiction |].
  simpl. destruct Hin as [-> | Hin].
  - rewrite Hout. pose proof (filter_length_le (Histogram.in_range minRange maxRange) rest).
    lia.
  - specialize (IH Hin).
    destruct (Histogram.in_range minRange maxRange v); simpl length; lia.
Qed.

Lemma lines_frequency (minRange intervalSize : float) (size : Z)
      (frequencyIntervals : list Z) :
  forall i : Z,
    map Histogram.frequency
        (Histogram.lines minRange intervalSize size i frequencyIntervals)
    = map (fun count => (Double.of_Z count / Double.of_Z size)%float)
          frequencyIntervals.
Proof.
  induction frequencyIntervals as [| count rest IH]; intros i; simpl.
  - reflexivity.
  - rewrite IH. reflexivity.
Qed.

Lemma total_nonneg (frequencyIntervals : list Z) :
  Forall (fun n => 0 <= n) frequencyIntervals -> 0 <= Tally.total frequencyIntervals.
Proof.
  induction 1 as [| n rest Hn _ IH]; unfold Tally.total in *; simpl; lia.
Qed.

(** The sum of the printed frequencies against the sum of the counts. *)
Lemma total_frequency_bound (minRange intervalSize : float) (size : Z)
      (frequencyIntervals : list Z) :
  0 < size < 2 ^ 53 ->
  Forall (fun n => 0 <= n) frequencyIntervals ->
  Tally.total frequencyIntervals < 2 ^ 53 ->
  forall i : Z,
    (Tally.total_frequency
       (Histogram.lines minRange intervalSize size i frequencyIntervals)
     * inject_Z (size * 2 ^ 52)
     <= inject_Z (Tally.total frequencyIntervals * (2 ^ 52 + 1)))%Q.
Proof.
  intros Hsize F. induction F as [| count rest Hc F IH]; intros Ht i.
  - simpl. rewrite Qmult_0_l. apply Qle_refl.
  - pose proof (total_nonneg rest F) as Hrest.
    assert (Tally.total (count :: rest) = count + Tally.total rest) by reflexivity.
    simpl Histogram.lines. simpl Tally.total_frequency. simpl Histogram.frequency.
    rewrite H, Z.mul_add_distr_r, inject_Z_plus, Qmult_plus_distr_l.
    apply Qplus_le_compat.
    + apply frequency_bound; lia.
    + apply IH. lia.
Qed.

Lemma increment_nth (frequencyIntervals : list Z) :
  forall (interval : nat) (result : list Z),
    Histogram.increment frequencyIntervals interval = Ret result ->
    forall i : nat,
      nth i result 0
      = nth i frequencyIntervals 0 + (if Nat.eqb i interval then 1 else 0).
Proof.
  induction frequencyIntervals as [| n rest IH]; intros interval result H i.
  - destruct interval; discriminate.
  - destruct interval as [| interval']; simpl in H.
    + destruct (n =? Double.INT_MAX); [discriminate |].
      injection H as <-. destruct i as [| i]; simpl; lia.
    + apply bind_Ret in H. destruct H as [rest' [Hrest Hret]].
      injection Hret as <-. destruct i as [| i]; simpl; [lia |].
      apply IH. exact Hrest.
Qed.

Lemma tally_nth (minRange maxRange intervalSize : float)
      (frequencyIntervals : list Z) (randomValue : float) (result : list Z) :
  Histogram.tally minRange maxRange intervalSize frequencyIntervals randomValue
  = Ret result ->
  forall i : nat,
    nth i result 0
    = nth i frequencyIntervals 0
      + (if Tally.falls_in minRange maxRange intervalSize (Z.of_nat i) randomValue
         then 1 else 0).
Proof.
  unfold Histogram.tally, Tally.falls_in. intros H i.
  destruct (Histogram.in_range minRange maxRange randomValue); simpl andb.
  - apply bind_Ret in H. destruct H as [interval [Hcast H]].
    rewrite Hcast. unfold Histogram.increment_at in H.
    destruct (Z.ltb_spec interval 0) as [| Hpos]; [discriminate |].
    rewrite (increment_nth _ _ _ H i). f_equal.
    destruct (Nat.eqb_spec i (Z.to_nat interval)) as [E | E];
      destruct (Z.eqb_spec interval (Z.of_nat i)) as [E' | E'];
      try reflexivity; exfalso; lia.
  - injection H as <-. lia.
Qed.

Lemma tally_all_nth (minRange maxRange intervalSize : float)
      (randomValues : list float) :
  forall frequencyIntervals result : list Z,
    Histogram.tally_all minRange maxRange intervalSize frequencyIntervals randomValues
    = Ret result ->
    forall i : nat,
      nth i result 0
      = nth i frequencyIntervals 0
        + Tally.bin_count minRange maxRange intervalSize randomValues (Z.of_nat i).
Proof.
  induction randomValues as [| v rest IH]; intros cs result H i; simpl in H.
  - injection H as <-. unfold Tally.bin_count. simpl. lia.
  - apply bind_Ret in H. destruct H as [cs' [H1 H2]].
    rewrite (IH _ _ H2 i), (tally_nth _ _ _ _ _ _ H1 i).
    unfold Tally.bin_count. simpl filter.
    destruct (Tally.falls_in minRange maxRange intervalSize (Z.of_nat i) v);
      simpl length; lia.
Qed.

Lemma counts_nth (randomValues : list float) (minRange maxRange : float)
      (numIntervals : Z) (frequencyIntervals : list Z) :
  Histogram.counts randomValues minRange maxRange numIntervals
  = Ret frequencyIntervals ->
  forall i : nat,
    nth i frequencyIntervals 0
    = Tally.bin_count minRange maxRange
        ((maxRange - minRange) / Double.of_Z numIntervals)%float
        randomValues (Z.of_nat i).
Proof.
  unfold Histogram.counts. destruct (numIntervals <? 0); [discriminate |].
  intros H i. rewrite (tally_all_nth _ _ _ _ _ _ H i), nth_repeat. lia.
Qed.

(** The vector of counts, bin by bin. *)
Lemma counts_as_bins (randomValues : list float) (minRange maxRange : float)
      (numIntervals : Z) (frequencyIntervals : list Z) :
  Histogram.counts randomValues minRange maxRange numIntervals
  = Ret frequencyIntervals ->
  frequencyIntervals
  = map (fun i : nat =>
           Tally.bin_count minRange maxRange
             ((maxRange - minRange) / Double.of_Z numIntervals)%float
             randomValues (Z.of_nat i))
        (seq 0 (Z.to_nat numIntervals)).
Proof.
  intros H. destruct (counts_spec _ _ _ _ _ H) as [Hlen _].
  set (f := fun i : nat =>
              Tally.bin_count minRange maxRange
                ((maxRange - minRange) / Double.of_Z numIntervals)%float
                randomValues (Z.of_nat i)).
  apply (nth_ext _ _ 0 (f O)).
  - rewrite length_map, length_seq. exact Hlen.
  - intros i Hi. rewrite (map_nth f), seq_nth by lia.
    apply (counts_nth _ _ _ _ _ H).
Qed.

(** ** Difference generator *)

(** C10, as amended.  When the two generators a [CombineMethodgenerator]
    points at return [x] and [y] of [0, 1), its [getNext] returns
    [x - y], raised by 1 when negative, and this result lies in the closed
    interval [0, 1]; it lies below 1 whenever [y <= x].  (When [x < y] the
    sum [(x - y) + 1.0] is rounded and may be 1.0 itself.)  The generators
    are called through their addresses [X] and [Y], [X] first, on the shared
    world. *)
Theorem combine_getNext_range
        (log : float -> float) (depth p : nat) (w w1 w2 : world)
        (g : CombineMethodgenerator.t) (x y : float) :
  nth_error (heap w) p = Some (Combine g) ->
  getNext log depth (CombineMethodgenerator.X g) w = Ret (x, w1) ->
  getNext log depth (CombineMethodgenerator.Y g) w1 = Ret (y, w2) ->
  (0 <=? x)%float = true -> (x <? 1)%float = true ->
  (0 <=? y)%float = true -> (y <? 1)%float = true ->
  getNext log (S depth) p w = Ret (CombineMethodgenerator.combine x y, w2)
  /\ (0 <=? CombineMethodgenerator.combine x y)%float = true
  /\ (CombineMethodgenerator.combine x y <=? 1)%float = true
  /\ ((y <=? x)%float = true ->
      (CombineMethodgenerator.combine x y <? 1)%float = true).
Proof.
  intros Hp HX HY Hx0 Hx1 Hy0 Hy1. split.
  - simpl. rewrite Hp, HX. simpl. rewrite HY. reflexivity.
  - apply combine_range; assumption.
Qed.

(** The combined generator of [main] (address 4, over the generators at
    addresses 0 and 1) on its first call, for the seed 1700000000. *)
Lemma combine_getNext_range_witness :
  getNext (fun s => s) 2 4 {| heap := generators 1700000000; rand_stream := [] |}
  = Ret (CombineMethodgenerator.combine
           (Double.of_Z 1777560312 / Double.of_Z 2147483647)
           (Double.of_Z 1875502639 / Double.of_Z 2147483647),
         store 1 (Quadratic
                    (QuadraticCongruentialGenerator.new
                       2147483647 40014 0 53668 1875502639))
           (store 0 (Linear
                       (LinearCongruentialGenerator.new 2147483647 16807 0 1777560312))
              {| heap := generators 1700000000; rand_stream := [] |}))
  /\ (0 <=? CombineMethodgenerator.combine
              (Double.of_Z 1777560312 / Double.of_Z 2147483647)
              (Double.of_Z 1875502639 / Double.of_Z 2147483647))%float = true
  /\ (CombineMethodgenerator.combine
        (Double.of_Z 1777560312 / Double.of_Z 2147483647)
        (Double.of_Z 1875502639 / Double.of_Z 2147483647) <=? 1)%float = true
  /\ ((Double.of_Z 1875502639 / Double.of_Z 2147483647
       <=? Double.of_Z 1777560312 / Double.of_Z 2147483647)%float = true ->
      (CombineMethodgenerator.combine
         (Double.of_Z 1777560312 / Double.of_Z 2147483647)
         (Double.of_Z 1875502639 / Double.of_Z 2147483647) <? 1)%float = true).
Proof.
  apply (combine_getNext_range (fun s => s) 1 4
           {| heap := generators 1700000000; rand_stream := [] |}
           (store 0 (Linear
                       (LinearCongruentialGenerator.new 2147483647 16807 0 1777560312))
              {| heap := generators 1700000000; rand_stream := [] |})
           (store 1 (Quadratic
                       (QuadraticCongruentialGenerator.new
                          2147483647 40014 0 53668 1875502639))
              (store 0 (Linear
                          (LinearCongruentialGenerator.new
                             2147483647 16807 0 1777560312))
                 {| heap := generators 1700000000; rand_stream := [] |}))
           (CombineMethodgenerator.new 0 1));
    vm_compute; reflexivity.
Defined.

(** C10 as stated fails: a linear generator with [m = 2^62], [a = 1], [c = 0]
    returns 0 from state 0 and [2^-62] from state 1, both in [0, 1); the
    difference [-2^-62] is negative, and [-2^-62 + 1.0] rounds to 1.0, which
    the combined generator returns. *)
Lemma combine_reaches_one :
  LinearCongruentialGenerator.getNext
    (LinearCongruentialGenerator.new 4611686018427387904 1 0 0)
  = Ret (0%float, LinearCongruentialGenerator.new 4611686018427387904 1 0 0)
  /\ LinearCongruentialGenerator.getNext
       (LinearCongruentialGenerator.new 4611686018427387904 1 0 1)
     = Ret (0x1p-62%float, LinearCongruentialGenerator.new 4611686018427387904 1 0 1)
  /\ (0 <=? 0x1p-62)%float = true /\ (0x1p-62 <? 1)%float = true
  /\ getNext (fun s => s) 2 2
       {| heap := [Linear (LinearCongruentialGenerator.new 4611686018427387904 1 0 0);
                   Linear (LinearCongruentialGenerator.new 4611686018427387904 1 0 1);
                   Combine (CombineMethodgenerator.new 0 1)];
          rand_stream := [] |}
     = Ret (1%float,
            {| heap := [Linear (LinearCongruentialGenerator.new 4611686018427387904 1 0 0);
                        Linear (LinearCongruentialGenerator.new 4611686018427387904 1 0 1);
                        Combine (CombineMethodgenerator.new 0 1)];
               rand_stream := [] |})
  /\ (1 <? 1)%float = false.
Proof. repeat split; vm_compute; reflexivity. Qed.

(** ** Polar generator *)

Lemma zero_mul_not_positive (f : float) : (0 <? 0 * f)%float = false.
Proof.
  rewrite ltb_spec, mul_spec, Prim2SF_zero.
  destruct (Prim2SF f) as [s | s | | s m e]; reflexivity.
Qed.

Lemma rejection_loop_spec (n : nat) :
  forall (stream rest : list Z) (v1 v2 s : float),
    (length stream <= n)%nat ->
    PolarCoordinateGenerator.rejection_loop stream = Ret (v1, v2, s, rest) ->
    (1 <=? s)%float = false
    /\ exists k : nat, length stream = (2 * (k + 1) + length rest)%nat.
Proof.
  induction n as [| n IH]; intros stream rest v1 v2 s Hlen H.
  - destruct stream; [discriminate | simpl in Hlen; lia].
  - destruct stream as [| r1 [| r2 stream']]; try discriminate.
    simpl in H.
    destruct (1 <=? _)%float eqn:Hs.
    + apply IH in H; [| simpl in Hlen; lia].
      destruct H as [Hs' [k Hk]]. split; [exact Hs' |].
      exists (S k). simpl. lia.
    + injection H as <- <- <- <-. split; [exact Hs |].
      exists O. simpl. lia.
Qed.

(** The rejection loop goes over the pairs it rejects, two draws at a
    time. *)
Lemma rejection_loop_rejected (n : nat) :
  forall rejected stream : list Z,
    (length rejected <= n)%nat ->
    Draws.all_rejected rejected = true ->
    PolarCoordinateGenerator.rejection_loop (rejected ++ stream)
    = PolarCoordinateGenerator.rejection_loop stream
    /\ exists k : nat, length rejected = (2 * k)%nat.
Proof.
  induction n as [| n IH]; intros rejected stream Hlen H.
  - destruct rejected; [| simpl in Hlen; lia].
    split; [reflexivity | exists O; reflexivity].
  - destruct rejected as [| r1 [| r2 rejected']].
    + split; [reflexivity | exists O; reflexivity].
    + discriminate.
    + cbn [Draws.all_rejected] in H. apply andb_true_iff in H.
      destruct H as [Hs H]. unfold Draws.square_sum in Hs.
      destruct (IH rejected' stream) as [E [k Hk]];
        [simpl in Hlen; lia | exact H |].
      split.
      * simpl. rewrite Hs. exact E.
      * exists (S k). simpl. lia.
Qed.

(** C4, as amended.  A value is pending when [last > 0].  A call with
    nothing pending takes two draws from [std::rand] for each iteration of
    its rejection loop: past the [k] pairs the loop rejects it stops on the
    first pair [(r1, r2)] with [s < 1], after [2 * (k + 1)] draws, returns
    the first value [v1 * sqrt (-2 * log s / s)] of that pair and caches the
    second, [v2 * sqrt (-2 * log s / s)], in [last].  When that value is above
    0 the next call returns exactly it, resets [last] to -1 (nothing
    pending) and takes no draw: the pair is used up by two calls.  So does
    every call on a generator with a value pending. *)
Theorem polar_getNext_pending
        (log : float -> float) (g : PolarCoordinateGenerator.t)
        (rejected : list Z) (r1 r2 : Z) (rest : list Z) :
  (0 <? PolarCoordinateGenerator.last g)%float = false ->
  Draws.all_rejected rejected = true ->
  (1 <=? Draws.square_sum r1 r2)%float = false ->
  PolarCoordinateGenerator.getNext log g (rejected ++ r1 :: r2 :: rest)
  = Ret ((PolarCoordinateGenerator.scaled r1
          * PolarCoordinateGenerator.factor log (Draws.square_sum r1 r2))%float,
         PolarCoordinateGenerator.mk
           (PolarCoordinateGenerator.scaled r2
            * PolarCoordinateGenerator.factor log (Draws.square_sum r1 r2))%float,
         rest)
  /\ (exists k : nat,
         length rejected = (2 * k)%nat
         /\ length (rejected ++ r1 :: r2 :: rest) = (2 * (k + 1) + length rest)%nat)
  /\ ((0 <? PolarCoordinateGenerator.scaled r2
            * PolarCoordinateGenerator.factor log (Draws.square_sum r1 r2))%float = true ->
      PolarCoordinateGenerator.getNext log
        (PolarCoordinateGenerator.mk
           (PolarCoordinateGenerator.scaled r2
            * PolarCoordinateGenerator.factor log (Draws.square_sum r1 r2))%float)
        rest
      = Ret ((PolarCoordinateGenerator.scaled r2
              * PolarCoordinateGenerator.factor log (Draws.square_sum r1 r2))%float,
             PolarCoordinateGenerator.new, rest))
  /\ (forall (g' : PolarCoordinateGenerator.t) (stream' : list Z),
         (0 <? PolarCoordinateGenerator.last g')%float = true ->
         PolarCoordinateGenerator.getNext log g' stream'
         = Ret (PolarCoordinateGenerator.last g', PolarCoordinateGenerator.new, stream'))
  /\ (0 <? PolarCoordinateGenerator.last PolarCoordinateGenerator.new)%float = false.
Proof.
  intros Hfresh Hrej Hs.
  destruct (rejection_loop_rejected (length rejected) rejected (r1 :: r2 :: rest)
              (le_n _) Hrej) as [Hloop [k Hk]].
  assert (Hacc : PolarCoordinateGenerator.rejection_loop (r1 :: r2 :: rest)
                 = Ret (PolarCoordinateGenerator.scaled r1,
                        PolarCoordinateGenerator.scaled r2,
                        Draws.square_sum r1 r2, rest)).
  { unfold Draws.square_sum in *. simpl. rewrite Hs. reflexivity. }
  split; [| split; [| split; [| split]]].
  - unfold PolarCoordinateGenerator.getNext.
    rewrite Hfresh, Hloop, Hacc. reflexivity.
  - exists k. split; [exact Hk |]. rewrite length_app. simpl. lia.
  - intros Hpos. unfold PolarCoordinateGenerator.getNext.
    cbn [PolarCoordinateGenerator.last]. rewrite Hpos. reflexivity.
  - intros g' stream' Hpending. unfold PolarCoordinateGenerator.getNext.
    rewrite Hpending. reflexivity.
  - reflexivity.
Qed.

(** A new generator on six draws, for a [std::log] that returns -1: the
    pair [(RAND_MAX, RAND_MAX)] gives [s = 8] and is rejected, the pair
    [(1, 1)] is accepted, and the value cached is above 0, so that the
    second call returns it and leaves the draws 7 and 8. *)
Lemma polar_getNext_pending_witness :
  (0 <? PolarCoordinateGenerator.scaled 1
        * PolarCoordinateGenerator.factor (fun _ => (-1)%float)
            (Draws.square_sum 1 1))%float = true
  /\ PolarCoordinateGenerator.getNext (fun _ => (-1)%float) PolarCoordinateGenerator.new
       [2147483647; 2147483647; 1; 1; 7; 8]
     = Ret ((PolarCoordinateGenerator.scaled 1
             * PolarCoordinateGenerator.factor (fun _ => (-1)%float)
                 (Draws.square_sum 1 1))%float,
            PolarCoordinateGenerator.mk
              (PolarCoordinateGenerator.scaled 1
               * PolarCoordinateGenerator.factor (fun _ => (-1)%float)
                   (Draws.square_sum 1 1))%float,
            [7; 8])
  /\ (exists k : nat,
         length [2147483647; 2147483647] = (2 * k)%nat
         /\ length [2147483647; 2147483647; 1; 1; 7; 8]
            = (2 * (k + 1) + length [7; 8])%nat)
  /\ ((0 <? PolarCoordinateGenerator.scaled 1
            * PolarCoordinateGenerator.factor (fun _ => (-1)%float)
                (Draws.square_sum 1 1))%float = true ->
      PolarCoordinateGenerator.getNext (fun _ => (-1)%float)
        (PolarCoordinateGenerator.mk
           (PolarCoordinateGenerator.scaled 1
            * PolarCoordinateGenerator.factor (fun _ => (-1)%float)
                (Draws.square_sum 1 1))%float)
        [7; 8]
      = Ret ((PolarCoordinateGenerator.scaled 1
              * PolarCoordinateGenerator.factor (fun _ => (-1)%float)
                  (Draws.square_sum 1 1))%float,
             PolarCoordinateGenerator.new, [7; 8]))
  /\ (forall (g' : PolarCoordinateGenerator.t) (stream' : list Z),
         (0 <? PolarCoordinateGenerator.last g')%float = true ->
         PolarCoordinateGenerator.getNext (fun _ => (-1)%float) g' stream'
         = Ret (PolarCoordinateGenerator.last g', PolarCoordinateGenerator.new, stream'))
  /\ (0 <? PolarCoordinateGenerator.last PolarCoordinateGenerator.new)%float = false.
Proof.
  split; [vm_compute; reflexivity |].
  apply (polar_getNext_pending (fun _ => (-1)%float) PolarCoordinateGenerator.new
           [2147483647; 2147483647] 1 1 [7; 8]);
    vm_compute; reflexivity.
Defined.

(** C4 as stated fails when the second uniform of the accepted pair is 0
    ([std::rand] returned 0): the pair [(scaled 1, 0)] is accepted, the
    cached value is [0 * factor], which is not above 0 whatever [std::log]
    returns, and the second call runs the rejection loop again, on two more
    draws.  No [log] makes the second call leave the draws untouched. *)
Lemma polar_zero_not_cached :
  PolarCoordinateGenerator.rejection_loop [1; 0; 1; 1]
  = Ret (PolarCoordinateGenerator.scaled 1, 0%float,
         (PolarCoordinateGenerator.scaled 1 * PolarCoordinateGenerator.scaled 1 + 0 * 0)%float,
         [1; 1])
  /\ ~ (exists (log : float -> float) (x1 x2 : float)
               (g1 g2 : PolarCoordinateGenerator.t) (rest1 : list Z),
           PolarCoordinateGenerator.getNext log PolarCoordinateGenerator.new [1; 0; 1; 1]
           = Ret (x1, g1, rest1)
           /\ PolarCoordinateGenerator.getNext log g1 rest1 = Ret (x2, g2, rest1)).
Proof.
  split; [vm_compute; reflexivity |].
  intros (log & x1 & x2 & g1 & g2 & rest1 & H1 & H2).
  vm_compute in H1. injection H1 as _ <- <-.
  unfold PolarCoordinateGenerator.getNext in H2.
  cbn [PolarCoordinateGenerator.last] in H2.
  rewrite zero_mul_not_positive in H2.
  vm_compute in H2. discriminate H2.
Qed.

(** C5: the defect.  The loop repeats only while [s >= 1.0], so it stops on
    [s = 0] (two draws of 0), and [getNext] returns [0 * sqrt (-2 * log 0 / 0)],
    which is NaN when [log 0] is minus infinity.  The uniforms are
    [2.0 * rand() / 2147483647], in [0, 2] and never negative:
    [rand() = RAND_MAX] gives 2.  What the loop does ensure is that the [s]
    it stops on is not [>= 1]. *)
Theorem polar_accepts_zero :
  PolarCoordinateGenerator.rejection_loop [0; 0] = Ret (0%float, 0%float, 0%float, [])
  /\ (forall log : float -> float,
         PolarCoordinateGenerator.getNext log PolarCoordinateGenerator.new [0; 0]
         = Ret ((0 * sqrt ((-2 * log 0) / 0))%float,
                PolarCoordinateGenerator.mk (0 * sqrt ((-2 * log 0) / 0))%float,
                []))
  /\ (0 * sqrt ((-2 * neg_infinity) / 0))%float = nan
  /\ PolarCoordinateGenerator.scaled RAND_MAX = 2%float
  /\ (forall (stream rest : list Z) (v1 v2 s : float),
         PolarCoordinateGenerator.rejection_loop stream = Ret (v1, v2, s, rest) ->
         (1 <=? s)%float = false).
Proof.
  split; [vm_compute; reflexivity |].
  split; [intros log; vm_compute; reflexivity |].
  split; [vm_compute; reflexivity |].
  split; [vm_compute; reflexivity |].
  intros stream rest v1 v2 s H.
  apply (rejection_loop_spec (length stream)) in H; [| lia].
  exact (proj1 H).
Qed.

(** ** Histogram *)

(** C1: the defect.  A sample equal to [maxRange] passes the range test
    ([<=]); its index is computed as [numIntervals], one past the last bin,
    and nothing clamps it: [frequencyIntervals[interval]++] is out of
    bounds.  This is so on the range [0, 1] for every number of bins from 1
    to 92, and on the range [-3, 3] for 6 bins. *)
Theorem histogram_max_sample :
  Histogram.in_range 0 1 1 = true
  /\ Double.to_int ((1 - 0) / ((1 - 0) / Double.of_Z 10))%float = Ret 10
  /\ Histogram.histogram [1%float] 0 1 10 = Fault OutOfBounds
  /\ forallb (fun numIntervals =>
                Histogram.overruns
                  (Histogram.histogram [1%float] 0 1 (Z.of_nat numIntervals)))
             (seq 1 92) = true
  /\ Histogram.histogram [3%float] (-3) 3 6 = Fault OutOfBounds.
Proof. repeat split; vm_compute; reflexivity. Qed.

(** C7.  When [histogram] runs to its end, it prints one line per bin, and
    the relative frequency of bin [i] is the double quotient of the number of
    samples counted in bin [i] by the number of all samples, in range or
    not.  The counts of all bins add up to the number of samples in
    [minRange, maxRange]; so, as soon as one sample is outside, they add up
    to less than the number of samples, and the exact sum of the printed
    frequencies is below 1 (the latter for up to [2^52] samples, more than
    a vector holds, so that the rounding of the quotients cannot make up
    for the sample left out). *)
Theorem histogram_relative_frequency
        (randomValues : list float) (minRange maxRange : float) (numIntervals : Z)
        (rows : list Histogram.row) :
  Histogram.histogram randomValues minRange maxRange numIntervals = Ret rows ->
  map Histogram.frequency rows
  = map (fun i : nat =>
           (Double.of_Z
              (Tally.bin_count minRange maxRange
                 ((maxRange - minRange) / Double.of_Z numIntervals)%float
                 randomValues (Z.of_nat i))
            / Double.of_Z (Z.of_nat (length randomValues)))%float)
        (seq 0 (Z.to_nat numIntervals))
  /\ Tally.total
       (map (fun i : nat =>
               Tally.bin_count minRange maxRange
                 ((maxRange - minRange) / Double.of_Z numIntervals)%float
                 randomValues (Z.of_nat i))
            (seq 0 (Z.to_nat numIntervals)))
     = Tally.in_range_count minRange maxRange randomValues
  /\ (forall randomValue : float,
         In randomValue randomValues ->
         Histogram.in_range minRange maxRange randomValue = false ->
         Tally.in_range_count minRange maxRange randomValues
         < Z.of_nat (length randomValues)
         /\ (Z.of_nat (length randomValues) <= 2 ^ 52 ->
             (Tally.total_frequency rows < 1)%Q)).
Proof.
  intros H. unfold Histogram.histogram in H.
  apply bind_Ret in H. destruct H as [cs [Hcounts Hrows]].
  injection Hrows as <-.
  destruct (counts_spec _ _ _ _ _ Hcounts) as [Hlen [Htotal Hnonneg]].
  pose proof (counts_as_bins _ _ _ _ _ Hcounts) as Hbins.
  split; [| split].
  - rewrite lines_frequency. rewrite Hbins at 1. apply map_map.
  - rewrite <- Hbins. exact Htotal.
  - intros v Hin Hout.
    pose proof (in_range_count_lt minRange maxRange randomValues v Hin Hout) as Hlt.
    split; [exact Hlt |]. intros Hsize.
    pose proof (total_nonneg cs Hnonneg) as Hpos.
    set (N := Z.of_nat (length randomValues)) in *.
    assert (H52 : 2 ^ 53 = 2 * 2 ^ 52) by reflexivity.
    assert (HT : 0 < 2 ^ 52) by reflexivity.
    pose proof (total_frequency_bound minRange
                  ((maxRange - minRange) / Double.of_Z numIntervals)%float
                  N cs ltac:(lia) Hnonneg ltac:(lia) 0) as Hbound.
    assert (Hstrict : Tally.total cs * (2 ^ 52 + 1) < N * 2 ^ 52) by nia.
    apply (Qmult_lt_r _ _ (inject_Z (N * 2 ^ 52))).
    + replace 0%Q with (inject_Z 0) by reflexivity. rewrite <- Zlt_Qlt. nia.
    + rewrite Qmult_1_l. eapply Qle_lt_trans; [exact Hbound |].
      rewrite <- Zlt_Qlt. exact Hstrict.
Qed.

(** Four samples, one of them outside the range, in four bins. *)
Lemma histogram_relative_frequency_witness :
  map Histogram.frequency
      [Histogram.Build_row 0 0.25 0; Histogram.Build_row 0.25 0.5 0.25;
       Histogram.Build_row 0.5 0.75 0.25; Histogram.Build_row 0.75 1 0.25]
  = map (fun i : nat =>
           (Double.of_Z
              (Tally.bin_count 0 1 ((1 - 0) / Double.of_Z 4)%float
                 [0.25; 0.5; 2; 0.75]%float (Z.of_nat i))
            / Double.of_Z (Z.of_nat (length [0.25; 0.5; 2; 0.75]%float)))%float)
        (seq 0 (Z.to_nat 4))
  /\ Tally.total
       (map (fun i : nat =>
               Tally.bin_count 0 1 ((1 - 0) / Double.of_Z 4)%float
                 [0.25; 0.5; 2; 0.75]%float (Z.of_nat i))
            (seq 0 (Z.to_nat 4)))
     = Tally.in_range_count 0 1 [0.25; 0.5; 2; 0.75]%float
  /\ (forall randomValue : float,
         In randomValue [0.25; 0.5; 2; 0.75]%float ->
         Histogram.in_range 0 1 randomValue = false ->
         Tally.in_range_count 0 1 [0.25; 0.5; 2; 0.75]%float
         < Z.of_nat (length [0.25; 0.5; 2; 0.75]%float)
         /\ (Z.of_nat (length [0.25; 0.5; 2; 0.75]%float) <= 2 ^ 52 ->
             (Tally.total_frequency
                [Histogram.Build_row 0 0.25 0; Histogram.Build_row 0.25 0.5 0.25;
                 Histogram.Build_row 0.5 0.75 0.25; Histogram.Build_row 0.75 1 0.25]
              < 1)%Q)).
Proof.
  apply (histogram_relative_frequency [0.25; 0.5; 2; 0.75]%float 0 1 4).
  vm_compute. reflexivity.
Defined.

(** * Further properties *)

(** ** The modular inverse *)

(** The step of the loop on the wrapped coefficients is the step on the
    integer coefficients, wrapped. *)
Lemma coefficient_wrap (q X0 X1 : Z) :
  U64.sub (U64.wrap X1) (U64.mul q (U64.wrap X0)) = U64.wrap (X1 - q * X0).
Proof.
  assert (Hm : U64.modulus <> 0) by (unfold U64.modulus; lia).
  unfold U64.sub, U64.mul, U64.wrap.
  rewrite Z.mul_mod_idemp_r by exact Hm.
  rewrite <- Zminus_mod. reflexivity.
Qed.

(** The invariant of the loop of [modInverse a0 m0]: the coefficients held
    in [x0] and [x1] are the integers [- sgn * U0] and [sgn * U1] modulo
    [2^64], with [a = x1 * a0] and [m = x0 * a0] modulo [m0]. *)
Lemma modInverse_loop_bezout (a0 m0 : Z) (fuel : nat) :
  forall a m sgn U0 U1 : Z,
    1 <= a -> 0 <= m -> Z.gcd a m = 1 ->
    sgn = 1 \/ sgn = -1 ->
    0 <= U0 -> 0 <= U1 <= m0 -> U0 * a + U1 * m = m0 ->
    (m0 | sgn * U1 * a0 - a) -> (m0 | - sgn * U0 * a0 - m) ->
    InverseCongruentialGenerator.modInverse_loop
      fuel a m (U64.wrap (- sgn * U0)) (U64.wrap (sgn * U1)) <> Starved ->
    exists X : Z,
      InverseCongruentialGenerator.modInverse_loop
        fuel a m (U64.wrap (- sgn * U0)) (U64.wrap (sgn * U1)) = Ret (U64.wrap X)
      /\ - m0 <= X <= m0 /\ (m0 | X * a0 - 1).
Proof.
  induction fuel as [| fuel IH];
    intros a m sgn U0 U1 Ha Hm Hg Hs HU0 HU1 Hsum Da Dm Hfuel.
  - destruct (Z.le_gt_cases a 1) as [Ha1 | Ha1].
    + rewrite modInverse_loop_done by exact Ha1.
      exists (sgn * U1). split; [reflexivity |].
      assert (a = 1) by lia. subst a. split; [| exact Da].
      destruct Hs; subst sgn; lia.
    + exfalso. apply Hfuel. simpl.
      destruct (Z.ltb_spec 1 a); [reflexivity | lia].
  - destruct (Z.le_gt_cases a 1) as [Ha1 | Ha1].
    + rewrite modInverse_loop_done by exact Ha1.
      exists (sgn * U1). split; [reflexivity |].
      assert (a = 1) by lia. subst a. split; [| exact Da].
      destruct Hs; subst sgn; lia.
    + assert (Hm0 : m <> 0).
      { intros ->. rewrite Z.gcd_0_r in Hg. lia. }
      rewrite modInverse_loop_step in Hfuel |- * by assumption.
      rewrite coefficient_wrap in Hfuel |- *.
      pose proof (Z.mod_pos_bound a m ltac:(lia)) as Hr.
      pose proof (Z.div_mod a m Hm0) as Hdiv.
      assert (Hq : 0 <= a / m) by (apply Z.div_pos; lia).
      replace (sgn * U1 - a / m * (- sgn * U0))
        with (- (- sgn) * (U1 + a / m * U0)) in Hfuel |- * by ring.
      apply (IH m (a mod m) (- sgn) (U1 + a / m * U0) U0).
      * lia.
      * lia.
      * rewrite Z.gcd_comm, Z.gcd_mod by exact Hm0.
        rewrite Z.gcd_comm. exact Hg.
      * destruct Hs; subst sgn; [right | left]; lia.
      * nia.
      * split; [lia |]. nia.
      * nia.
      * exact Dm.
      * replace (- - sgn * (U1 + a / m * U0) * a0 - a mod m)
          with ((sgn * U1 * a0 - a) - a / m * (- sgn * U0 * a0 - m)) by nia.
        apply Z.divide_sub_r; [exact Da |].
        apply Z.divide_mul_r. exact Dm.
      * exact Hfuel.
Qed.

Lemma modInverse_bezout (a m : Z) :
  1 <= a -> 1 < m -> Z.gcd a m = 1 ->
  exists X : Z,
    InverseCongruentialGenerator.modInverse a m = Ret (U64.wrap X)
    /\ - m < X < m /\ (a * X) mod m = 1.
Proof.
  intros Ha Hm Hg.
  destruct (modInverse_loop_bezout a m (InverseCongruentialGenerator.modInverse_fuel m)
              a m 1 0 1) as [X [HX [HB HD]]]; try lia.
  - replace (1 * 1 * a - a) with 0 by ring. apply Z.divide_0_r.
  - replace (- (1) * 0 * a - m) with (- m) by ring.
    apply Z.divide_opp_r. apply Z.divide_refl.
  - apply modInverse_fuel_enough. lia.
  - exists X.
    assert (Hmod : (a * X) mod m = 1).
    { destruct HD as [k Hk].
      replace (a * X) with (1 + k * m) by lia.
      rewrite Z.mod_add by lia. apply Z.mod_small. lia. }
    split; [| split; [| exact Hmod]].
    + unfold InverseCongruentialGenerator.modInverse.
      change (U64.wrap (- (1) * 0)) with 0 in HX.
      change (U64.wrap (1 * 1)) with 1 in HX.
      rewrite HX. simpl.
      destruct (Z.ltb_spec (U64.wrap X) 0) as [Hneg | _]; [| reflexivity].
      exfalso. unfold U64.wrap, U64.modulus in Hneg.
      pose proof (Z.mod_pos_bound X (2 ^ 64) ltac:(lia)). lia.
    + assert (X <> m).
      { intros ->. rewrite Z.mod_mul in Hmod by lia. lia. }
      assert (X <> - m).
      { intros ->. replace (a * - m) with ((- a) * m) in Hmod by ring.
        rewrite Z.mod_mul in Hmod by lia. lia. }
      lia.
Qed.

(** ** Trial division *)

Lemma no_divisor_spec (n : nat) :
  forall d p k : Z,
    no_divisor n d p = true -> d <= k < d + Z.of_nat n -> p mod k <> 0.
Proof.
  induction n as [| n IH]; intros d p k H Hk.
  - simpl in Hk. lia.
  - simpl in H. apply andb_true_iff in H. destruct H as [H1 H2].
    destruct (Z.eq_dec k d) as [-> | Hd].
    + apply negb_true_iff in H1. apply Z.eqb_neq in H1. exact H1.
    + apply (IH (d + 1) p k H2). lia.
Qed.

Lemma trial_division (n : nat) (p : Z) :
  1 < p -> no_divisor n 2 p = true -> p < (2 + Z.of_nat n) * (2 + Z.of_nat n) ->
  Z.prime p.
Proof.
  intros Hp Hn Hsq. split; [exact Hp |].
  intros g Hg [k Ek].
  assert (Hk : 1 < k) by nia.
  destruct (Z.le_gt_cases g k) as [L | L].
  - apply (no_divisor_spec n 2 p g Hn); [nia |].
    rewrite Ek. apply Z.mod_mul. lia.
  - apply (no_divisor_spec n 2 p k Hn); [nia |].
    rewrite Ek, Z.mul_comm. apply Z.mod_mul. lia.
Qed.

(** The modulus of [main]'s generators, [2^31 - 1], is prime. *)
Lemma prime_2147483647 : Z.prime 2147483647.
Proof.
  apply (trial_division (Z.to_nat 46340)); [lia | vm_compute; reflexivity | vm_compute; reflexivity].
Qed.

(** The double quotient of two integers [x < m <= 2^52] is in [0, 1). *)
Lemma ratio_unit_interval (x m : Z) :
  0 <= x < m -> m <= 2 ^ 52 ->
  (0 <=? Double.of_Z x / Double.of_Z m)%float = true
  /\ (Double.of_Z x / Double.of_Z m <? 1)%float = true.
Proof.
  intros Hx Hm.
  destruct (of_Z_small m ltac:(lia)) as [mn [en [HNf [Hen [Hmn HNv]]]]].
  assert (F0 : is_finite_SF (Prim2SF 0) = true) by reflexivity.
  assert (F1 : is_finite_SF (Prim2SF 1) = true) by reflexivity.
  destruct (Z.eq_dec x 0) as [-> | Hx0].
  - assert (E : Prim2SF (Double.of_Z 0 / Double.of_Z m) = S754_zero false).
    { rewrite div_spec, of_Z_zero, HNf. reflexivity. }
    rewrite leb_spec, ltb_spec, E. split; reflexivity.
  - destruct (of_Z_small x ltac:(lia)) as [mc [ec [Hcf [Hec [Hmc Hcv]]]]].
    destruct (SFdiv_normal mc mn ec en Hmc Hmn Hec Hen)
      as [mq [e [Hdiv [He [Hk Hbound]]]]].
    rewrite <- Hcf, <- HNf, <- div_spec in Hdiv.
    assert (Fq : is_finite_SF (Prim2SF (Double.of_Z x / Double.of_Z m)) = true)
      by (rewrite Hdiv; reflexivity).
    rewrite (leb_ulps 0 _ F0 Fq), (ltb_ulps _ 1 Fq F1), ulps_one, Hdiv.
    change (ulps (Prim2SF 0)) with 0.
    change (ulps (S754_finite false mq e)) with (Zpos mq * 2 ^ (e + 1074)).
    pose proof (pow2_gt0 (e + 1074) ltac:(lia)) as Pe.
    split; [apply Z.leb_le; nia |]. apply Z.ltb_lt.
    rewrite Hcv, HNv in Hbound.
    pose proof (pow2_gt0 (- ec) ltac:(lia)) as Pc.
    pose proof (pow2_gt0 (- en) ltac:(lia)) as Pn.
    pose proof (pow2_gt0 (e - (ec - en - 53)) Hk) as Pk.
    pose proof (pow2_gt0 (- ec + 53) ltac:(lia)) as Pc'.
    (* the quotient [q = mq * 2^k * 2^-en] is below [2^(53 - ec)] *)
    set (k := e - (ec - en - 53)) in *.
    assert (Hq : Zpos mq * 2 ^ k * 2 ^ (- en) < 2 ^ (- ec + 53)).
    { rewrite (pow2_split (- ec) 53) by lia.
      assert (Hxm : x * (2 ^ 52 + 1) < m * 2 ^ 52) by nia.
      apply (Z.mul_lt_mono_pos_r (m * 2 ^ 52)); [lia |].
      apply Z.le_lt_trans with (x * 2 ^ (- ec) * (2 ^ 52 + 1) * 2 ^ 53).
      - etransitivity; [| exact Hbound]. apply Z.eq_le_incl. ring.
      - replace (x * 2 ^ (- ec) * (2 ^ 52 + 1) * 2 ^ 53)
          with (2 ^ (- ec) * 2 ^ 53 * (x * (2 ^ 52 + 1))) by ring.
        apply Z.mul_lt_mono_pos_l; [lia | exact Hxm]. }
    assert (E : Zpos mq * 2 ^ (e + 1074) * 2 ^ (- ec + 53)
                = Zpos mq * 2 ^ k * 2 ^ (- en) * 2 ^ 1074).
    { rewrite <- !Z.mul_assoc. f_equal.
      rewrite <- !pow2_split by lia. f_equal. unfold k. lia. }
    pose proof (pow2_gt0 1074 ltac:(lia)) as P1074.
    clearbody k.
    generalize dependent (2 ^ (- ec + 53)). generalize dependent (2 ^ (e + 1074)).
    generalize dependent (Zpos mq * 2 ^ k * 2 ^ (- en)).
    generalize dependent (2 ^ 1074).
    intros. nia.
Qed.

(** X1.  For [a] and [m] coprime, [modInverse] runs to its end and returns a
    Bezout coefficient of [a] modulo [2^64]: an integer [X] of [(-m, m)] with
    [a * X = 1] modulo [m], wrapped into the unsigned type. *)
Theorem modInverse_coprime (a m : Z) :
  U64.in_range a -> U64.in_range m -> 1 <= a -> 1 < m -> Z.gcd a m = 1 ->
  exists X : Z,
    InverseCongruentialGenerator.modInverse a m = Ret (U64.wrap X)
    /\ - m < X < m /\ (a * X) mod m = 1.
Proof. intros _ _ Ha Hm Hg. apply modInverse_bezout; assumption. Qed.

Lemma modInverse_coprime_witness :
  exists X : Z,
    InverseCongruentialGenerator.modInverse 16815 2147483647 = Ret (U64.wrap X)
    /\ - 2147483647 < X < 2147483647 /\ (16815 * X) mod 2147483647 = 1.
Proof.
  apply (modInverse_coprime 16815 2147483647);
    (u64_range || lia || reflexivity).
Defined.

(** X2.  For [a] and [m <= 2^63] coprime, a result of [modInverse] below [m] is
    the inverse of [a] modulo [m]; a result of [m] or more is the inverse
    less [m], wrapped: adding [m] to it in the unsigned type gives the
    inverse. *)
Theorem modInverse_recovered (a m : Z) :
  U64.in_range a -> 1 <= a -> 1 < m <= 2 ^ 63 -> Z.gcd a m = 1 ->
  exists y : Z,
    InverseCongruentialGenerator.modInverse a m = Ret y
    /\ (y < m -> 0 < y /\ (a * y) mod m = 1)
    /\ (m <= y -> 0 < U64.add y m < m /\ (a * U64.add y m) mod m = 1).
Proof.
  intros _ Ha Hm Hg.
  destruct (modInverse_bezout a m Ha ltac:(lia) Hg) as [X [HX [HB HM]]].
  exists (U64.wrap X). split; [exact HX |].
  assert (X0 : X <> 0).
  { intros ->. rewrite Z.mul_0_r, Z.mod_0_l in HM by lia. discriminate. }
  unfold U64.add, U64.wrap, U64.modulus.
  assert (H63 : 2 ^ 64 = 2 * 2 ^ 63) by reflexivity.
  destruct (Z.lt_ge_cases X 0) as [Neg | Pos].
  - assert (E : X mod 2 ^ 64 = X + 2 ^ 64).
    { symmetry. apply (Z.mod_unique _ _ (-1)); lia. }
    rewrite E. split; [intros; lia |]. intros _.
    assert (E' : (X + 2 ^ 64 + m) mod 2 ^ 64 = X + m).
    { symmetry. apply (Z.mod_unique _ _ 1); lia. }
    rewrite E'. split; [lia |].
    replace (a * (X + m)) with (a * X + a * m) by ring.
    rewrite Z.mod_add by lia. exact HM.
  - rewrite (Z.mod_small X) by lia. split; [| intros; lia].
    intros _. split; [lia | exact HM].
Qed.

Lemma modInverse_recovered_witness :
  exists y : Z,
    InverseCongruentialGenerator.modInverse 2 7 = Ret y
    /\ (y < 7 -> 0 < y /\ (2 * y) mod 7 = 1)
    /\ (7 <= y -> 0 < U64.add y 7 < 7 /\ (2 * U64.add y 7) mod 7 = 1).
Proof.
  apply (modInverse_recovered 2 7); (u64_range || lia || reflexivity).
Defined.

(** X3.  With a prime modulus [p <= 2^52] and a state below [p], [getNext] of
    the inverse generator never divides by zero: it returns a sample of
    [0, 1) and leaves a state below [p]. *)
Theorem inverse_getNext_prime (p a c x : Z) :
  Z.prime p -> p <= 2 ^ 52 -> U64.in_range a -> U64.in_range c -> 0 <= x < p ->
  exists (v : float) (x' : Z),
    InverseCongruentialGenerator.getNext (InverseCongruentialGenerator.new p a c x)
    = Ret (v, InverseCongruentialGenerator.new p a c x')
    /\ 0 <= x' < p
    /\ (0 <=? v)%float = true /\ (v <? 1)%float = true.
Proof.
  intros Hp Hp52 Ha Hc Hx.
  pose proof Hp as [Hp1 _].
  assert (Hinv : exists y, InverseCongruentialGenerator.modInverse x p = Ret y).
  { destruct (Z.eq_dec x 0) as [-> | Hx0].
    - exists 1. reflexivity.
    - assert (Hg : Z.gcd x p = 1).
      { rewrite Z.gcd_comm. apply Z.coprime_prime_small; [exact Hp | lia]. }
      destruct (modInverse_bezout x p ltac:(lia) Hp1 Hg) as [X [HX _]].
      eauto. }
  destruct Hinv as [y Hy].
  unfold InverseCongruentialGenerator.getNext.
  cbn [InverseCongruentialGenerator.p InverseCongruentialGenerator.a
       InverseCongruentialGenerator.c InverseCongruentialGenerator.x].
  rewrite Hy. cbn [bind]. rewrite rem_positive by lia. cbn [bind].
  pose proof (Z.mod_pos_bound (U64.add (U64.mul a y) c) p ltac:(lia)) as Hr.
  eexists _, _. split; [reflexivity |]. split; [exact Hr |].
  apply ratio_unit_interval; assumption.
Qed.

(** The inverse generator of [main] on its first call. *)
Lemma inverse_getNext_prime_witness :
  exists (v : float) (x' : Z),
    InverseCongruentialGenerator.getNext
      (InverseCongruentialGenerator.new 2147483647 16805 10 1)
    = Ret (v, InverseCongruentialGenerator.new 2147483647 16805 10 x')
    /\ 0 <= x' < 2147483647
    /\ (0 <=? v)%float = true /\ (v <? 1)%float = true.
Proof.
  apply (inverse_getNext_prime 2147483647 16805 10 1);
    [exact prime_2147483647 | vm_compute; discriminate | u64_range | u64_range | lia].
Defined.

(** X4.  With a modulus [0 < m <= 2^52], the linear, the quadratic and the
    Fibonacci generator return a double of [0, 1), whatever the parameters
    and the state.  The bound on [m] matters: with [m = 2^62 + 1] the state
    [2^62] is converted to the same double as [m], and the linear generator
    returns 1.0. *)
Theorem congruential_unit_interval (m : Z) :
  0 < m <= 2 ^ 52 ->
  (forall a c x, exists v g',
      LinearCongruentialGenerator.getNext (LinearCongruentialGenerator.new m a c x)
      = Ret (v, g')
      /\ (0 <=? v)%float = true /\ (v <? 1)%float = true)
  /\ (forall a c d x, exists v g',
         QuadraticCongruentialGenerator.getNext
           (QuadraticCongruentialGenerator.new m a c d x) = Ret (v, g')
         /\ (0 <=? v)%float = true /\ (v <? 1)%float = true)
  /\ (forall x1 x2, exists v g',
         FibonacciGenerator.getNext (FibonacciGenerator.mk m x1 x2) = Ret (v, g')
         /\ (0 <=? v)%float = true /\ (v <? 1)%float = true)
  /\ LinearCongruentialGenerator.getNext
       (LinearCongruentialGenerator.new (2 ^ 62 + 1) 1 0 (2 ^ 62))
     = Ret (1%float, LinearCongruentialGenerator.new (2 ^ 62 + 1) 1 0 (2 ^ 62)).
Proof.
  intros Hm.
  assert (Hratio : forall z, (0 <=? Double.of_Z (z mod m) / Double.of_Z m)%float = true
                             /\ (Double.of_Z (z mod m) / Double.of_Z m <? 1)%float = true).
  { intros z. apply ratio_unit_interval; [apply Z.mod_pos_bound |]; lia. }
  split; [| split; [| split]].
  - intros a c x. unfold LinearCongruentialGenerator.getNext.
    cbn [LinearCongruentialGenerator.m LinearCongruentialGenerator.a
         LinearCongruentialGenerator.c LinearCongruentialGenerator.x].
    rewrite rem_positive by lia. cbn [bind].
    eexists _, _. split; [reflexivity | apply Hratio].
  - intros a c d x. unfold QuadraticCongruentialGenerator.getNext.
    cbn [QuadraticCongruentialGenerator.m QuadraticCongruentialGenerator.a
         QuadraticCongruentialGenerator.c QuadraticCongruentialGenerator.d
         QuadraticCongruentialGenerator.x].
    rewrite rem_positive by lia. cbn [bind].
    eexists _, _. split; [reflexivity | apply Hratio].
  - intros x1 x2. unfold FibonacciGenerator.getNext.
    cbn [FibonacciGenerator.m FibonacciGenerator.x1 FibonacciGenerator.x2].
    rewrite rem_positive by lia. cbn [bind].
    eexists _, _. split; [reflexivity | apply Hratio].
  - vm_compute. reflexivity.
Qed.

(** The modulus of [main]'s generators. *)
Lemma congruential_unit_interval_witness :
  (forall a c x, exists v g',
      LinearCongruentialGenerator.getNext
        (LinearCongruentialGenerator.new 2147483647 a c x) = Ret (v, g')
      /\ (0 <=? v)%float = true /\ (v <? 1)%float = true)
  /\ (forall a c d x, exists v g',
         QuadraticCongruentialGenerator.getNext
           (QuadraticCongruentialGenerator.new 2147483647 a c d x) = Ret (v, g')
         /\ (0 <=? v)%float = true /\ (v <? 1)%float = true)
  /\ (forall x1 x2, exists v g',
         FibonacciGenerator.getNext (FibonacciGenerator.mk 2147483647 x1 x2)
         = Ret (v, g')
         /\ (0 <=? v)%float = true /\ (v <? 1)%float = true)
  /\ LinearCongruentialGenerator.getNext
       (LinearCongruentialGenerator.new (2 ^ 62 + 1) 1 0 (2 ^ 62))
     = Ret (1%float, LinearCongruentialGenerator.new (2 ^ 62 + 1) 1 0 (2 ^ 62)).
Proof. apply (congruential_unit_interval 2147483647). lia. Defined.

(** X5.  A linear generator with [c = 0], a prime modulus [m] and a multiplier
    [0 < a < m] small enough for [a * x] never to wrap (as [main]'s:
    [m = 2^31 - 1], [a = 16807]) keeps the state 0 for ever once it holds
    it, and from a state of [(0, m)] it moves to a state of [(0, m)]: it
    never reaches 0. *)
Theorem linear_multiplicative_state (m a x : Z) :
  Z.prime m -> 0 < a < m -> a * m <= 2 ^ 64 -> 0 <= x < m ->
  exists v : float,
    LinearCongruentialGenerator.getNext (LinearCongruentialGenerator.new m a 0 x)
    = Ret (v, LinearCongruentialGenerator.new m a 0 ((a * x) mod m))
    /\ (x = 0 -> (a * x) mod m = 0)
    /\ (0 < x -> 0 < (a * x) mod m < m).
Proof.
  intros Hp Ha Hw Hx.
  pose proof Hp as [Hm1 _].
  unfold LinearCongruentialGenerator.getNext.
  cbn [LinearCongruentialGenerator.m LinearCongruentialGenerator.a
       LinearCongruentialGenerator.c LinearCongruentialGenerator.x].
  rewrite linear_wrap, rem_positive by lia. cbn [bind].
  rewrite Z.add_0_r, wrap_small by (unfold U64.in_range, U64.modulus; nia).
  eexists. split; [reflexivity |]. split.
  - intros ->. rewrite Z.mul_0_r. apply Z.mod_0_l. lia.
  - intros Hx0.
    pose proof (Z.mod_pos_bound (a * x) m ltac:(lia)) as Hr.
    assert (Hnz : (a * x) mod m <> 0); [| lia].
    intros Hz. apply Z.mod_divide in Hz; [| lia].
    apply Z.divide_prime_mul in Hz; [| exact Hp].
    destruct Hz as [D | D]; apply Z.divide_pos_le in D; lia.
Qed.

(** The linear generator of [main] in the state its first call leaves for
    the seed 1. *)
Lemma linear_multiplicative_state_witness :
  exists v : float,
    LinearCongruentialGenerator.getNext
      (LinearCongruentialGenerator.new 2147483647 16807 0 16807)
    = Ret (v, LinearCongruentialGenerator.new 2147483647 16807 0
                ((16807 * 16807) mod 2147483647))
    /\ (16807 = 0 -> (16807 * 16807) mod 2147483647 = 0)
    /\ (0 < 16807 -> 0 < (16807 * 16807) mod 2147483647 < 2147483647).
Proof.
  apply (linear_multiplicative_state 2147483647 16807 16807);
    [exact prime_2147483647 | lia | lia | lia].
Defined.

(** ** The heap of generators *)

Lemma nth_error_update_eq {A : Type} (o o' : A) (l : list A) :
  forall p : nat, nth_error l p = Some o' -> nth_error (update p o l) p = Some o.
Proof.
  induction l as [| o'' l IH]; intros [| p]; simpl; try discriminate.
  - reflexivity.
  - apply IH.
Qed.

Lemma nth_error_update_neq {A : Type} (o : A) (l : list A) :
  forall p q : nat, p <> q -> nth_error (update p o l) q = nth_error l q.
Proof.
  induction l as [| o' l IH]; intros [| p] [| q] Hpq; simpl; try reflexivity.
  - contradiction.
  - apply IH. congruence.
Qed.

(** A call through a pointer to a [CombineMethodgenerator]. *)
Lemma getNext_combine (log : float -> float) (depth p : nat) (w : world)
      (g : CombineMethodgenerator.t) :
  nth_error (heap w) p = Some (Combine g) ->
  getNext log (S depth) p w
  = ('(x, w1) <- getNext log depth (CombineMethodgenerator.X g) w ;;
     '(y, w2) <- getNext log depth (CombineMethodgenerator.Y g) w1 ;;
     Ret (CombineMethodgenerator.combine x y, w2)).
Proof. intros H. cbn [getNext]. rewrite H. reflexivity. Qed.

(** ** The sampling loop *)

Lemma sample_loop_app (log : float -> float) (depth : nat) (p : nat) (n1 : nat) :
  forall (n2 : nat) (w : world) (randomValues : list float),
    sample_loop log depth (n1 + n2) p w randomValues
    = ('(values1, w1) <- sample_loop log depth n1 p w randomValues ;;
       sample_loop log depth n2 p w1 values1).
Proof.
  induction n1 as [| n1 IH]; intros n2 w randomValues.
  - reflexivity.
  - simpl. destruct (getNext log depth p w) as [[v w'] | f |]; simpl;
      [apply IH | reflexivity | reflexivity].
Qed.

(** The values already in the vector stay in front of those the loop adds. *)
Lemma sample_loop_acc (log : float -> float) (depth : nat) (p : nat) (n : nat) :
  forall (w : world) (randomValues : list float),
    sample_loop log depth n p w randomValues
    = ('(drawn, w') <- sample_loop log depth n p w [] ;;
       Ret (randomValues ++ drawn, w')).
Proof.
  induction n as [| n IH]; intros w randomValues.
  - simpl. rewrite app_nil_r. reflexivity.
  - simpl. destruct (getNext log depth p w) as [[v w1] | f |]; simpl;
      [| reflexivity | reflexivity].
    rewrite (IH w1 (randomValues ++ [v])), (IH w1 [v]).
    destruct (sample_loop log depth n p w1 []) as [[d w'] | f |]; simpl;
      [| reflexivity | reflexivity].
    rewrite <- app_assoc. reflexivity.
Qed.

Lemma seq_offset (d len : nat) :
  forall start : nat, map (fun k => (d + k)%nat) (seq start len) = seq (d + start) len.
Proof.
  induction len as [| len IH]; intros start; [reflexivity |].
  simpl. f_equal. rewrite IH. f_equal. lia.
Qed.

Lemma orbit_state_add (m a c : Z) (d k : nat) (x : Z) :
  Orbit.state m a c k (Orbit.state m a c d x) = Orbit.state m a c (d + k) x.
Proof.
  unfold Orbit.state. rewrite Nat.add_comm. symmetry. apply Nat.iter_add.
Qed.

(** The samples from the state the generator is in after [d] calls are the
    samples from [d + 1] on. *)
Lemma orbit_values_from (m a c x : Z) (d n : nat) :
  map (Orbit.value m a c (Orbit.state m a c d x)) (seq 1 n)
  = map (Orbit.value m a c x) (seq (d + 1) n).
Proof.
  rewrite <- seq_offset, map_map. apply map_ext. intros k.
  unfold Orbit.value. rewrite orbit_state_add. reflexivity.
Qed.

(** The sampling loop on a linear generator in the state [x]: the vector
    gets the samples 1 to [n] of the orbit of [x], and the generator is left
    in the state [n] of that orbit. *)
Lemma sample_loop_linear (log : float -> float) (depth p : nat) (m a c : Z) (n : nat) :
  0 < m ->
  forall (w : world) (x : Z) (randomValues : list float),
    nth_error (heap w) p = Some (Linear (LinearCongruentialGenerator.new m a c x)) ->
    exists w' : world,
      sample_loop log (S depth) n p w randomValues
      = Ret (randomValues ++ map (Orbit.value m a c x) (seq 1 n), w')
      /\ nth_error (heap w') p
         = Some (Linear (LinearCongruentialGenerator.new m a c (Orbit.state m a c n x))).
Proof.
  intros Hm. induction n as [| n IH]; intros w x randomValues Hp.
  - exists w. simpl. rewrite app_nil_r. split; [reflexivity | exact Hp].
  - cbn [sample_loop getNext]. rewrite Hp.
    unfold LinearCongruentialGenerator.getNext.
    cbn [LinearCongruentialGenerator.m LinearCongruentialGenerator.a
         LinearCongruentialGenerator.c LinearCongruentialGenerator.x].
    rewrite rem_positive by exact Hm. cbn [bind].
    fold (Orbit.next m a c x).
    destruct (IH (store p (Linear (LinearCongruentialGenerator.new
                                     m a c (Orbit.next m a c x))) w)
                (Orbit.next m a c x)
                (randomValues ++ [(Double.of_Z (Orbit.next m a c x) / Double.of_Z m)%float]))
      as (w' & E & Hp').
    { apply (nth_error_update_eq _ _ _ _ Hp). }
    exists w'. split.
    + rewrite E. f_equal. f_equal. rewrite <- app_assoc. f_equal.
      change (Orbit.next m a c x) with (Orbit.state m a c 1 x).
      rewrite (orbit_values_from m a c x 1 n).
      reflexivity.
    + rewrite Hp'. do 3 f_equal.
      change (Orbit.next m a c x) with (Orbit.state m a c 1 x).
      apply orbit_state_add.
Qed.

(** X6.  The generator keeps its state between the rounds of the menu.  On
    a linear generator in the state [x], a round of [n1] samples draws the
    samples 1 to [n1] of the orbit of [x] under [x = (a * x + c) % m] and
    leaves the generator in the state [n1] of the orbit; the next round, of
    [n2] samples, draws the samples [n1 + 1] to [n1 + n2], not the first
    ones again, and leaves the world one round of [n1 + n2] samples
    leaves. *)
Theorem sample_continues (log : float -> float) (depth : nat) (p : nat)
        (w : world) (m a c x n1 n2 : Z) :
  0 < m ->
  nth_error (heap w) p = Some (Linear (LinearCongruentialGenerator.new m a c x)) ->
  0 <= n1 -> 0 <= n2 ->
  exists w1 w2 : world,
    sample log (S depth) n1 p w
    = Ret (map (Orbit.value m a c x) (seq 1 (Z.to_nat n1)), w1)
    /\ nth_error (heap w1) p
       = Some (Linear (LinearCongruentialGenerator.new
                         m a c (Orbit.state m a c (Z.to_nat n1) x)))
    /\ sample log (S depth) n2 p w1
       = Ret (map (Orbit.value m a c x) (seq (Z.to_nat n1 + 1) (Z.to_nat n2)), w2)
    /\ nth_error (heap w2) p
       = Some (Linear (LinearCongruentialGenerator.new
                         m a c (Orbit.state m a c (Z.to_nat (n1 + n2)) x)))
    /\ sample log (S depth) (n1 + n2) p w
       = Ret (map (Orbit.value m a c x) (seq 1 (Z.to_nat (n1 + n2))), w2).
Proof.
  intros Hm Hp H1 H2. unfold sample.
  destruct (sample_loop_linear log depth p m a c (Z.to_nat n1) Hm w x [] Hp)
    as (w1 & E1 & Hp1).
  destruct (sample_loop_linear log depth p m a c (Z.to_nat n2) Hm w1 _ [] Hp1)
    as (w2 & E2 & Hp2).
  rewrite orbit_values_from in E2. rewrite orbit_state_add in Hp2.
  cbn [app] in E1, E2.
  exists w1, w2. rewrite Z2Nat.inj_add by assumption.
  split; [exact E1 |]. split; [exact Hp1 |]. split; [exact E2 |].
  split; [exact Hp2 |].
  rewrite sample_loop_app, E1. cbn [bind].
  rewrite sample_loop_acc, E2. cbn [bind].
  rewrite seq_app, map_app, (Nat.add_comm 1 (Z.to_nat n1)). reflexivity.
Qed.

(** The linear generator of [main], seed 1: two samples, then one more. *)
Lemma sample_continues_witness :
  exists w1 w2 : world,
    sample (fun s => s) 1 2 0 {| heap := generators 1; rand_stream := [] |}
    = Ret ([(Double.of_Z 16807 / Double.of_Z 2147483647)%float;
            (Double.of_Z 282475249 / Double.of_Z 2147483647)%float], w1)
    /\ nth_error (heap w1) 0
       = Some (Linear (LinearCongruentialGenerator.new 2147483647 16807 0 282475249))
    /\ sample (fun s => s) 1 1 0 w1
       = Ret ([(Double.of_Z 1622650073 / Double.of_Z 2147483647)%float], w2)
    /\ nth_error (heap w2) 0
       = Some (Linear (LinearCongruentialGenerator.new 2147483647 16807 0 1622650073))
    /\ sample (fun s => s) 1 (2 + 1) 0 {| heap := generators 1; rand_stream := [] |}
       = Ret ([(Double.of_Z 16807 / Double.of_Z 2147483647)%float;
               (Double.of_Z 282475249 / Double.of_Z 2147483647)%float;
               (Double.of_Z 1622650073 / Double.of_Z 2147483647)%float], w2).
Proof.
  apply (sample_continues (fun s => s) 0 0
           {| heap := generators 1; rand_stream := [] |} 2147483647 16807 0 1 2 1);
    [lia | reflexivity | lia | lia].
Defined.

(** ** The generators of [main] *)

Lemma generators_invariant (seed : Z) (stream : list Z) :
  U64.in_range seed ->
  Main.invariant {| heap := generators seed; rand_stream := stream |}.
Proof.
  intros Hs. unfold Main.invariant, generators, FibonacciGenerator.new. simpl heap.
  destruct (Z.eqb_spec seed 0) as [-> | Hn]; simpl negb; cbv iota.
  - exists 0, 0, 0, 1, 1, PolarCoordinateGenerator.new.
    repeat split; (reflexivity || u64_range).
  - exists seed, seed, seed, 1, 1, PolarCoordinateGenerator.new.
    unfold U64.in_range, U64.modulus in *.
    repeat split; (reflexivity || lia).
Qed.

Section MainGenerators.

Variable log : float -> float.

Lemma below_one (v : float) :
  (0 <=? v)%float = true -> (v <? 1)%float = true -> (v <=? 1)%float = true.
Proof.
  intros H0 H1. destruct (unit_interval v H0 H1) as [F B].
  rewrite (leb_ulps v 1 F eq_refl), ulps_one. apply Z.leb_le. lia.
Qed.

Lemma quotient_unit_interval (v : float) :
  Main.quotient v -> (0 <=? v)%float = true /\ (v <? 1)%float = true.
Proof.
  intros (x & Hx & ->). apply ratio_unit_interval; [exact Hx | lia].
Qed.

Lemma main_linear (depth : nat) (w : world) :
  Main.invariant w ->
  exists (v : float) (w' : world),
    getNext log (S depth) 0 w = Ret (v, w')
    /\ Main.invariant w' /\ rand_stream w' = rand_stream w
    /\ Main.quotient v.
Proof.
  intros H. main_heap H.
  unfold LinearCongruentialGenerator.getNext.
  cbn [LinearCongruentialGenerator.m LinearCongruentialGenerator.a
       LinearCongruentialGenerator.c LinearCongruentialGenerator.x].
  rewrite rem_positive by lia. cbn [bind].
  eexists _, _. split; [reflexivity |]. split; [| split; [reflexivity |]].
  - main_stored Hheap.
    eexists _, xq, x1, x2, xi, polar. split; [reflexivity |].
    repeat split; mod_range.
  - eexists. split; [| reflexivity]. mod_range.
Qed.

Lemma main_quadratic (depth : nat) (w : world) :
  Main.invariant w ->
  exists (v : float) (w' : world),
    getNext log (S depth) 1 w = Ret (v, w')
    /\ Main.invariant w' /\ rand_stream w' = rand_stream w
    /\ Main.quotient v.
Proof.
  intros H. main_heap H.
  unfold QuadraticCongruentialGenerator.getNext.
  cbn [QuadraticCongruentialGenerator.m QuadraticCongruentialGenerator.a
       QuadraticCongruentialGenerator.c QuadraticCongruentialGenerator.d
       QuadraticCongruentialGenerator.x].
  rewrite rem_positive by lia. cbn [bind].
  eexists _, _. split; [reflexivity |]. split; [| split; [reflexivity |]].
  - main_stored Hheap.
    eexists x, _, x1, x2, xi, polar. split; [reflexivity |].
    repeat split; mod_range.
  - eexists. split; [| reflexivity]. mod_range.
Qed.

Lemma main_fibonacci (depth : nat) (w : world) :
  Main.invariant w ->
  exists (v : float) (w' : world),
    getNext log (S depth) 2 w = Ret (v, w')
    /\ Main.invariant w' /\ rand_stream w' = rand_stream w
    /\ Main.quotient v.
Proof.
  intros H. main_heap H.
  unfold FibonacciGenerator.getNext.
  cbn [FibonacciGenerator.m FibonacciGenerator.x1 FibonacciGenerator.x2].
  rewrite rem_positive by lia. cbn [bind].
  eexists _, _. split; [reflexivity |]. split; [| split; [reflexivity |]].
  - main_stored Hheap.
    eexists x, xq, x2, _, xi, polar. split; [reflexivity |].
    repeat split; mod_range.
  - eexists. split; [| reflexivity]. mod_range.
Qed.

Lemma main_inverse (depth : nat) (w : world) :
  Main.invariant w ->
  exists (v : float) (w' : world),
    getNext log (S depth) 3 w = Ret (v, w')
    /\ Main.invariant w' /\ rand_stream w' = rand_stream w
    /\ Main.quotient v.
Proof.
  intros H. main_heap H.
  assert (Hinv : exists y,
             InverseCongruentialGenerator.modInverse xi 2147483647 = Ret y).
  { destruct (Z.eq_dec xi 0) as [-> | Hx0].
    - exists 1. reflexivity.
    - assert (Hg : Z.gcd xi 2147483647 = 1).
      { rewrite Z.gcd_comm.
        apply Z.coprime_prime_small; [exact prime_2147483647 | lia]. }
      destruct (modInverse_bezout xi 2147483647 ltac:(lia) ltac:(lia) Hg)
        as [X [HX _]].
      eauto. }
  destruct Hinv as [y Hy].
  unfold InverseCongruentialGenerator.getNext.
  cbn [InverseCongruentialGenerator.p InverseCongruentialGenerator.a
       InverseCongruentialGenerator.c InverseCongruentialGenerator.x].
  rewrite Hy. cbn [bind]. rewrite rem_positive by lia. cbn [bind].
  eexists _, _. split; [reflexivity |]. split; [| split; [reflexivity |]].
  - main_stored Hheap.
    eexists x, xq, x1, x2, _, polar. split; [reflexivity |].
    repeat split; mod_range.
  - eexists. split; [| reflexivity]. mod_range.
Qed.

(** One call to one of the generators 1 to 4 of the menu. *)
Lemma main_congruential (w : world) (p : nat) :
  Main.invariant w -> (p < 4)%nat ->
  exists (v : float) (w' : world),
    getNext log 2 p w = Ret (v, w')
    /\ Main.invariant w' /\ rand_stream w' = rand_stream w
    /\ Main.quotient v.
Proof.
  intros H Hp.
  assert (Hcases : (p = 0 \/ p = 1 \/ p = 2 \/ p = 3)%nat) by lia.
  destruct Hcases as [-> | [-> | [-> | ->]]].
  - apply main_linear. exact H.
  - apply main_quadratic. exact H.
  - apply main_fibonacci. exact H.
  - apply main_inverse. exact H.
Qed.

(** One call to one of the generators 1 to 5 of the menu. *)
Lemma main_getNext (w : world) (p : nat) :
  Main.invariant w -> (p < 5)%nat ->
  exists (v : float) (w' : world),
    getNext log 2 p w = Ret (v, w')
    /\ Main.invariant w' /\ rand_stream w' = rand_stream w
    /\ (0 <=? v)%float = true /\ (v <=? 1)%float = true
    /\ ((p < 4)%nat -> Main.quotient v).
Proof.
  intros H Hp.
  destruct (Nat.lt_ge_cases p 4) as [Hp4 | Hp4].
  - destruct (main_congruential w p H Hp4) as (v & w' & E & I & R & Q).
    destruct (quotient_unit_interval v Q) as [V0 V1].
    exists v, w'. repeat split; auto using below_one.
  - assert (p = 4%nat) by lia. subst p.
    destruct (main_linear 0 w H) as (x & w1 & E1 & I1 & R1 & Qx).
    destruct (main_quadratic 0 w1 I1) as (y & w2 & E2 & I2 & R2 & Qy).
    destruct (quotient_unit_interval x Qx) as [X0 X1].
    destruct (quotient_unit_interval y Qy) as [Y0 Y1].
    destruct (combine_range x y X0 X1 Y0 Y1) as (C0 & C1 & _).
    exists (CombineMethodgenerator.combine x y), w2.
    split.
    + destruct H as (a & b & c & d & e & f & Hheap & _).
      rewrite (getNext_combine log 1 4 w (CombineMethodgenerator.new 0 1))
        by (rewrite Hheap; reflexivity).
      cbn [CombineMethodgenerator.X CombineMethodgenerator.Y].
      rewrite E1. cbn [bind]. rewrite E2. reflexivity.
    + repeat split; auto; try congruence. lia.
Qed.

(** The vector filled by the sampling loop. *)
Lemma main_sample_loop (p : nat) (n : nat) :
  (p < 5)%nat ->
  forall (w : world) (randomValues : list float),
    Main.invariant w ->
    Forall (fun v => (0 <=? v)%float = true /\ (v <=? 1)%float = true
                     /\ ((p < 4)%nat -> Main.quotient v)) randomValues ->
    exists (values : list float) (w' : world),
      sample_loop log 2 n p w randomValues = Ret (values, w')
      /\ Main.invariant w' /\ rand_stream w' = rand_stream w
      /\ length values = (length randomValues + n)%nat
      /\ Forall (fun v => (0 <=? v)%float = true /\ (v <=? 1)%float = true
                          /\ ((p < 4)%nat -> Main.quotient v)) values.
Proof.
  intros Hp. induction n as [| n IH]; intros w randomValues Hw Hvs.
  - exists randomValues, w. repeat split; auto.
  - destruct (main_getNext w p Hw Hp) as (v & w1 & E & I & R & V0 & V1 & V2).
    destruct (IH w1 (randomValues ++ [v]) I) as (values & w' & E' & I' & R' & L & F).
    { apply Forall_app. split; [exact Hvs |]. constructor; [| constructor]. auto. }
    exists values, w'. cbn [sample_loop]. rewrite E. cbn [bind].
    split; [exact E' |]. split; [exact I' |]. split; [congruence |].
    split; [| exact F]. rewrite L, length_app. simpl. lia.
Qed.

End MainGenerators.

(** X7.  The generators 1 to 5 of [main] never fault and stay within [0, 1]:
    the objects [main] builds satisfy [Main.invariant] whatever the seed,
    and from a world that satisfies it the sampling loop on any of its first
    five generators runs to its end, for every [n]; it leaves a world that
    satisfies the invariant, takes no draw from [std::rand], and fills the
    vector with [n] doubles (none when [n <= 0]) of [0, 1], of [0, 1) for
    the generators 1 to 4. *)
Theorem main_samples_unit_interval (log : float -> float) :
  (forall (seed : Z) (stream : list Z),
      U64.in_range seed ->
      Main.invariant {| heap := generators seed; rand_stream := stream |})
  /\ (forall (w : world) (p : nat) (n : Z),
         Main.invariant w -> (p < 5)%nat ->
         exists (randomValues : list float) (w' : world),
           sample log 2 n p w = Ret (randomValues, w')
           /\ Main.invariant w' /\ rand_stream w' = rand_stream w
           /\ length randomValues = Z.to_nat n
           /\ Forall (fun v => (0 <=? v)%float = true /\ (v <=? 1)%float = true)
                     randomValues
           /\ ((p < 4)%nat ->
               Forall (fun v => (v <? 1)%float = true) randomValues)).
Proof.
  split; [intros seed stream; apply generators_invariant |].
  intros w p n Hw Hp.
  destruct (main_sample_loop log p (Z.to_nat n) Hp w [] Hw (Forall_nil _))
    as (values & w' & E & I & R & L & F).
  exists values, w'. unfold sample.
  split; [exact E |]. split; [exact I |]. split; [exact R |].
  split; [exact L |]. split.
  - eapply Forall_impl; [| exact F]. cbv beta. intros v (V0 & V1 & _). auto.
  - intros Hp4. eapply Forall_impl; [| exact F]. cbv beta. intros v (_ & _ & Q).
    apply quotient_unit_interval. auto.
Qed.

(** ** Shared generators *)

(** A call to a congruential generator changes the object it is called on
    and nothing else, and depends on nothing else. *)
Lemma getNext_congruential (log : float -> float) (depth q : nat) (w w1 : world)
      (o : Generator) (x : float) :
  nth_error (heap w) q = Some o -> congruential o = true ->
  getNext log (S depth) q w = Ret (x, w1) ->
  exists o' : Generator,
    w1 = store q o' w
    /\ forall w0 : world,
        nth_error (heap w0) q = Some o ->
        getNext log (S depth) q w0 = Ret (x, store q o' w0).
Proof.
  intros Hq Hc H. cbn [getNext] in H. rewrite Hq in H.
  destruct o as [g | g | g | g | g | g | g]; try discriminate.
  - destruct (LinearCongruentialGenerator.getNext g) as [[v g'] | f |] eqn:E;
      try discriminate.
    injection H as <- <-. exists (Linear g'). split; [reflexivity |].
    intros w0 H0. cbn [getNext]. rewrite H0, E. reflexivity.
  - destruct (QuadraticCongruentialGenerator.getNext g) as [[v g'] | f |] eqn:E;
      try discriminate.
    injection H as <- <-. exists (Quadratic g'). split; [reflexivity |].
    intros w0 H0. cbn [getNext]. rewrite H0, E. reflexivity.
  - destruct (FibonacciGenerator.getNext g) as [[v g'] | f |] eqn:E;
      try discriminate.
    injection H as <- <-. exists (Fibonacci g'). split; [reflexivity |].
    intros w0 H0. cbn [getNext]. rewrite H0, E. reflexivity.
  - destruct (InverseCongruentialGenerator.getNext g) as [[v g'] | f |] eqn:E;
      try discriminate.
    injection H as <- <-. exists (Inverse g'). split; [reflexivity |].
    intros w0 H0. cbn [getNext]. rewrite H0, E. reflexivity.
Qed.

(** X8.  A combined generator has no state of its own: it holds pointers, and a
    call to it advances the two generators it points at.  When these are two
    distinct congruential generators, the call returns the combination of
    the samples a direct call to each would have returned, and leaves each of
    them in the state that direct call would have left; no other object
    changes, and no draw is taken from [std::rand]. *)
Theorem combine_advances_shared (log : float -> float) (depth p : nat)
        (w w' : world) (g : CombineMethodgenerator.t) (v : float) :
  nth_error (heap w) p = Some (Combine g) ->
  CombineMethodgenerator.X g <> CombineMethodgenerator.Y g ->
  congruential_at w (CombineMethodgenerator.X g) = true ->
  congruential_at w (CombineMethodgenerator.Y g) = true ->
  getNext log (S (S depth)) p w = Ret (v, w') ->
  exists (x y : float) (wx wy : world),
    getNext log (S depth) (CombineMethodgenerator.X g) w = Ret (x, wx)
    /\ getNext log (S depth) (CombineMethodgenerator.Y g) w = Ret (y, wy)
    /\ v = CombineMethodgenerator.combine x y
    /\ nth_error (heap w') (CombineMethodgenerator.X g)
       = nth_error (heap wx) (CombineMethodgenerator.X g)
    /\ nth_error (heap w') (CombineMethodgenerator.Y g)
       = nth_error (heap wy) (CombineMethodgenerator.Y g)
    /\ (forall q : nat,
           q <> CombineMethodgenerator.X g -> q <> CombineMethodgenerator.Y g ->
           nth_error (heap w') q = nth_error (heap w) q)
    /\ rand_stream w' = rand_stream w.
Proof.
  intros Hp Hne HX HY H.
  set (X := CombineMethodgenerator.X g) in *.
  set (Y := CombineMethodgenerator.Y g) in *.
  unfold congruential_at in HX, HY.
  destruct (nth_error (heap w) X) as [ox |] eqn:EX; [| discriminate].
  destruct (nth_error (heap w) Y) as [oy |] eqn:EY; [| discriminate].
  rewrite (getNext_combine log (S depth) p w g Hp) in H. fold X Y in H.
  apply bind_Ret in H. destruct H as [[x w1] [H1 H]].
  apply bind_Ret in H. destruct H as [[y w2] [H2 H]].
  injection H as <- <-.
  destruct (getNext_congruential log depth X w w1 ox x EX HX H1) as [ox' [E1 _]].
  assert (EY1 : nth_error (heap w1) Y = Some oy).
  { rewrite E1. unfold store. cbn [heap].
    rewrite nth_error_update_neq by exact Hne. exact EY. }
  destruct (getNext_congruential log depth Y w1 w2 oy y EY1 HY H2) as [oy' [E2 F2]].
  exists x, y, w1, (store Y oy' w).
  split; [exact H1 |]. split; [apply F2; exact EY |]. split; [reflexivity |].
  rewrite E2, E1. unfold store. cbn [heap rand_stream].
  split; [| split; [| split; [| reflexivity]]].
  - apply nth_error_update_neq. congruence.
  - rewrite (nth_error_update_eq oy' oy), (nth_error_update_eq oy' oy);
      [reflexivity | exact EY |].
    rewrite nth_error_update_neq by exact Hne. exact EY.
  - intros q HqX HqY. rewrite !nth_error_update_neq by congruence. reflexivity.
Qed.

(** The combined generator of [main] (address 4, over the generators at
    addresses 0 and 1) on its first call, for the seed 1700000000. *)
Lemma combine_advances_shared_witness :
  exists (x y : float) (wx wy : world),
    getNext (fun s => s) 1 0 {| heap := generators 1700000000; rand_stream := [] |}
    = Ret (x, wx)
    /\ getNext (fun s => s) 1 1 {| heap := generators 1700000000; rand_stream := [] |}
       = Ret (y, wy)
    /\ CombineMethodgenerator.combine
         (Double.of_Z 1777560312 / Double.of_Z 2147483647)
         (Double.of_Z 1875502639 / Double.of_Z 2147483647)
       = CombineMethodgenerator.combine x y
    /\ nth_error
         (heap (store 1 (Quadratic
                           (QuadraticCongruentialGenerator.new
                              2147483647 40014 0 53668 1875502639))
                  (store 0 (Linear
                              (LinearCongruentialGenerator.new
                                 2147483647 16807 0 1777560312))
                     {| heap := generators 1700000000; rand_stream := [] |}))) 0
       = nth_error (heap wx) 0
    /\ nth_error
         (heap (store 1 (Quadratic
                           (QuadraticCongruentialGenerator.new
                              2147483647 40014 0 53668 1875502639))
                  (store 0 (Linear
                              (LinearCongruentialGenerator.new
                                 2147483647 16807 0 1777560312))
                     {| heap := generators 1700000000; rand_stream := [] |}))) 1
       = nth_error (heap wy) 1
    /\ (forall q : nat,
           q <> 0%nat -> q <> 1%nat ->
           nth_error
             (heap (store 1 (Quadratic
                               (QuadraticCongruentialGenerator.new
                                  2147483647 40014 0 53668 1875502639))
                      (store 0 (Linear
                                  (LinearCongruentialGenerator.new
                                     2147483647 16807 0 1777560312))
                         {| heap := generators 1700000000; rand_stream := [] |}))) q
           = nth_error (generators 1700000000) q)
    /\ rand_stream
         (store 1 (Quadratic
                     (QuadraticCongruentialGenerator.new
                        2147483647 40014 0 53668 1875502639))
            (store 0 (Linear
                        (LinearCongruentialGenerator.new
                           2147483647 16807 0 1777560312))
               {| heap := generators 1700000000; rand_stream := [] |}))
       = [].
Proof.
  apply (combine_advances_shared (fun s => s) 0 4
           {| heap := generators 1700000000; rand_stream := [] |}
           (store 1 (Quadratic
                       (QuadraticCongruentialGenerator.new
                          2147483647 40014 0 53668 1875502639))
              (store 0 (Linear
                          (LinearCongruentialGenerator.new
                             2147483647 16807 0 1777560312))
                 {| heap := generators 1700000000; rand_stream := [] |}))
           (CombineMethodgenerator.new 0 1)
           (CombineMethodgenerator.combine
              (Double.of_Z 1777560312 / Double.of_Z 2147483647)
              (Double.of_Z 1875502639 / Double.of_Z 2147483647)));
    [reflexivity | discriminate | reflexivity | reflexivity
     | vm_compute; reflexivity].
Defined.

(** ** Exact products *)



(** ** Integers as doubles *)

Lemma ulps_of_Z (z : Z) :
  0 <= z < 2 ^ 53 ->
  nonneg_SF (Prim2SF (Double.of_Z z))
  /\ ulps (Prim2SF (Double.of_Z z)) = z * 2 ^ 1074.
Proof.
  intros Hz. destruct (Z.eq_dec z 0) as [-> | Hz0].
  - rewrite of_Z_zero. repeat split; discriminate.
  - destruct (of_Z_small z ltac:(lia)) as [m [e [Hf [He [Hm Hv]]]]].
    pose proof (Prim2SF_valid (Double.of_Z z)) as V. rewrite Hf in V |- *.
    assert (E : ulps (S754_finite false m e) = z * 2 ^ 1074).
    { unfold ulps, cond_Zopp. rewrite Hv, <- Z.mul_assoc. f_equal.
      rewrite <- pow2_split by lia. f_equal. lia. }
    split; [| exact E]. split; [exact V |]. split; [reflexivity |].
    rewrite E. pose proof (pow2_gt0 1074 ltac:(lia)). nia.
Qed.

(** ** Three-sigma generator *)









(** ** Signs *)

Import Sign.

(** A rounding with the sign bit clear gives no negative number. *)
Lemma not_negative_round (m e : Z) (l : location) :
  not_negative (binary_round_aux prec emax false m e l) = true.
Proof.
  unfold binary_round_aux.
  destruct (shr_fexp prec emax m e l) as [mrs e'].
  destruct (shr_fexp prec emax _ e' loc_Exact) as [mrs' e''].
  destruct (shr_m mrs'); [reflexivity | | reflexivity].
  destruct (e'' <=? emax - prec); reflexivity.
Qed.

Lemma not_negative_of_Z (r : Z) :
  0 <= r < 2 ^ 53 -> not_negative (Prim2SF (Double.of_Z r)) = true.
Proof.
  intros Hr. destruct (Z.eq_dec r 0) as [-> | Hn]; [reflexivity |].
  destruct (of_Z_small r ltac:(lia)) as [m [e [Hf _]]].
  rewrite Hf. reflexivity.
Qed.

Lemma SFmul_not_negative (x y : spec_float) :
  not_negative x = true -> not_negative y = true ->
  not_negative (SF64mul x y) = true.
Proof.
  intros Hx Hy.
  destruct x as [sx | sx | | sx mx ex]; destruct y as [sy | sy | | sy my ey];
    try reflexivity; simpl in Hx, Hy;
    try (apply negb_true_iff in Hx; subst sx);
    try (apply negb_true_iff in Hy; subst sy);
    try reflexivity.
  apply not_negative_round.
Qed.

(** Division by a positive finite number. *)
Lemma SFdiv_not_negative (x : spec_float) (my : positive) (ey : Z) :
  not_negative x = true ->
  not_negative (SF64div x (S754_finite false my ey)) = true.
Proof.
  intros Hx.
  destruct x as [sx | sx | | sx mx ex]; try reflexivity; simpl in Hx;
    try (apply negb_true_iff in Hx; subst sx); try reflexivity.
  unfold SF64div, SFdiv.
  destruct (SFdiv_core_binary prec emax (Zpos mx) ex (Zpos my) ey) as [[mz ez] lz].
  apply not_negative_round.
Qed.

Lemma SFsqrt_not_negative (x : spec_float) : not_negative (SF64sqrt x) = true.
Proof.
  destruct x as [sx | sx | | sx mx ex]; try reflexivity.
  - destruct sx; reflexivity.
  - destruct sx; [reflexivity |]. unfold SF64sqrt, SFsqrt.
    destruct (SFsqrt_core_binary prec emax (Zpos mx) ex) as [[mz ez] lz].
    apply not_negative_round.
Qed.

Lemma not_negative_ltb (x : float) :
  not_negative (Prim2SF x) = true -> (x <? 0)%float = false.
Proof.
  rewrite ltb_spec. change (Prim2SF 0) with (S754_zero false).
  destruct (Prim2SF x) as [s | s | | s m e]; simpl; intros H;
    try (apply negb_true_iff in H; subst s); reflexivity.
Qed.

Lemma positive_not_negative (x : float) :
  (0 <? x)%float = true -> not_negative (Prim2SF x) = true.
Proof.
  rewrite ltb_spec. change (Prim2SF 0) with (S754_zero false).
  destruct (Prim2SF x) as [s | s | | s m e]; try reflexivity;
    destruct s; simpl; (discriminate || reflexivity).
Qed.

(** ** Polar generator *)

(** [2.0 * static_cast<double>(std::rand()) / 2147483647] is never negative. *)
Lemma scaled_not_negative (r : Z) :
  0 <= r <= RAND_MAX ->
  not_negative (Prim2SF (PolarCoordinateGenerator.scaled r)) = true.
Proof.
  unfold RAND_MAX. intros Hr. unfold PolarCoordinateGenerator.scaled.
  rewrite div_spec.
  change (Prim2SF (Double.of_Z 2147483647))
    with (S754_finite false 9007199250546688 (-22)).
  apply SFdiv_not_negative. rewrite mul_spec.
  apply SFmul_not_negative; [reflexivity |].
  apply not_negative_of_Z. lia.
Qed.

(** The pair the rejection loop stops on is made from two of the draws. *)
Lemma rejection_loop_draws (n : nat) :
  forall (stream rest : list Z) (v1 v2 s : float),
    (length stream <= n)%nat ->
    PolarCoordinateGenerator.rejection_loop stream = Ret (v1, v2, s, rest) ->
    exists r1 r2 : Z,
      In r1 stream /\ In r2 stream
      /\ v1 = PolarCoordinateGenerator.scaled r1
      /\ v2 = PolarCoordinateGenerator.scaled r2.
Proof.
  induction n as [| n IH]; intros stream rest v1 v2 s Hlen H.
  - destruct stream; [discriminate | simpl in Hlen; lia].
  - destruct stream as [| r1 [| r2 stream']]; try discriminate.
    simpl in H.
    destruct (1 <=? _)%float.
    + apply IH in H; [| simpl in Hlen; lia].
      destruct H as (q1 & q2 & I1 & I2 & E1 & E2).
      exists q1, q2. simpl. auto.
    + injection H as <- <- _ _. exists r1, r2. simpl. auto.
Qed.

(** X10.  The polar generator never returns a negative number: the uniforms it
    draws are not negative ([2.0 * rand() / 2147483647], with no 1 taken
    off), so neither is their product with a square root, whatever
    [std::log] returns; and a cached value is returned only when it is
    above 0. *)
Theorem polar_never_negative (log : float -> float)
        (g g' : PolarCoordinateGenerator.t) (stream rest : list Z) (x : float) :
  Forall (fun r => 0 <= r <= RAND_MAX) stream ->
  PolarCoordinateGenerator.getNext log g stream = Ret (x, g', rest) ->
  (x <? 0)%float = false.
Proof.
  intros Hall H. apply not_negative_ltb.
  unfold PolarCoordinateGenerator.getNext in H.
  destruct (0 <? PolarCoordinateGenerator.last g)%float eqn:Hpending.
  - injection H as <- _ _. apply positive_not_negative. exact Hpending.
  - destruct (PolarCoordinateGenerator.rejection_loop stream)
      as [[[[v1 v2] s] stream'] | f |] eqn:Hloop; try discriminate.
    simpl in H. injection H as <- _ _.
    destruct (rejection_loop_draws (length stream) _ _ _ _ _ (le_n _) Hloop)
      as (r1 & r2 & I1 & _ & -> & _).
    rewrite Forall_forall in Hall.
    rewrite mul_spec. apply SFmul_not_negative.
    + apply scaled_not_negative. apply Hall. exact I1.
    + unfold PolarCoordinateGenerator.factor. rewrite sqrt_spec.
      apply SFsqrt_not_negative.
Qed.

(** A fresh pair from the draws 1 and 1, with a [log] that returns -1. *)
Lemma polar_never_negative_witness :
  ((PolarCoordinateGenerator.scaled 1
    * PolarCoordinateGenerator.factor
        (fun _ => (-1)%float)
        (PolarCoordinateGenerator.scaled 1 * PolarCoordinateGenerator.scaled 1
         + PolarCoordinateGenerator.scaled 1 * PolarCoordinateGenerator.scaled 1))
   <? 0)%float = false.
Proof.
  apply (polar_never_negative
           (fun _ => (-1)%float) PolarCoordinateGenerator.new
           (PolarCoordinateGenerator.mk
              (PolarCoordinateGenerator.scaled 1
               * PolarCoordinateGenerator.factor
                   (fun _ => (-1)%float)
                   (PolarCoordinateGenerator.scaled 1 * PolarCoordinateGenerator.scaled 1
                    + PolarCoordinateGenerator.scaled 1
                      * PolarCoordinateGenerator.scaled 1)))
           [1; 1] []).
  - repeat constructor; unfold RAND_MAX; lia.
  - vm_compute. reflexivity.
Defined.

(** ** Samples the counting loop passes over *)

Lemma tally_out_of_range (minRange maxRange intervalSize : float)
      (frequencyIntervals : list Z) (randomValue : float) :
  Histogram.in_range minRange maxRange randomValue = false ->
  Histogram.tally minRange maxRange intervalSize frequencyIntervals randomValue
  = Ret frequencyIntervals.
Proof. intros H. unfold Histogram.tally. rewrite H. reflexivity. Qed.

Lemma tally_all_filter (minRange maxRange intervalSize : float)
      (randomValues : list float) :
  forall frequencyIntervals : list Z,
    Histogram.tally_all minRange maxRange intervalSize frequencyIntervals
      (filter (Histogram.in_range minRange maxRange) randomValues)
    = Histogram.tally_all minRange maxRange intervalSize frequencyIntervals
        randomValues.
Proof.
  induction randomValues as [| v rest IH]; intros acc; [reflexivity |].
  cbn [filter].
  destruct (Histogram.in_range minRange maxRange v) eqn:Hv.
  - cbn [Histogram.tally_all].
    destruct (Histogram.tally minRange maxRange intervalSize acc v);
      simpl; [apply IH | reflexivity | reflexivity].
  - cbn [Histogram.tally_all]. rewrite tally_out_of_range by exact Hv.
    simpl. apply IH.
Qed.

(** X11.  The samples outside [minRange, maxRange] have no part in the counts:
    the counting loop of [histogram] ends as it does on the samples within
    the range alone, with the same counts or on the same fault.  (They do
    count in the number of samples the frequencies are divided by.) *)
Theorem counts_of_samples_in_range (randomValues : list float)
        (minRange maxRange : float) (numIntervals : Z) :
  Histogram.counts (filter (Histogram.in_range minRange maxRange) randomValues)
    minRange maxRange numIntervals
  = Histogram.counts randomValues minRange maxRange numIntervals.
Proof.
  unfold Histogram.counts.
  destruct (numIntervals <? 0); [reflexivity | apply tally_all_filter].
Qed.

Lemma in_range_nan (minRange maxRange : float) :
  Histogram.in_range minRange maxRange nan = false.
Proof.
  unfold Histogram.in_range. rewrite !leb_spec.
  change (Prim2SF nan) with S754_nan.
  destruct (Prim2SF minRange) as [s | s | | s m e]; reflexivity.
Qed.

(** X12.  A NaN sample (the polar generator can return one) is in no range: both
    comparisons of the range test are false.  [histogram] casts it to no
    index and counts it in no bin; it ends as it does without the sample,
    up to the number of samples the frequencies are divided by. *)
Theorem counts_ignore_nan (before after : list float)
        (minRange maxRange : float) (numIntervals : Z) :
  Histogram.in_range minRange maxRange nan = false
  /\ Histogram.counts (before ++ nan :: after) minRange maxRange numIntervals
     = Histogram.counts (before ++ after) minRange maxRange numIntervals.
Proof.
  split; [apply in_range_nan |].
  unfold Histogram.counts. destruct (numIntervals <? 0); [reflexivity |].
  rewrite <- (tally_all_filter _ _ _ (before ++ nan :: after)),
    <- (tally_all_filter _ _ _ (before ++ after)).
  rewrite !filter_app. cbn [filter]. rewrite in_range_nan. reflexivity.
Qed.

(** ** No bins, no samples *)

Lemma to_int_result (f : float) :
  (exists i : Z, Double.to_int f = Ret i) \/ Double.to_int f = Fault CastOutOfRange.
Proof.
  unfold Double.to_int. destruct (Double.truncate f) as [z |]; [| right; reflexivity].
  destruct ((Double.INT_MIN <=? z) && (z <=? Double.INT_MAX));
    [left; eauto | right; reflexivity].
Qed.

Lemma tally_all_no_bins (minRange maxRange intervalSize : float)
      (randomValues : list float) :
  if existsb (Histogram.in_range minRange maxRange) randomValues
  then exists f : fault,
      Histogram.tally_all minRange maxRange intervalSize [] randomValues = Fault f
  else Histogram.tally_all minRange maxRange intervalSize [] randomValues = Ret [].
Proof.
  induction randomValues as [| v rest IH]; [reflexivity |].
  cbn [existsb Histogram.tally_all]. unfold Histogram.tally.
  destruct (Histogram.in_range minRange maxRange v); cbn [orb].
  - destruct (to_int_result ((v - minRange) / intervalSize)) as [[i E] | E];
      rewrite E; cbn [bind].
    + unfold Histogram.increment_at.
      destruct (i <? 0); [exists OutOfBounds; reflexivity |].
      destruct (Z.to_nat i); exists OutOfBounds; reflexivity.
    + exists CastOutOfRange. reflexivity.
  - cbn [bind]. exact IH.
Qed.

(** X13.  With [numIntervals = 0] the vector of bins is empty and any index is
    outside it: [histogram] runs to its end (and prints the header alone)
    only when no sample is within the range; one sample within the range
    and the call is undefined. *)
Theorem histogram_no_bins (randomValues : list float) (minRange maxRange : float) :
  if existsb (Histogram.in_range minRange maxRange) randomValues
  then exists f : fault,
      Histogram.histogram randomValues minRange maxRange 0 = Fault f
  else Histogram.histogram randomValues minRange maxRange 0 = Ret [].
Proof.
  pose proof (tally_all_no_bins minRange maxRange
                ((maxRange - minRange) / Double.of_Z 0)%float randomValues) as H.
  unfold Histogram.histogram, Histogram.counts.
  change (0 <? 0) with false. cbv iota. change (repeat 0 (Z.to_nat 0)) with (@nil Z).
  destruct (existsb (Histogram.in_range minRange maxRange) randomValues).
  - destruct H as [f H]. exists f. rewrite H. reflexivity.
  - rewrite H. reflexivity.
Qed.

Lemma lines_length (minRange intervalSize : float) (size : Z)
      (frequencyIntervals : list Z) :
  forall i : Z,
    length (Histogram.lines minRange intervalSize size i frequencyIntervals)
    = length frequencyIntervals.
Proof.
  induction frequencyIntervals as [| c rest IH]; intros i; simpl;
    [reflexivity | rewrite IH; reflexivity].
Qed.

Lemma lines_no_samples (minRange intervalSize : float) (k : nat) :
  forall i : Z,
    Forall (fun r => Histogram.frequency r = nan)
           (Histogram.lines minRange intervalSize 0 i (repeat 0 k)).
Proof.
  induction k as [| k IH]; intros i; simpl; constructor.
  - reflexivity.
  - apply IH.
Qed.

(** X14.  With no sample at all ([main] passes an empty vector when the number of
    values asked for is 0 or less), [histogram] prints its [numIntervals]
    lines, and the frequency of each is [0 / 0.0], NaN. *)
Theorem histogram_no_samples (minRange maxRange : float) (numIntervals : Z) :
  0 <= numIntervals ->
  exists rows : list Histogram.row,
    Histogram.histogram [] minRange maxRange numIntervals = Ret rows
    /\ length rows = Z.to_nat numIntervals
    /\ Forall (fun r => Histogram.frequency r = nan) rows.
Proof.
  intros Hn. unfold Histogram.histogram, Histogram.counts.
  destruct (Z.ltb_spec numIntervals 0); [lia |].
  cbn [Histogram.tally_all bind length]. eexists. split; [reflexivity |].
  split.
  - rewrite lines_length. apply repeat_length.
  - apply lines_no_samples.
Qed.

Lemma histogram_no_samples_witness :
  exists rows : list Histogram.row,
    Histogram.histogram [] 0 1 3 = Ret rows
    /\ length rows = Z.to_nat 3
    /\ Forall (fun r => Histogram.frequency r = nan) rows.
Proof. apply (histogram_no_samples 0 1 3). lia. Defined.

(** ** The printed intervals *)

Lemma lines_adjacent (minRange intervalSize : float) (size : Z)
      (frequencyIntervals : list Z) (d : Histogram.row) :
  forall (i : Z) (k : nat),
    (S k < length frequencyIntervals)%nat ->
    Histogram.stop
      (nth k (Histogram.lines minRange intervalSize size i frequencyIntervals) d)
    = Histogram.start
        (nth (S k) (Histogram.lines minRange intervalSize size i frequencyIntervals) d).
Proof.
  induction frequencyIntervals as [| c rest IH]; intros i k Hk.
  - simpl in Hk. lia.
  - destruct rest as [| c' rest']; [simpl in Hk; lia |].
    destruct k as [| k].
    + reflexivity.
    + change (nth (S k) (Histogram.lines minRange intervalSize size i (c :: c' :: rest')) d)
        with (nth k (Histogram.lines minRange intervalSize size (i + 1) (c' :: rest')) d).
      change (nth (S (S k)) (Histogram.lines minRange intervalSize size i (c :: c' :: rest')) d)
        with (nth (S k) (Histogram.lines minRange intervalSize size (i + 1) (c' :: rest')) d).
      apply IH. simpl in Hk |- *. lia.
Qed.

(** X15.  The intervals [histogram] prints are adjacent: there is one line per
    bin, and the end printed on a line is the start printed on the next,
    both being [minRange + (i + 1) * intervalSize] computed alike. *)
Theorem histogram_rows_adjacent (randomValues : list float)
        (minRange maxRange : float) (numIntervals : Z)
        (rows : list Histogram.row) (d : Histogram.row) :
  Histogram.histogram randomValues minRange maxRange numIntervals = Ret rows ->
  length rows = Z.to_nat numIntervals
  /\ forall k : nat,
      (S k < length rows)%nat ->
      Histogram.stop (nth k rows d) = Histogram.start (nth (S k) rows d).
Proof.
  intros H. unfold Histogram.histogram in H.
  apply bind_Ret in H. destruct H as [cs [Hcounts Hrows]].
  injection Hrows as <-.
  destruct (counts_spec _ _ _ _ _ Hcounts) as [Hlen _].
  rewrite lines_length. split; [exact Hlen |].
  intros k Hk. apply lines_adjacent. exact Hk.
Qed.

Lemma histogram_rows_adjacent_witness :
  length [Histogram.Build_row 0 0.25 0; Histogram.Build_row 0.25 0.5 0.25;
          Histogram.Build_row 0.5 0.75 0.25; Histogram.Build_row 0.75 1 0.25]
  = Z.to_nat 4
  /\ forall k : nat,
      (S k < length [Histogram.Build_row 0 0.25 0; Histogram.Build_row 0.25 0.5 0.25;
                     Histogram.Build_row 0.5 0.75 0.25; Histogram.Build_row 0.75 1 0.25])%nat ->
      Histogram.stop
        (nth k [Histogram.Build_row 0 0.25 0; Histogram.Build_row 0.25 0.5 0.25;
                Histogram.Build_row 0.5 0.75 0.25; Histogram.Build_row 0.75 1 0.25]
             (Histogram.Build_row 0 0 0))
      = Histogram.start
          (nth (S k) [Histogram.Build_row 0 0.25 0; Histogram.Build_row 0.25 0.5 0.25;
                      Histogram.Build_row 0.5 0.75 0.25; Histogram.Build_row 0.75 1 0.25]
               (Histogram.Build_row 0 0 0)).
Proof.
  apply (histogram_rows_adjacent [0.25; 0.5; 2; 0.75]%float 0 1 4).
  vm_compute. reflexivity.
Defined.

(** ** The order of the samples *)

Lemma increment_swap (frequencyIntervals : list Z) :
  forall (i j : nat) (l1 l2 : list Z),
    Histogram.increment frequencyIntervals i = Ret l1 ->
    Histogram.increment l1 j = Ret l2 ->
    exists l1' : list Z,
      Histogram.increment frequencyIntervals j = Ret l1'
      /\ Histogram.increment l1' i = Ret l2.
Proof.
  induction frequencyIntervals as [| n rest IH]; intros i j l1 l2 H1 H2.
  - destruct i; discriminate.
  - destruct i as [| i]; destruct j as [| j]; simpl in H1.
    + exists l1. auto.
    + destruct (n =? Double.INT_MAX) eqn:En; [discriminate |].
      injection H1 as <-. simpl in H2.
      apply bind_Ret in H2. destruct H2 as [rest' [Hr H2]]. injection H2 as <-.
      exists (n :: rest'). simpl. rewrite Hr, En. split; reflexivity.
    + apply bind_Ret in H1. destruct H1 as [rest1 [Hr H1]]. injection H1 as <-.
      simpl in H2. destruct (n =? Double.INT_MAX) eqn:En; [discriminate |].
      injection H2 as <-.
      exists ((n + 1) :: rest). simpl. rewrite Hr, En. split; reflexivity.
    + apply bind_Ret in H1. destruct H1 as [rest1 [Hr1 H1]]. injection H1 as <-.
      simpl in H2.
      apply bind_Ret in H2. destruct H2 as [rest2 [Hr2 H2]]. injection H2 as <-.
      destruct (IH i j rest1 rest2 Hr1 Hr2) as [rest1' [Ha Hb]].
      exists (n :: rest1'). simpl. rewrite Ha. simpl. rewrite Hb. split; reflexivity.
Qed.

Lemma increment_at_swap (frequencyIntervals : list Z) (i j : Z) (l1 l2 : list Z) :
  Histogram.increment_at frequencyIntervals i = Ret l1 ->
  Histogram.increment_at l1 j = Ret l2 ->
  exists l1' : list Z,
    Histogram.increment_at frequencyIntervals j = Ret l1'
    /\ Histogram.increment_at l1' i = Ret l2.
Proof.
  unfold Histogram.increment_at.
  destruct (i <? 0); [discriminate |]. destruct (j <? 0); [discriminate |].
  apply increment_swap.
Qed.

Lemma tally_swap (minRange maxRange intervalSize : float)
      (frequencyIntervals : list Z) (x y : float) (l1 l2 : list Z) :
  Histogram.tally minRange maxRange intervalSize frequencyIntervals x = Ret l1 ->
  Histogram.tally minRange maxRange intervalSize l1 y = Ret l2 ->
  exists l1' : list Z,
    Histogram.tally minRange maxRange intervalSize frequencyIntervals y = Ret l1'
    /\ Histogram.tally minRange maxRange intervalSize l1' x = Ret l2.
Proof.
  unfold Histogram.tally.
  destruct (Histogram.in_range minRange maxRange x);
    destruct (Histogram.in_range minRange maxRange y); intros H1 H2.
  - apply bind_Ret in H1. destruct H1 as [i [Ei H1]].
    apply bind_Ret in H2. destruct H2 as [j [Ej H2]].
    rewrite Ei, Ej. cbn [bind]. apply (increment_at_swap _ _ _ _ _ H1 H2).
  - injection H2 as <-. exists frequencyIntervals. auto.
  - injection H1 as <-. exists l2. auto.
  - injection H1 as <-. injection H2 as <-. exists frequencyIntervals. auto.
Qed.

Lemma tally_all_permutation (minRange maxRange intervalSize : float)
      (samples1 samples2 : list float) :
  Permutation samples1 samples2 ->
  forall frequencyIntervals result : list Z,
    Histogram.tally_all minRange maxRange intervalSize frequencyIntervals samples1
    = Ret result ->
    Histogram.tally_all minRange maxRange intervalSize frequencyIntervals samples2
    = Ret result.
Proof.
  induction 1 as [| x l l' _ IH | x y l | l l' l'' _ IH1 _ IH2];
    intros acc result H.
  - exact H.
  - cbn [Histogram.tally_all] in H |- *.
    apply bind_Ret in H. destruct H as [acc' [Hx H]].
    rewrite Hx. cbn [bind]. apply IH. exact H.
  - cbn [Histogram.tally_all] in H |- *.
    apply bind_Ret in H. destruct H as [acc1 [Hy H]].
    apply bind_Ret in H. destruct H as [acc2 [Hx H]].
    destruct (tally_swap _ _ _ _ _ _ _ _ Hy Hx) as [acc1' [Hx' Hy']].
    rewrite Hx'. cbn [bind]. rewrite Hy'. cbn [bind]. exact H.
  - apply IH2. apply IH1. exact H.
Qed.

(** X16.  The order of the samples does not matter to [histogram]: if it runs to
    its end on a vector of samples, it runs to its end on any rearrangement
    of the vector, and prints the same lines. *)
Theorem histogram_permutation (samples1 samples2 : list float)
        (minRange maxRange : float) (numIntervals : Z) (rows : list Histogram.row) :
  Permutation samples1 samples2 ->
  Histogram.histogram samples1 minRange maxRange numIntervals = Ret rows ->
  Histogram.histogram samples2 minRange maxRange numIntervals = Ret rows.
Proof.
  intros P H. unfold Histogram.histogram in H |- *.
  apply bind_Ret in H. destruct H as [cs [Hcounts Hrows]].
  assert (Hcounts' : Histogram.counts samples2 minRange maxRange numIntervals = Ret cs).
  { unfold Histogram.counts in Hcounts |- *.
    destruct (numIntervals <? 0); [discriminate |].
    apply (tally_all_permutation _ _ _ _ _ P). exact Hcounts. }
  rewrite Hcounts'. cbn [bind].
  rewrite <- (Permutation_length P). exact Hrows.
Qed.

Lemma histogram_permutation_witness :
  Histogram.histogram [0.75; 2; 0.25]%float 0 1 4
  = Ret [Histogram.Build_row 0 0.25 0;
         Histogram.Build_row 0.25 0.5 (Double.of_Z 1 / Double.of_Z 3);
         Histogram.Build_row 0.5 0.75 0;
         Histogram.Build_row 0.75 1 (Double.of_Z 1 / Double.of_Z 3)].
Proof.
  apply (histogram_permutation [0.25; 0.75; 2]%float [0.75; 2; 0.25]%float 0 1 4).
  - apply (perm_trans (l' := [0.75; 0.25; 2]%float));
      [apply perm_swap | apply perm_skip, perm_swap].
  - vm_compute. reflexivity.
Defined.

(** ** The sample at the lower end of the range *)

Lemma finite_valid (x : float) :
  is_finite x = true -> is_finite_SF (Prim2SF x) = true.
Proof.
  unfold is_finite, is_nan, is_infinity. rewrite !eqb_spec, abs_spec.
  change (Prim2SF infinity) with (S754_infinity false).
  destruct (Prim2SF x) as [s | s | | s m e]; intros H; try reflexivity;
    try destruct s; discriminate.
Qed.

Lemma SFsub_diag (x : spec_float) :
  is_finite_SF x = true -> SF64sub x x = S754_zero false.
Proof.
  destruct x as [s | s | | s m e]; try discriminate; intros _.
  - destruct s; reflexivity.
  - unfold SF64sub, SFsub. rewrite Z.sub_diag. reflexivity.
Qed.

Lemma SFdiv_zero_positive (y : spec_float) :
  SFltb (S754_zero false) y = true ->
  SF64div (S754_zero false) y = S754_zero false.
Proof.
  destruct y as [s | s | | s m e]; try discriminate;
    destruct s; try discriminate; reflexivity.
Qed.

(** X17.  A sample equal to [minRange] is counted in the first bin: with a finite
    [minRange <= maxRange] and a positive interval size, the index computed
    for it is [static_cast<int>(0.0 / intervalSize)], 0. *)
Theorem tally_min_sample (minRange maxRange intervalSize : float)
        (count : Z) (frequencyIntervals : list Z) :
  is_finite minRange = true -> (minRange <=? maxRange)%float = true ->
  (0 <? intervalSize)%float = true -> count <> Double.INT_MAX ->
  Histogram.tally minRange maxRange intervalSize (count :: frequencyIntervals) minRange
  = Ret (count + 1 :: frequencyIntervals).
Proof.
  intros Hfin Hle Hsize Hcount.
  pose proof (finite_valid minRange Hfin) as F.
  unfold Histogram.tally, Histogram.in_range.
  rewrite (leb_ulps minRange minRange F F), Z.leb_refl, Hle. cbn [andb].
  assert (E : Prim2SF ((minRange - minRange) / intervalSize) = S754_zero false).
  { rewrite div_spec, sub_spec, SFsub_diag by exact F.
    apply SFdiv_zero_positive. rewrite <- Prim2SF_zero, <- ltb_spec. exact Hsize. }
  unfold Double.to_int, Double.truncate. rewrite E.
  change ((Double.INT_MIN <=? 0) && (0 <=? Double.INT_MAX)) with true.
  cbn [bind]. unfold Histogram.increment_at.
  change (0 <? 0) with false. change (Z.to_nat 0) with O. cbn [Histogram.increment].
  destruct (Z.eqb_spec count Double.INT_MAX); [contradiction | reflexivity].
Qed.

(** The first sample of a call [histogram(values, -3, 3, 6)]. *)
Lemma tally_min_sample_witness :
  Histogram.tally (-3) 3 ((3 - -3) / Double.of_Z 6) [0; 0; 0; 0; 0; 0] (-3)
  = Ret [0 + 1; 0; 0; 0; 0; 0].
Proof.
  apply (tally_min_sample (-3) 3 ((3 - -3) / Double.of_Z 6) 0 [0; 0; 0; 0; 0]);
    (reflexivity || discriminate).
Defined.

(** ** When the counting loop runs to its end *)

Lemma increment_runs (frequencyIntervals : list Z) :
  forall interval : nat,
    (interval < length frequencyIntervals)%nat ->
    nth interval frequencyIntervals 0 <> Double.INT_MAX ->
    exists result : list Z,
      Histogram.increment frequencyIntervals interval = Ret result.
Proof.
  induction frequencyIntervals as [| n rest IH]; intros [| i] Hi Hn;
    simpl in Hi; try lia.
  - simpl in Hn |- *. destruct (Z.eqb_spec n Double.INT_MAX); [contradiction | eauto].
  - destruct (IH i ltac:(lia) Hn) as [rest' E]. simpl. rewrite E. simpl. eauto.
Qed.

Lemma increment_inside (frequencyIntervals : list Z) :
  forall (interval : nat) (result : list Z),
    Histogram.increment frequencyIntervals interval = Ret result ->
    (interval < length frequencyIntervals)%nat.
Proof.
  induction frequencyIntervals as [| n rest IH]; intros [| i] result H;
    simpl in H; try discriminate.
  - simpl. lia.
  - apply bind_Ret in H. destruct H as [rest' [E _]].
    apply IH in E. simpl. lia.
Qed.

Lemma nth_le_total (frequencyIntervals : list Z) :
  Forall (fun n => 0 <= n) frequencyIntervals ->
  forall i : nat, nth i frequencyIntervals 0 <= Tally.total frequencyIntervals.
Proof.
  induction 1 as [| n rest Hn Hrest IH]; intros [| i]; simpl; try lia.
  - pose proof (total_nonneg rest Hrest). unfold Tally.total in *. lia.
  - specialize (IH i). unfold Tally.total in *. lia.
Qed.

(** If every sample within the range has its index inside the vector, and
    no count can reach [INT_MAX], the counting loop runs to its end. *)
Lemma tally_all_runs (minRange maxRange intervalSize : float)
      (randomValues : list float) :
  forall frequencyIntervals : list Z,
    Forall (fun n => 0 <= n) frequencyIntervals ->
    Tally.total frequencyIntervals + Z.of_nat (length randomValues)
    <= Double.INT_MAX ->
    (forall v : float,
        In v randomValues ->
        Histogram.in_range minRange maxRange v = true ->
        exists interval : Z,
          Double.to_int ((v - minRange) / intervalSize)%float = Ret interval
          /\ 0 <= interval < Z.of_nat (length frequencyIntervals)) ->
    exists result : list Z,
      Histogram.tally_all minRange maxRange intervalSize frequencyIntervals
        randomValues = Ret result.
Proof.
  induction randomValues as [| v rest IH]; intros acc Hacc Htotal Hbins.
  - simpl. eauto.
  - cbn [Histogram.tally_all].
    assert (Hstep : exists acc',
               Histogram.tally minRange maxRange intervalSize acc v = Ret acc').
    { unfold Histogram.tally.
      destruct (Histogram.in_range minRange maxRange v) eqn:Hv; [| eauto].
      destruct (Hbins v (or_introl eq_refl) Hv) as [i [Ei Hi]].
      rewrite Ei. cbn [bind]. unfold Histogram.increment_at.
      destruct (Z.ltb_spec i 0); [lia |].
      apply increment_runs; [lia |].
      pose proof (nth_le_total acc Hacc (Z.to_nat i)).
      simpl length in Htotal. lia. }
    destruct Hstep as [acc' Hstep]. rewrite Hstep. cbn [bind].
    destruct (tally_spec _ _ _ _ _ _ Hstep) as [Hlen [Ht Hnn]].
    apply IH.
    + apply Hnn. exact Hacc.
    + rewrite Ht. simpl length in Htotal.
      destruct (Histogram.in_range minRange maxRange v); lia.
    + intros v' Hin. rewrite Hlen. apply Hbins. right. exact Hin.
Qed.

(** If the counting loop runs to its end, every sample within the range had
    its index inside the vector. *)
Lemma tally_all_bins (minRange maxRange intervalSize : float)
      (randomValues : list float) :
  forall frequencyIntervals result : list Z,
    Histogram.tally_all minRange maxRange intervalSize frequencyIntervals
      randomValues = Ret result ->
    forall v : float,
      In v randomValues ->
      Histogram.in_range minRange maxRange v = true ->
      exists interval : Z,
        Double.to_int ((v - minRange) / intervalSize)%float = Ret interval
        /\ 0 <= interval < Z.of_nat (length frequencyIntervals).
Proof.
  induction randomValues as [| v rest IH]; intros acc result H v' Hin.
  - destruct Hin.
  - cbn [Histogram.tally_all] in H.
    apply bind_Ret in H. destruct H as [acc' [Hstep H]].
    destruct (tally_spec _ _ _ _ _ _ Hstep) as [Hlen _].
    destruct Hin as [<- | Hin].
    + intros Hv. unfold Histogram.tally in Hstep. rewrite Hv in Hstep.
      apply bind_Ret in Hstep. destruct Hstep as [i [Ei Hinc]].
      exists i. split; [exact Ei |].
      unfold Histogram.increment_at in Hinc.
      destruct (Z.ltb_spec i 0); [discriminate |].
      apply increment_inside in Hinc. lia.
    + rewrite <- Hlen. apply (IH acc' result H). exact Hin.
Qed.

(** The whole call, when every sample within the range has its index
    inside the vector. *)
Lemma histogram_runs (randomValues : list float)
      (minRange maxRange : float) (numIntervals : Z) :
  0 <= numIntervals ->
  Z.of_nat (length randomValues) <= Double.INT_MAX ->
  (forall v : float,
      In v randomValues ->
      Histogram.in_range minRange maxRange v = true ->
      exists interval : Z,
        Double.to_int
          ((v - minRange) / ((maxRange - minRange) / Double.of_Z numIntervals))%float
        = Ret interval
        /\ 0 <= interval < numIntervals) ->
  exists rows : list Histogram.row,
    Histogram.histogram randomValues minRange maxRange numIntervals = Ret rows
    /\ length rows = Z.to_nat numIntervals.
Proof.
  intros Hn Hsize Hbins. unfold Histogram.histogram, Histogram.counts.
  destruct (Z.ltb_spec numIntervals 0) as [Hneg | _]; [lia |].
  destruct (tally_all_runs minRange maxRange
              ((maxRange - minRange) / Double.of_Z numIntervals)%float
              randomValues (repeat 0 (Z.to_nat numIntervals)))
    as [cs Hcs].
  - apply Forall_repeat_zero.
  - rewrite total_repeat_zero. lia.
  - intros v Hin Hv. destruct (Hbins v Hin Hv) as [i [Ei Hi]].
    exists i. split; [exact Ei |]. rewrite repeat_length. lia.
  - rewrite Hcs. cbn [bind]. eexists. split; [reflexivity |].
    rewrite lines_length.
    destruct (tally_all_spec _ _ _ _ _ _ Hcs) as [Hlen _].
    rewrite Hlen. apply repeat_length.
Qed.

(** X18.  [histogram] runs to its end exactly when every sample within the range
    is given an index inside the vector of bins: for [numIntervals >= 0]
    and no more than [INT_MAX] samples (so that no count overflows), it
    returns if and only if, for every sample [v] of [minRange, maxRange],
    [static_cast<int>((v - minRange) / intervalSize)] is defined and lies
    in [0, numIntervals). *)
Theorem histogram_runs_iff (randomValues : list float)
        (minRange maxRange : float) (numIntervals : Z) :
  0 <= numIntervals ->
  Z.of_nat (length randomValues) <= Double.INT_MAX ->
  (exists rows : list Histogram.row,
      Histogram.histogram randomValues minRange maxRange numIntervals = Ret rows)
  <-> (forall v : float,
          In v randomValues ->
          Histogram.in_range minRange maxRange v = true ->
          exists interval : Z,
            Double.to_int
              ((v - minRange) / ((maxRange - minRange) / Double.of_Z numIntervals))%float
            = Ret interval
            /\ 0 <= interval < numIntervals).
Proof.
  intros Hn Hsize. unfold Histogram.histogram, Histogram.counts.
  destruct (Z.ltb_spec numIntervals 0) as [Hneg | _]; [lia |].
  split.
  - intros [rows H] v Hin Hv.
    apply bind_Ret in H. destruct H as [cs [Hcs _]].
    destruct (tally_all_bins _ _ _ _ _ _ Hcs v Hin Hv) as [i [Ei Hi]].
    exists i. split; [exact Ei |]. rewrite repeat_length in Hi. lia.
  - intros Hbins.
    destruct (histogram_runs randomValues minRange maxRange numIntervals
                Hn Hsize Hbins) as [rows [H _]].
    exists rows. unfold Histogram.histogram, Histogram.counts in H.
    destruct (Z.ltb_spec numIntervals 0); [lia | exact H].
Qed.

(** Four samples, one of them outside the range, in four bins. *)
Lemma histogram_runs_iff_witness :
  (exists rows : list Histogram.row,
      Histogram.histogram [0.25; 0.5; 2; 0.75]%float 0 1 4 = Ret rows)
  <-> (forall v : float,
          In v [0.25; 0.5; 2; 0.75]%float ->
          Histogram.in_range 0 1 v = true ->
          exists interval : Z,
            Double.to_int ((v - 0) / ((1 - 0) / Double.of_Z 4))%float = Ret interval
            /\ 0 <= interval < 4).
Proof.
  apply (histogram_runs_iff [0.25; 0.5; 2; 0.75]%float 0 1 4).
  - lia.
  - unfold Double.INT_MAX. simpl. lia.
Defined.

(** ** The bins of the samples of [main] *)

(** The quotient of two normal numbers, when it is a normal number: it is
    at most [1 + 2^-52] times the exact quotient, and less than two units of
    the last place of a 54-bit quotient below it. *)
Lemma SFdiv_bounds (mc mn : positive) (ec en : Z) :
  2 ^ 52 <= Zpos mc < 2 ^ 53 -> 2 ^ 52 <= Zpos mn < 2 ^ 53 ->
  -1074 <= ec - en - 53 -> ec - en - 51 <= 971 ->
  exists m e,
    SF64div (S754_finite false mc ec) (S754_finite false mn en)
    = S754_finite false m e
    /\ -1074 <= e /\ 0 <= e - (ec - en - 53)
    /\ Zpos m * 2 ^ (e - (ec - en - 53)) * Zpos mn * 2 ^ 52
       <= Zpos mc * (2 ^ 52 + 1) * 2 ^ 53
    /\ Zpos mc * 2 ^ 53 < (Zpos m * 2 ^ (e - (ec - en - 53)) + 2) * Zpos mn.
Proof.
  intros Hc Hn Hlo Hhi.
  assert (Dc : Zpos (digits2_pos mc) = 53) by (apply digits2_unique; simpl; lia).
  assert (Dn : Zpos (digits2_pos mn) = 53) by (apply digits2_unique; simpl; lia).
  unfold SF64div, SFdiv, SFdiv_core_binary.
  simpl Zdigits2. rewrite Dc, Dn, fexp64.
  replace (Z.min (Z.max (53 + ec - (53 + en) - 53) (-1074)) (ec - en))
    with (ec - en - 53) by lia.
  replace (ec - en - (ec - en - 53)) with 53 by lia.
  rewrite Z.shiftl_mul_pow2 by lia.
  set (e' := ec - en - 53) in *.
  pose proof (Z_div_mod (Zpos mc * 2 ^ 53) (Zpos mn) ltac:(lia)) as Hdm.
  destruct (Z.div_eucl (Zpos mc * 2 ^ 53) (Zpos mn)) as [q r].
  destruct Hdm as [Hq Hr].
  assert (Hq52 : 2 ^ 52 <= q < 2 ^ 54).
  { split.
    - destruct (Z.le_gt_cases (2 ^ 52) q) as [| G]; [assumption | exfalso].
      assert (Zpos mn * (q + 1) <= Zpos mn * 2 ^ 52)
        by (apply Z.mul_le_mono_nonneg_l; lia).
      assert (Zpos mn * 2 ^ 52 < 2 ^ 53 * 2 ^ 52)
        by (apply Z.mul_lt_mono_pos_r; lia).
      assert (2 ^ 52 * 2 ^ 53 <= Zpos mc * 2 ^ 53)
        by (apply Z.mul_le_mono_nonneg_r; lia).
      lia.
    - destruct (Z.lt_ge_cases q (2 ^ 54)) as [| G]; [assumption | exfalso].
      assert (Zpos mn * 2 ^ 54 <= Zpos mn * q)
        by (apply Z.mul_le_mono_nonneg_l; lia).
      assert (2 ^ 52 * 2 ^ 54 <= Zpos mn * 2 ^ 54)
        by (apply Z.mul_le_mono_nonneg_r; lia).
      assert (Zpos mc * 2 ^ 53 < 2 ^ 53 * 2 ^ 53)
        by (apply Z.mul_lt_mono_pos_r; lia).
      lia. }
  simpl xorb.
  set (l := new_location (Zpos mn) r).
  destruct q as [| pq | pq]; try (simpl in Hq52; lia).
  assert (H53 : 2 ^ 53 = 2 * 2 ^ 52) by reflexivity.
  assert (H54 : 2 ^ 54 = 2 * (2 * 2 ^ 52)) by reflexivity.
  assert (HT : 0 < 2 ^ 52) by reflexivity.
  assert (Hnext : Zpos mc * 2 ^ 53 < Zpos mn * (Zpos pq + 1)) by lia.
  unfold binary_round_aux.
  destruct (Z.lt_ge_cases (Zpos pq) (2 ^ 53)) as [Hsmall | Hbig].
  - (* a 53-bit quotient: no shift *)
    assert (Dq : Zpos (digits2_pos pq) = 53) by (apply digits2_unique; simpl; lia).
    unfold shr_fexp at 1. simpl Zdigits2. rewrite Dq, fexp64.
    replace (Z.max (53 + e' - 53) (-1074) - e') with 0 by lia.
    simpl shr. cbv beta iota. rewrite shr_record_of_loc_m.
    destruct (round_nearest_even_bounds (Zpos pq)
                (loc_of_shr_record (shr_record_of_loc (Zpos pq) l)))
      as [[Hlo' Hhi'] _].
    set (m1 := round_nearest_even (Zpos pq) _) in *.
    destruct (round_finish false m1 e' ltac:(lia) ltac:(lia) ltac:(left; lia))
      as [m [e [Hfin [_ [He [He' Hm]]]]]].
    exists m, e. split; [exact Hfin |]. split; [exact He |]. split; [lia |].
    rewrite Hm. split.
    + rewrite H53.
      replace (m1 * Zpos mn * 2 ^ 52) with (m1 * 1 * Zpos mn * 2 ^ 52) by ring.
      apply (quotient_bound (2 ^ 52) (Zpos pq) (Zpos mn) (Zpos mc) r m1 1 (Zpos pq));
        lia.
    + assert (Zpos mn * (Zpos pq + 1) <= Zpos mn * (m1 + 2))
        by (apply Z.mul_le_mono_nonneg_l; lia).
      lia.
  - (* a 54-bit quotient: one place is shifted out *)
    assert (Dq : Zpos (digits2_pos pq) = 54) by (apply digits2_unique; simpl; lia).
    unfold shr_fexp at 1. simpl Zdigits2. rewrite Dq, fexp64.
    replace (Z.max (54 + e' - 53) (-1074) - e') with 1 by lia.
    simpl shr. cbv beta iota.
    rewrite shr_1_m by (rewrite shr_record_of_loc_m; lia).
    rewrite shr_record_of_loc_m.
    pose proof (Z.div_mod (Zpos pq) 2 ltac:(lia)) as Hh.
    pose proof (Z.mod_pos_bound (Zpos pq) 2 ltac:(lia)) as Hhr.
    set (h := Zpos pq / 2) in *.
    destruct (round_nearest_even_bounds h
                (loc_of_shr_record (shr_1 (shr_record_of_loc (Zpos pq) l))))
      as [[Hlo' Hhi'] _].
    set (m1 := round_nearest_even h _) in *.
    destruct (round_finish false m1 (e' + 1) ltac:(lia) ltac:(lia) ltac:(left; lia))
      as [m [e [Hfin [_ [He [He' Hm]]]]]].
    exists m, e. split; [exact Hfin |]. split; [exact He |]. split; [lia |].
    replace (e - e') with (e - (e' + 1) + 1) by lia.
    rewrite pow2_double by lia.
    replace (Zpos m * (2 * 2 ^ (e - (e' + 1))))
      with (Zpos m * 2 ^ (e - (e' + 1)) * 2) by ring.
    rewrite Hm. split.
    + rewrite H53.
      apply (quotient_bound (2 ^ 52) (Zpos pq) (Zpos mn) (Zpos mc) r m1 2 h); lia.
    + assert (Zpos mn * (Zpos pq + 1) <= Zpos mn * (m1 * 2 + 2))
        by (apply Z.mul_le_mono_nonneg_l; lia).
      lia.
Qed.

(** The same on doubles, in units of [2^-1074]: for normal [a] and [b] with
    a normal quotient, [a / b] is a normal number [q] with
    [q * b <= a * (1 + 2^-52)] and [a < q * b * (1 + 2^-51)]. *)
Lemma div_bounds (a b : float) (ma mb : positive) (ea eb : Z) :
  Prim2SF a = S754_finite false ma ea -> Prim2SF b = S754_finite false mb eb ->
  2 ^ 52 <= Zpos ma -> 2 ^ 52 <= Zpos mb ->
  -1074 < ea - eb - 53 -> ea - eb - 51 <= 971 ->
  exists m e,
    Prim2SF (a / b) = S754_finite false m e
    /\ 2 ^ 52 <= Zpos m < 2 ^ 53
    /\ ea - eb - 53 <= e <= ea - eb - 51
    /\ ulps (Prim2SF (a / b)) * ulps (Prim2SF b) * 2 ^ 52
       <= ulps (Prim2SF a) * (2 ^ 52 + 1) * 2 ^ 1074
    /\ ulps (Prim2SF a) * 2 ^ 1074 * 2 ^ 51
       < ulps (Prim2SF (a / b)) * (2 ^ 51 + 1) * ulps (Prim2SF b).
Proof.
  intros Ha Hb Na Nb Hlo Hhi.
  pose proof (Prim2SF_valid a) as Va. rewrite Ha in Va.
  pose proof (Prim2SF_valid b) as Vb. rewrite Hb in Vb.
  destruct (valid_finite _ _ _ Va) as [Ea [Ma _]].
  destruct (valid_finite _ _ _ Vb) as [Eb [Mb _]].
  destruct (SFdiv_bounds ma mb ea eb ltac:(lia) ltac:(lia) ltac:(lia) Hhi)
    as [m [e [Hdiv [He [Hj [Hup Hdown]]]]]].
  pose proof (Prim2SF_valid (a / b)) as Vq.
  rewrite div_spec, Ha, Hb, Hdiv in Vq.
  destruct (valid_finite _ _ _ Vq) as [Eq [Mq Nq]].
  assert (Nm : 2 ^ 52 <= Zpos m) by (destruct Nq; lia).
  set (e' := ea - eb - 53) in *.
  set (j := e - e') in *.
  pose proof (pow2_gt0 j Hj) as Pj.
  assert (H52 : 0 < 2 ^ 52) by reflexivity.
  assert (H53 : 2 ^ 53 = 2 * 2 ^ 52) by reflexivity.
  assert (H51 : 2 ^ 52 = 2 * 2 ^ 51) by reflexivity.
  assert (Hj2 : j <= 2).
  { destruct (Z.le_gt_cases j 2) as [| G]; [assumption | exfalso].
    assert (P3 : 2 ^ 3 <= 2 ^ j) by (apply pow2_le; lia).
    change (2 ^ 3) with 8 in P3.
    assert (T1 : 2 ^ 52 * 8 <= Zpos m * 2 ^ j)
      by (apply Z.mul_le_mono_nonneg; lia).
    assert (T2 : 2 ^ 52 * 8 * 2 ^ 52 <= Zpos m * 2 ^ j * Zpos mb)
      by (apply Z.mul_le_mono_nonneg; lia).
    assert (S1 : 2 ^ 52 * 8 * 2 ^ 52 * 2 ^ 52 <= Zpos m * 2 ^ j * Zpos mb * 2 ^ 52)
      by (apply Z.mul_le_mono_nonneg_r; lia).
    assert (S2 : Zpos ma * (2 ^ 52 + 1) * 2 ^ 53 < 2 ^ 53 * (2 ^ 52 + 1) * 2 ^ 53).
    { apply Z.mul_lt_mono_pos_r; [lia |]. apply Z.mul_lt_mono_pos_r; lia. }
    lia. }
  exists m, e. rewrite div_spec, Ha, Hb, Hdiv.
  split; [reflexivity |]. split; [lia |]. split; [unfold j in *; lia |].
  unfold ulps, cond_Zopp.
  set (P := 2 ^ (e' + 1074) * 2 ^ (eb + 1074)).
  assert (PP : 0 < P).
  { unfold P. apply Z.mul_pos_pos; apply pow2_gt0; lia. }
  assert (Eq1 : Zpos m * 2 ^ (e + 1074) = Zpos m * 2 ^ j * 2 ^ (e' + 1074)).
  { rewrite <- Z.mul_assoc, <- pow2_split by lia. f_equal. f_equal. unfold j. lia. }
  assert (Eq2 : 2 ^ 53 * P = 2 ^ (ea + 1074) * 2 ^ 1074).
  { unfold P. rewrite <- !pow2_split by lia. f_equal. unfold e'. lia. }
  rewrite Eq1. set (M := Zpos m * 2 ^ j) in *.
  assert (HM : 2 ^ 52 <= M) by (unfold M; nia).
  split.
  - replace (M * 2 ^ (e' + 1074) * (Zpos mb * 2 ^ (eb + 1074)) * 2 ^ 52)
      with (M * Zpos mb * 2 ^ 52 * P) by (unfold P; ring).
    replace (Zpos ma * 2 ^ (ea + 1074) * (2 ^ 52 + 1) * 2 ^ 1074)
      with (Zpos ma * (2 ^ 52 + 1) * (2 ^ (ea + 1074) * 2 ^ 1074)) by ring.
    rewrite <- Eq2.
    replace (Zpos ma * (2 ^ 52 + 1) * (2 ^ 53 * P))
      with (Zpos ma * (2 ^ 52 + 1) * 2 ^ 53 * P) by ring.
    apply Z.mul_le_mono_nonneg_r; [lia | exact Hup].
  - replace (Zpos ma * 2 ^ (ea + 1074) * 2 ^ 1074 * 2 ^ 51)
      with (Zpos ma * 2 ^ 51 * (2 ^ (ea + 1074) * 2 ^ 1074)) by ring.
    rewrite <- Eq2.
    replace (M * 2 ^ (e' + 1074) * (2 ^ 51 + 1) * (Zpos mb * 2 ^ (eb + 1074)))
      with (M * (2 ^ 51 + 1) * Zpos mb * P) by (unfold P; ring).
    replace (Zpos ma * 2 ^ 51 * (2 ^ 53 * P))
      with (Zpos ma * 2 ^ 53 * 2 ^ 51 * P) by ring.
    apply Z.mul_lt_mono_pos_r; [exact PP |].
    apply Z.lt_le_trans with ((M + 2) * Zpos mb * 2 ^ 51).
    + apply Z.mul_lt_mono_pos_r; [lia | exact Hdown].
    + replace ((M + 2) * Zpos mb * 2 ^ 51) with ((M + 2) * 2 ^ 51 * Zpos mb) by ring.
      apply Z.mul_le_mono_nonneg_r; lia.
Qed.

(** The chain of the three quotients of an index: [v <= (x/m) (1 + 2^-52)],
    [1/N < s (1 + 2^-51)] and [q s <= v (1 + 2^-52)] leave [q < N] when
    [x/m] is far enough below 1. *)
Lemma index_chain (Uq Us Uv W N x m A B C D : Z) :
  0 < W -> 0 < N -> 0 <= x -> 0 < m -> 0 < A -> 0 < B -> 0 < C -> 0 < D ->
  0 < Us -> 0 <= Uq -> 0 <= Uv ->
  Uq * Us * A <= Uv * B * W ->
  W * C < Us * D * N ->
  Uv * m * A <= x * B * W ->
  x * (B * B * D) < m * (C * A * A) ->
  Uq < N * W.
Proof.
  intros HW HN Hx Hm HA HB HC HD HUs HUq HUv H1 H2 H3 Hnum.
  destruct (Z.lt_ge_cases Uq (N * W)) as [| G]; [assumption | exfalso].
  (* [N * Us * A <= Uv * B] *)
  assert (S1 : N * W * (Us * A) <= Uq * (Us * A))
    by (apply Z.mul_le_mono_nonneg_r; nia).
  assert (S2 : (N * Us * A) * W <= (Uv * B) * W) by lia.
  assert (S3 : N * Us * A <= Uv * B)
    by (apply (Z.mul_le_mono_pos_r _ _ W HW); exact S2).
  (* [W * C * A < Uv * B * D] *)
  assert (S4 : (W * C) * A < (Us * D * N) * A)
    by (apply Z.mul_lt_mono_pos_r; assumption).
  assert (S5 : (N * Us * A) * D <= (Uv * B) * D)
    by (apply Z.mul_le_mono_nonneg_r; lia).
  assert (S6 : W * C * A < Uv * B * D) by lia.
  (* times [m * A] *)
  assert (S7 : (W * C * A) * (m * A) < (Uv * B * D) * (m * A))
    by (apply Z.mul_lt_mono_pos_r; nia).
  assert (S8 : (Uv * m * A) * (B * D) <= (x * B * W) * (B * D))
    by (apply Z.mul_le_mono_nonneg_r; nia).
  assert (S9 : W * (m * (C * A * A)) < W * (x * (B * B * D))) by lia.
  apply Z.mul_lt_mono_pos_l in S9; lia.
Qed.

(** [static_cast<int>] of a double below an [int]. *)
Lemma to_int_below (q : float) (mq : positive) (eq N : Z) :
  Prim2SF q = S754_finite false mq eq -> -1074 <= eq ->
  Zpos mq * 2 ^ (eq + 1074) < N * 2 ^ 1074 -> N <= Double.INT_MAX ->
  exists i : Z, Double.to_int q = Ret i /\ 0 <= i < N.
Proof.
  intros Hq He Hlt HN.
  unfold Double.to_int, Double.truncate. rewrite Hq. unfold cond_Zopp.
  pose proof (pow2_gt0 1074 ltac:(lia)) as PW.
  assert (Hz : 0 <= Z.shiftl (Zpos mq) eq < N).
  { destruct (Z.le_gt_cases 0 eq) as [Hpos | Hneg].
    - rewrite Z.shiftl_mul_pow2 by exact Hpos.
      pose proof (pow2_gt0 eq Hpos) as Pe.
      rewrite (pow2_split eq 1074) in Hlt by lia.
      split; [nia |].
      apply (Z.mul_lt_mono_pos_r (2 ^ 1074)); [exact PW | lia].
    - assert (Es : Z.shiftl (Zpos mq) eq = Zpos mq / 2 ^ (- eq)).
      { rewrite <- (Z.opp_involutive eq) at 1.
        rewrite Z.shiftl_opp_r, Z.shiftr_div_pow2 by lia. reflexivity. }
      rewrite Es.
      pose proof (pow2_gt0 (- eq) ltac:(lia)) as Pe.
      pose proof (pow2_gt0 (eq + 1074) ltac:(lia)) as Pe'.
      assert (E : 2 ^ 1074 = 2 ^ (- eq) * 2 ^ (eq + 1074)).
      { rewrite <- pow2_split by lia. f_equal. lia. }
      rewrite E in Hlt.
      assert (Hm : Zpos mq < N * 2 ^ (- eq)).
      { apply (Z.mul_lt_mono_pos_r (2 ^ (eq + 1074))); [exact Pe' | lia]. }
      split; [apply Z.div_pos; lia |].
      apply Z.div_lt_upper_bound; lia. }
  unfold Double.INT_MIN, Double.INT_MAX in *.
  destruct (Z.leb_spec (- 2 ^ 31) (Z.shiftl (Zpos mq) eq)); [| lia].
  destruct (Z.leb_spec (Z.shiftl (Zpos mq) eq) (2 ^ 31 - 1)); [| lia].
  eexists. split; [reflexivity | exact Hz].
Qed.

(** The bin of a sample of a congruential generator of [main]: for a state
    [x] below the modulus [2^31 - 1] and [N] bins, the index
    [static_cast<int>((x/m - 0.0) / ((1.0 - 0.0) / N))] is inside the vector. *)
Lemma congruential_index (x N : Z) :
  0 <= x < 2147483647 -> 1 <= N <= Double.INT_MAX ->
  exists i : Z,
    Double.to_int
      ((Double.of_Z x / Double.of_Z 2147483647 - 0) / ((1 - 0) / Double.of_Z N))%float
    = Ret i
    /\ 0 <= i < N.
Proof.
  unfold Double.INT_MAX. intros Hx HN.
  change ((1 - 0)%float) with 1%float.
  pose proof (pow2_gt0 1074 ltac:(lia)) as PW.
  (* the interval size *)
  destruct (of_Z_small N ltac:(lia)) as [mN [eN [HNf [HeN [HmN HNv]]]]].
  destruct (ulps_of_Z N ltac:(lia)) as [_ UN].
  destruct (div_bounds 1 (Double.of_Z N) 4503599627370496 mN (-52) eN
              eq_refl HNf ltac:(lia) ltac:(lia) ltac:(lia) ltac:(lia))
    as [ms [es [Hs [Nms [Ees [_ Hslow]]]]]].
  rewrite ulps_one, UN in Hslow.
  set (size := (1 / Double.of_Z N)%float) in *.
  assert (Us : 0 < ulps (Prim2SF size)).
  { rewrite Hs. unfold ulps, cond_Zopp.
    pose proof (pow2_gt0 (es + 1074) ltac:(lia)). nia. }
  destruct (Z.eq_dec x 0) as [-> | Hx0].
  - (* the sample 0 *)
    assert (E : Prim2SF ((Double.of_Z 0 / Double.of_Z 2147483647 - 0) / size)
                = S754_zero false).
    { rewrite div_spec, Hs. reflexivity. }
    exists 0. unfold Double.to_int, Double.truncate. rewrite E.
    split; [reflexivity | lia].
  - destruct (of_Z_small x ltac:(lia)) as [mx [ex [Hxf [Hex [Hmx Hxv]]]]].
    destruct (ulps_of_Z x ltac:(lia)) as [_ Ux].
    destruct (ulps_of_Z 2147483647 ltac:(lia)) as [_ Um].
    destruct (div_bounds (Double.of_Z x) (Double.of_Z 2147483647)
                mx 9007199250546688 ex (-22)
                Hxf eq_refl ltac:(lia) ltac:(lia) ltac:(lia) ltac:(lia))
      as [mv [ev [Hv [Nmv [Eev [Hvup _]]]]]].
    rewrite Ux, Um in Hvup.
    set (v := (Double.of_Z x / Double.of_Z 2147483647)%float) in *.
    assert (Hd : Prim2SF (v - 0) = S754_finite false mv ev).
    { rewrite sub_spec, Hv. reflexivity. }
    destruct (div_bounds (v - 0) size mv ms ev es Hd Hs
                ltac:(lia) ltac:(lia) ltac:(lia) ltac:(lia))
      as [mq [eq [Hq [Nmq [Eeq [Hqup _]]]]]].
    rewrite Hd, <- Hv in Hqup.
    apply (to_int_below _ mq eq N Hq); [lia | | unfold Double.INT_MAX; lia].
    change (Zpos mq * 2 ^ (eq + 1074)) with (ulps (S754_finite false mq eq)).
    rewrite <- Hq.
    assert (Uq0 : 0 <= ulps (Prim2SF ((v - 0) / size))).
    { rewrite Hq. unfold ulps, cond_Zopp.
      pose proof (pow2_gt0 (eq + 1074) ltac:(lia)). nia. }
    assert (Uv0 : 0 <= ulps (Prim2SF v)).
    { rewrite Hv. unfold ulps, cond_Zopp.
      pose proof (pow2_gt0 (ev + 1074) ltac:(lia)). nia. }
    set (W := 2 ^ 1074) in *.
    apply (index_chain _ (ulps (Prim2SF size)) (ulps (Prim2SF v)) W N x 2147483647
             (2 ^ 52) (2 ^ 52 + 1) (2 ^ 51) (2 ^ 51 + 1)); try lia.
Qed.

(** X19.  The rounds of the menu of [main] on its generators 1 to 4 never
    fault: from a world of [main], for any number of values [n] and any
    number of bins [N >= 1] an [int] holds, the round draws its [n] values
    and [histogram(values, 0, 1, N)] runs to its end, printing [N] lines.
    No sample of theirs can reach the index [N]: they are quotients
    [x / 2147483647] with [x <= 2147483646], too far below 1 for the
    roundings of the three divisions to make up.  The generator 6 has no
    such margin: on nine draws of [RAND_MAX] and three of 0 it returns 3.0,
    the upper end of the range [main] gives it, and the round with 6 bins
    writes outside the vector. *)
Theorem main_round_runs (log : float -> float) (w : world) (choice n N : Z) :
  Main.invariant w -> 1 <= choice <= 4 ->
  n <= Double.INT_MAX -> 1 <= N <= Double.INT_MAX ->
  (exists (randomValues : list float) (rows : list Histogram.row) (w' : world),
      menu_round log choice n N w = Ret (Values randomValues rows, w')
      /\ Main.invariant w'
      /\ length randomValues = Z.to_nat n /\ length rows = Z.to_nat N)
  /\ menu_round log 6 1 6
       {| heap := generators 1;
          rand_stream := repeat RAND_MAX 9 ++ repeat 0 3 |}
     = Fault OutOfBounds.
Proof.
  intros Hw Hc Hn HN. split; [| vm_compute; reflexivity].
  assert (Hlen : length (heap w) = 7%nat).
  { destruct Hw as (x & xq & x1 & x2 & xi & polar & Hheap & _).
    rewrite Hheap. reflexivity. }
  unfold menu_round. rewrite Hlen.
  destruct (Z.leb_spec 1 choice); [| lia].
  destruct (Z.leb_spec choice (Z.of_nat 7)); [| simpl in *; lia].
  destruct (Z.leb_spec choice 5); [| lia].
  cbn [andb]. unfold sample.
  destruct (main_sample_loop log (Z.to_nat (choice - 1)) (Z.to_nat n)
              ltac:(lia) w [] Hw (Forall_nil _))
    as (values & w' & E & I & R & L & F).
  rewrite E. cbn [bind].
  destruct (histogram_runs values 0 1 N ltac:(lia)) as [rows [Hrows Hl]].
  - rewrite L. simpl length. unfold Double.INT_MAX in *. lia.
  - intros v Hin _. rewrite Forall_forall in F.
    destruct (F v Hin) as (_ & _ & Q).
    destruct (Q ltac:(lia)) as (x & Hx & ->).
    apply congruential_index; assumption.
  - rewrite Hrows. cbn [bind].
    exists values, rows, w'. repeat split; assumption.
Qed.

(** The linear generator of [main], seed 1: three values in ten bins. *)
Lemma main_round_runs_witness :
  (exists (randomValues : list float) (rows : list Histogram.row) (w' : world),
      menu_round (fun s => s) 1 3 10 {| heap := generators 1; rand_stream := [] |}
      = Ret (Values randomValues rows, w')
      /\ Main.invariant w'
      /\ length randomValues = Z.to_nat 3 /\ length rows = Z.to_nat 10)
  /\ menu_round (fun s => s) 6 1 6
       {| heap := generators 1;
          rand_stream := repeat RAND_MAX 9 ++ repeat 0 3 |}
     = Fault OutOfBounds.
Proof.
  apply (main_round_runs (fun s => s)
           {| heap := generators 1; rand_stream := [] |} 1 3 10).
  - apply generators_invariant. u64_range.
  - lia.
  - unfold Double.INT_MAX. lia.
  - unfold Double.INT_MAX. lia.
Defined.
